(** * RedoxPySolid: the redox kinetics engine and the capacitive filters

    A shallow embedding of [redoxKinetics.cpp], [cv.cpp], [swv.cpp] and
    [definitions.h], followed by the properties of the engine, of the
    capacitive filters and of the clock and waveform generators.

    How the C++ is read:
    - [double] is an abstract number type with the operations the code uses
      (class [Arith]).  Two interpretations are given: IEEE binary64
      (Rocq's primitive floats, with the C library's [exp] as a parameter)
      and exact real arithmetic.  Structural properties are proved for every
      interpretation, numerical ones in binary64.
    - a heap block [new double[n]] is a list of [n+1] cells: the [n] cells of
      the array and the cell next to it in memory, which the code reaches by
      indexing one past the end.  A fresh block holds unspecified values
      ([junk]); so does the memory behind the caller's arrays.
    - [int] is a 32-bit two's complement integer, kept as a [Z] in range; a
      [double] that fits no [int] converts to an unspecified one
      ([int_indefinite]).  Loop counters and lengths, which never leave
      [0..N], are [nat]. *)

From Stdlib Require Import ZArith Zquot QArith Floats Reals Lra Lia List Bool.
Import ListNotations.

Set Warnings "-inexact-float".
Local Open Scope nat_scope.

(** ** The arithmetic of [double] *)

Class Arith (D : Type) : Type := {
  dadd : D -> D -> D;
  dsub : D -> D -> D;
  dmul : D -> D -> D;
  ddiv : D -> D -> D;
  dopp : D -> D;
  (** [exp] and [ceil] of <cmath> *)
  dexp : D -> D;
  dceil : D -> D;
  (** the comparison [x > y] *)
  dgt : D -> D -> bool;
  (** the conversion of an [int] to [double] *)
  dint : Z -> D;
  (** a decimal literal of the source *)
  dlit : Q -> D;
  (** the integer part of a number (rounding toward zero); [None] when it
      has none (an infinity or a NaN) *)
  dtrunc : D -> option Z
}.

Declare Scope double_scope.
Delimit Scope double_scope with D.
Infix "+" := dadd : double_scope.
Infix "-" := dsub : double_scope.
Infix "*" := dmul : double_scope.
Infix "/" := ddiv : double_scope.
Notation "- x" := (dopp x) : double_scope.
Infix ">?" := dgt (at level 70, no associativity) : double_scope.

(** ** Memory *)

(** The arrays of the program. *)
Inductive array_id : Set :=
  | InputPulse | DLCcorrected
  | Loadings | KineticConsts | RedoxPots | SymCoefs | Zs
  | Overpotentials | Averaged | Overcorrected
  | ForwardK | BackwardK | KsumArr | KratioArr
  | ForwardHalflife | BackwardHalflife | Cur
  | CorrectedCV | CurrentCV | CorrectedSWV | CurrentSWV.

(** [a[j] = v]; the model only writes cells that exist. *)
Fixpoint upd {A : Type} (j : nat) (v : A) (a : list A) : list A :=
  match a, j with
  | [], _ => []
  | _ :: a', O => v :: a'
  | x :: a', S j' => x :: upd j' v a'
  end.

(** [for (i = start; i < start + count; i++) s = body i s] *)
Fixpoint for_loop {S : Type} (count start : nat) (body : nat -> S -> S) (s : S) : S :=
  match count with
  | O => s
  | Datatypes.S c => for_loop c (Datatypes.S start) body (body start s)
  end.

Section Memory.
Context {D : Type}.
(** What memory holds where the program has stored nothing. *)
Variable junk : array_id -> nat -> D.

(** [a[j]] for the array [id] whose known cells are [a]. *)
Definition rd (id : array_id) (a : list D) (j : nat) : D := nth j a (junk id j).

(** [new double[n]]: the [n] cells and the one behind them. *)
Definition alloc (id : array_id) (n : nat) : list D := map (junk id) (seq 0 (S n)).

End Memory.

(** ** The [int] type *)

Definition INT_MIN : Z := (-2147483648)%Z.
Definition INT_MAX : Z := 2147483647%Z.

Definition fits_int (z : Z) : bool := ((INT_MIN <=? z) && (z <=? INT_MAX))%Z.

(** Two's complement wrap-around. *)
Definition wrap_int (z : Z) : Z := ((z - INT_MIN) mod 4294967296 + INT_MIN)%Z.

(** ** definitions.h *)

Module definitions.
Section Constants.
Context {D : Type} `{Arith D}.
Local Open Scope double_scope.

Definition r : D := dlit 8.3145.
Definition t : D := dlit 295.0.
Definition rt : D := r * t.
Definition f : D := dlit 96485.0.
Definition FbyRT : D := f / rt.
Definition ln2 : D := dlit 0.69314718056.

End Constants.
End definitions.

(** ** redoxKinetics.cpp *)

Module redoxKinetics.
Import definitions.
Section Engine.
Context {D : Type} `{Arith D}.
Variable junk : array_id -> nat -> D.
(** The [int] a conversion from [double] gives when the number does not fit. *)
Variable int_indefinite : Z.
Local Open Scope double_scope.

Local Notation "a [[ id @ j ]]" := (rd junk id a j) (at level 1, format "a [[ id  @  j ]]").

(** The conversion of a [double] argument to an [int] parameter. *)
Definition double_to_int (x : D) : Z :=
  match dtrunc x with
  | Some n => if fits_int n then n else wrap_int int_indefinite
  | None => wrap_int int_indefinite
  end.

Definition startingRedConcentration (overpotential componentLoading : D) (z : Z) : D :=
  let redStart := componentLoading / (dint 1 + dexp (dint z * FbyRT * overpotential)) in
  redStart.

Definition instantaneousRedConc (red0 g Kratio Ksum time : D) : D :=
  let gKratio := g * Kratio in
  let red := gKratio + (red0 - gKratio) * dexp (- Ksum * time) in
  red.

(** The entries [i] of [loadingsArray], [kineticConstArray], [redoxPotArray],
    [symCoefArray] and [zArray]. *)
Record component : Type := mkComponent {
  loading : D;
  kineticConstant : D;
  standardPotential : D;
  symmetryCoefficient : D;
  electronCount : D
}.

(** The working arrays of one call. *)
Record buffers : Type := mkBuffers {
  overpotentials : list D;
  averagedPulseSequence : list D;
  overcorrectedPulseSequence : list D;
  forwardK : list D;
  backwardK : list D;
  Ksum : list D;
  Kratio : list D;
  forwardKhalflife : list D;
  backwardKhalflife : list D;
  cur : list D
}.

Definition set_overpotentials (v : list D) (b : buffers) : buffers :=
  mkBuffers v (averagedPulseSequence b) (overcorrectedPulseSequence b) (forwardK b)
    (backwardK b) (Ksum b) (Kratio b) (forwardKhalflife b) (backwardKhalflife b) (cur b).
Definition set_averaged (v : list D) (b : buffers) : buffers :=
  mkBuffers (overpotentials b) v (overcorrectedPulseSequence b) (forwardK b)
    (backwardK b) (Ksum b) (Kratio b) (forwardKhalflife b) (backwardKhalflife b) (cur b).
Definition set_overcorrected (v : list D) (b : buffers) : buffers :=
  mkBuffers (overpotentials b) (averagedPulseSequence b) v (forwardK b)
    (backwardK b) (Ksum b) (Kratio b) (forwardKhalflife b) (backwardKhalflife b) (cur b).
Definition set_forwardK (v : list D) (b : buffers) : buffers :=
  mkBuffers (overpotentials b) (averagedPulseSequence b) (overcorrectedPulseSequence b) v
    (backwardK b) (Ksum b) (Kratio b) (forwardKhalflife b) (backwardKhalflife b) (cur b).
Definition set_backwardK (v : list D) (b : buffers) : buffers :=
  mkBuffers (overpotentials b) (averagedPulseSequence b) (overcorrectedPulseSequence b) (forwardK b)
    v (Ksum b) (Kratio b) (forwardKhalflife b) (backwardKhalflife b) (cur b).
Definition set_Ksum (v : list D) (b : buffers) : buffers :=
  mkBuffers (overpotentials b) (averagedPulseSequence b) (overcorrectedPulseSequence b) (forwardK b)
    (backwardK b) v (Kratio b) (forwardKhalflife b) (backwardKhalflife b) (cur b).
Definition set_Kratio (v : list D) (b : buffers) : buffers :=
  mkBuffers (overpotentials b) (averagedPulseSequence b) (overcorrectedPulseSequence b) (forwardK b)
    (backwardK b) (Ksum b) v (forwardKhalflife b) (backwardKhalflife b) (cur b).
Definition set_forwardKhalflife (v : list D) (b : buffers) : buffers :=
  mkBuffers (overpotentials b) (averagedPulseSequence b) (overcorrectedPulseSequence b) (forwardK b)
    (backwardK b) (Ksum b) (Kratio b) v (backwardKhalflife b) (cur b).
Definition set_backwardKhalflife (v : list D) (b : buffers) : buffers :=
  mkBuffers (overpotentials b) (averagedPulseSequence b) (overcorrectedPulseSequence b) (forwardK b)
    (backwardK b) (Ksum b) (Kratio b) (forwardKhalflife b) v (cur b).
Definition set_cur (v : list D) (b : buffers) : buffers :=
  mkBuffers (overpotentials b) (averagedPulseSequence b) (overcorrectedPulseSequence b) (forwardK b)
    (backwardK b) (Ksum b) (Kratio b) (forwardKhalflife b) (backwardKhalflife b) v.

(** The lookup bounds of one component. *)
Record window : Type := mkWindow {
  lookupMinTreshhold : nat;
  lookupMaxTreshold : nat;
  LookupThresholdFound : bool
}.

(** What a scan returns: the index it stopped at, if any, and the cells it
    read, first read first. *)
Definition scan : Type := option nat * list (array_id * nat).

(** [for (j = start; j < start + count; j++) if (hl[j] > bound) { ...; break; }] *)
Fixpoint forward_scan (id : array_id) (hl : list D) (bound : D) (count start : nat) : scan :=
  match count with
  | O => (None, [])
  | S count' =>
      if hl[[id @ start]] >? bound then (Some start, [(id, start)])
      else let (found, reads) := forward_scan id hl bound count' (S start) in
           (found, (id, start) :: reads)
  end.

(** [for (j = start; j > 0; j--) if (hl[j] > bound) { ...; break; }] *)
Fixpoint backward_scan (id : array_id) (hl : list D) (bound : D) (start : nat) : scan :=
  match start with
  | O => (None, [])
  | S j' =>
      if hl[[id @ start]] >? bound then (Some start, [(id, start)])
      else let (found, reads) := backward_scan id hl bound j' in
           (found, (id, start) :: reads)
  end.

Section Run.
Variables timePeriod resistance : D.
Variable lenOfPulseSequence : nat.
Variables inputPulseSequence DLCcorrectedSequence : list D.

(** Lines 17-36 and 42-43: the allocations, the copy of the corrected
    sequence and the zeroing of [cur]. *)
Definition init_buffers : buffers :=
  let b := mkBuffers
    (alloc junk Overpotentials lenOfPulseSequence)
    (alloc junk Averaged lenOfPulseSequence)
    (alloc junk Overcorrected lenOfPulseSequence)
    (alloc junk ForwardK lenOfPulseSequence)
    (alloc junk BackwardK lenOfPulseSequence)
    (alloc junk KsumArr lenOfPulseSequence)
    (alloc junk KratioArr lenOfPulseSequence)
    (alloc junk ForwardHalflife lenOfPulseSequence)
    (alloc junk BackwardHalflife lenOfPulseSequence)
    (alloc junk Cur lenOfPulseSequence) in
  let b := for_loop lenOfPulseSequence 0 (fun i b =>
    let b := set_averaged (upd i DLCcorrectedSequence[[DLCcorrected @ i]] (averagedPulseSequence b)) b in
    set_overcorrected (upd i DLCcorrectedSequence[[DLCcorrected @ i]] (overcorrectedPulseSequence b)) b) b in
  for_loop lenOfPulseSequence 0 (fun i b => set_cur (upd i (dint 0) (cur b)) b) b.

Definition timeBenchmark : D := dint 10 * timePeriod.

Definition positiveScanDirection : bool :=
  DLCcorrectedSequence[[DLCcorrected @ 0]] >? DLCcorrectedSequence[[DLCcorrected @ lenOfPulseSequence]].

Section Component.
Variable c : component.
Let k0 := kineticConstant c.
Let E0 := standardPotential c.
Let alpha := symmetryCoefficient c.
Let z := electronCount c.

(** Lines 54-57. *)
Definition compute_overpotentials (b : buffers) : buffers :=
  for_loop lenOfPulseSequence 0 (fun j b =>
    set_overpotentials (upd j ((averagedPulseSequence b)[[Averaged @ j]] - E0) (overpotentials b)) b) b.

(** Lines 59-67. *)
Definition compute_rates (b : buffers) : buffers :=
  for_loop lenOfPulseSequence 0 (fun j b =>
    let b := set_backwardK (upd j
      (k0 * dexp (- (overpotentials b)[[Overpotentials @ j]] * FbyRT * z * (dint 1 - alpha)))
      (backwardK b)) b in
    let b := set_forwardK (upd j
      (k0 * dexp ((overpotentials b)[[Overpotentials @ j]] * FbyRT * z * alpha))
      (forwardK b)) b in
    let b := set_forwardKhalflife (upd j (ln2 / (forwardK b)[[ForwardK @ j]]) (forwardKhalflife b)) b in
    set_backwardKhalflife (upd j (ln2 / (backwardK b)[[BackwardK @ j]]) (backwardKhalflife b)) b) b.

(** Lines 78-125: the forward and the reverse scan of the branch taken. *)
Definition window_scans (b : buffers) : scan * scan :=
  if positiveScanDirection then
    (forward_scan BackwardHalflife (backwardKhalflife b) (timeBenchmark * alpha) lenOfPulseSequence 0,
     backward_scan ForwardHalflife (forwardKhalflife b) (timeBenchmark * (dint 1 - alpha)) lenOfPulseSequence)
  else
    (forward_scan ForwardHalflife (forwardKhalflife b) (timeBenchmark * (dint 1 - alpha)) lenOfPulseSequence 0,
     backward_scan BackwardHalflife (backwardKhalflife b) (timeBenchmark * alpha) lenOfPulseSequence).

(** The flags of lines 48-50 as the scans leave them. *)
Definition detect_window (b : buffers) : window :=
  let (fwd, bwd) := window_scans b in
  mkWindow
    (match fst fwd with Some j => j | None => 0 end)
    (match fst bwd with Some j => j | None => lenOfPulseSequence end)
    (match fst fwd, fst bwd with None, None => false | _, _ => true end).

(** Lines 133-134. *)
Definition loadingDivider : Z :=
  let loadingDivider := double_to_int (dceil (dint 20 * loading c * dint 1000000000)) in
  if negb (Z.rem loadingDivider 2 =? 0)%Z then wrap_int (loadingDivider + 1) else loadingDivider.

(** Line 136. *)
Definition truncatedComponent : D := dint 2 * loading c / dint loadingDivider.

(** Lines 142-146. *)
Definition compute_Ksum_Kratio (b : buffers) : buffers :=
  for_loop lenOfPulseSequence 0 (fun j b =>
    let b := set_Ksum (upd j ((forwardK b)[[ForwardK @ j]] + (backwardK b)[[BackwardK @ j]]) (Ksum b)) b in
    set_Kratio (upd j ((backwardK b)[[BackwardK @ j]] / (Ksum b)[[KsumArr @ j]]) (Kratio b)) b) b.

Section Slice.
Variable w : window.
Let lo := lookupMinTreshhold w.
Let hi := lookupMaxTreshold w.

(** Lines 166-181 and 197-208: the current and the concentration of the
    reduced form, from [lo + 1] to [hi] inclusive. *)
Definition march (Red0 : D) (b : buffers) : D * buffers :=
  for_loop (hi - lo) (S lo) (fun n '(Red0, b) =>
    let current := z * f * (Red0 * (forwardK b)[[ForwardK @ n]]
                            - (truncatedComponent - Red0) * (backwardK b)[[BackwardK @ n]]) in
    let b := set_cur (upd n current (cur b)) b in
    (instantaneousRedConc Red0 truncatedComponent
       (Kratio b)[[KratioArr @ n]] (Ksum b)[[KsumArr @ n]] timePeriod, b)) (Red0, b).

(** Lines 188-192 and 219-223, from the potential array [id]. *)
Definition recompute (id : array_id) (potential : buffers -> list D) (m : nat) (b : buffers) : buffers :=
  let b := set_overpotentials (upd m ((potential b)[[id @ m]] - E0) (overpotentials b)) b in
  let b := set_forwardK (upd m
    (k0 * dexp ((overpotentials b)[[Overpotentials @ m]] * FbyRT * z * alpha)) (forwardK b)) b in
  let b := set_backwardK (upd m
    (k0 * dexp (- (overpotentials b)[[Overpotentials @ m]] * FbyRT * z * (dint 1 - alpha)))
    (backwardK b)) b in
  let b := set_Ksum (upd m ((forwardK b)[[ForwardK @ m]] + (backwardK b)[[BackwardK @ m]]) (Ksum b)) b in
  set_Kratio (upd m ((backwardK b)[[BackwardK @ m]] / (Ksum b)[[KsumArr @ m]]) (Kratio b)) b.

(** Lines 182-193: the first resistive correction. *)
Definition overcorrection_pass (b : buffers) : buffers :=
  for_loop (hi - lo) lo (fun m b =>
    let b := set_overcorrected (upd m
      ((overcorrectedPulseSequence b)[[Overcorrected @ m]] - (cur b)[[Cur @ m]] * resistance)
      (overcorrectedPulseSequence b)) b in
    recompute Overcorrected overcorrectedPulseSequence m b) b.

(** Lines 210-224: the second resistive correction and the average. *)
Definition averaging_pass (b : buffers) : buffers :=
  for_loop (hi - lo) lo (fun m b =>
    let b := set_averaged (upd m
      ((overcorrectedPulseSequence b)[[Overcorrected @ m]] - (cur b)[[Cur @ m]] * resistance)
      (averagedPulseSequence b)) b in
    let b := set_averaged (upd m
      (((averagedPulseSequence b)[[Averaged @ m]] + (overcorrectedPulseSequence b)[[Overcorrected @ m]]) / dint 2)
      (averagedPulseSequence b)) b in
    let b := set_overcorrected (upd m (averagedPulseSequence b)[[Averaged @ m]]
      (overcorrectedPulseSequence b)) b in
    recompute Averaged averagedPulseSequence m b) b.

(** Lines 152-227: the body of the loop over the slices of the loading. *)
Definition slice (j : nat) (b : buffers) : buffers :=
  let Red0 := startingRedConcentration (overpotentials b)[[Overpotentials @ lo]]
                truncatedComponent (double_to_int z) in
  if LookupThresholdFound w then
    if Nat.even j then overcorrection_pass (snd (march Red0 b))
    else averaging_pass (snd (march Red0 b))
  else b.

End Slice.

(** Lines 47-227: one turn of the loop over the components. *)
Definition process_component (b : buffers) : buffers :=
  let b := compute_overpotentials b in
  let b := compute_rates b in
  let w := detect_window b in
  let b := compute_Ksum_Kratio b in
  for_loop (Z.to_nat loadingDivider) 0 (slice w) b.

End Component.

Variable sizeOfInputArray : nat.
Variables loadingsArray kineticConstArray redoxPotArray symCoefArray zArray : list D.

Definition component_at (i : nat) : component :=
  mkComponent loadingsArray[[Loadings @ i]] kineticConstArray[[KineticConsts @ i]]
    redoxPotArray[[RedoxPots @ i]] symCoefArray[[SymCoefs @ i]] zArray[[Zs @ i]].

(** The buffers after the first [n] components. *)
Definition run_components (n : nat) : buffers :=
  for_loop n 0 (fun i b => process_component (component_at i) b) init_buffers.

(** Lines 231-234. *)
Definition ohms_law (b : buffers) : buffers :=
  for_loop lenOfPulseSequence 0 (fun i b =>
    set_averaged (upd i
      ((inputPulseSequence[[InputPulse @ i]] - (averagedPulseSequence b)[[Averaged @ i]]) / resistance)
      (averagedPulseSequence b)) b) b.

(** The array the call returns, as its [lenOfPulseSequence] cells. *)
Definition redoxKineticsFull : list D :=
  firstn lenOfPulseSequence (averagedPulseSequence (ohms_law (run_components sizeOfInputArray))).

End Run.
End Engine.

Arguments component : clear implicits.
Arguments buffers : clear implicits.

End redoxKinetics.

(** ** cv.cpp: the capacitive correction of a sweep *)

Module cv.
Section Sweep.
Context {D : Type} `{Arith D}.
Variable junk : array_id -> nat -> D.
Local Open Scope double_scope.

Local Notation "a [[ id @ j ]]" := (rd junk id a j) (at level 1, format "a [[ id  @  j ]]").

Definition decayTerm (resistance capacitance timeIncrement : D) : D :=
  dint 1 - dexp (- (timeIncrement / (resistance * capacitance))).

Definition dlcCorrectedCVsequence (resistance capacitance timeIncrement : D)
    (arraySize : nat) (inputCVsequence : list D) : list D :=
  let decayTerm := decayTerm resistance capacitance timeIncrement in
  let dlcCorrectedCV := alloc junk CorrectedCV arraySize in
  let dlcCorrectedCV := upd 0 inputCVsequence[[InputPulse @ 0]] dlcCorrectedCV in
  let dlcCorrectedCV := for_loop (arraySize - 1) 1 (fun i dlcCorrectedCV =>
    upd i (dlcCorrectedCV[[CorrectedCV @ i - 1]]
           + (inputCVsequence[[InputPulse @ i]] - dlcCorrectedCV[[CorrectedCV @ i - 1]]) * decayTerm)
      dlcCorrectedCV) dlcCorrectedCV in
  firstn arraySize dlcCorrectedCV.

Definition dlcCurrentCV (resistance : D) (arraySize : nat) (rawCV DLCcorrectedCV : list D) : list D :=
  let DLCcurrent := alloc junk CurrentCV arraySize in
  let DLCcurrent := for_loop arraySize 0 (fun i DLCcurrent =>
    upd i ((rawCV[[InputPulse @ i]] - DLCcorrectedCV[[DLCcorrected @ i]]) / resistance) DLCcurrent)
    DLCcurrent in
  firstn arraySize DLCcurrent.

End Sweep.

(** The waveform and the clock of a sweep. *)
Section Waveform.
Context {D : Type} `{Arith D}.
Variable junk : array_id -> nat -> D.
Variable int_indefinite : Z.
(** [round] of <cmath> *)
Variable round : D -> D.
(** What the fresh block of the clock holds. *)
Variable fresh : nat -> D.
Local Open Scope double_scope.

Definition experimentClock (timeIncrement : D) (arraySize : nat) : list D :=
  let clock := map fresh (seq 0 (S arraySize)) in
  let clock := for_loop arraySize 0 (fun i clock =>
    upd i (dint (Z.of_nat i) * timeIncrement) clock) clock in
  firstn arraySize clock.

(** Lines 29 and 43: the number of samples of the forward leg, rounded for a
    rising sweep ([e_start < e_end]) and cut off for a falling one. *)
Definition forwardLen (e_start e_end : D) (digitalResolution : Z) : Z :=
  if e_end >? e_start then
    redoxKinetics.double_to_int int_indefinite
      (round ((e_end - e_start) * dint digitalResolution + dint 1))
  else
    redoxKinetics.double_to_int int_indefinite
      ((e_start - e_end) * dint digitalResolution + dint 1).

(** Lines 30 and 44. *)
Definition backwardLen (e_start e_end : D) (digitalResolution : Z) : Z :=
  wrap_int (forwardLen e_start e_end digitalResolution - 1).

(** The sweep.  The block has [arraySize] cells, and the legs are as long
    as [forwardLen] says.  [None] when [forwardLen - 1] or the index
    [forwardLen + i - 1] of the reverse leg would overflow an [int], and when
    the legs reach past the block: the loops would store outside it. *)
Definition rawCVsequence (e_start e_end : D) (digitalResolution : Z) (arraySize : nat)
    : option (list D) :=
  let eIncrement := dlit 1.0 / dint digitalResolution in
  let forwardLen := forwardLen e_start e_end digitalResolution in
  let backwardLen := backwardLen e_start e_end digitalResolution in
  if ((INT_MIN <? forwardLen) && (forwardLen <=? 1073741824))%Z then
    let forward := Z.to_nat forwardLen in
    let backward := Z.to_nat backwardLen in
    if (forward + backward <=? arraySize)%nat then
      let rawCVsequence := alloc junk InputPulse arraySize in
      let rawCVsequence :=
        if e_end >? e_start then
          let rawCVsequence := for_loop forward 0 (fun i rawCVsequence =>
            upd i (e_start + dint (Z.of_nat i) * eIncrement) rawCVsequence) rawCVsequence in
          for_loop backward 1 (fun i rawCVsequence =>
            upd (forward + i - 1) (e_end - dint (Z.of_nat i) * eIncrement) rawCVsequence)
            rawCVsequence
        else
          let rawCVsequence := for_loop forward 0 (fun i rawCVsequence =>
            upd i (e_start - dint (Z.of_nat i) * eIncrement) rawCVsequence) rawCVsequence in
          for_loop backward 1 (fun i rawCVsequence =>
            upd (forward + i - 1) (e_end + dint (Z.of_nat i) * eIncrement) rawCVsequence)
            rawCVsequence in
      Some (firstn arraySize rawCVsequence)
    else None
  else None.

End Waveform.
End cv.

(** ** swv.cpp: the capacitive correction of a pulse train *)

Module swv.
Section Pulse.
Context {D : Type} `{Arith D}.
Variable junk : array_id -> nat -> D.
Local Open Scope double_scope.

Local Notation "a [[ id @ j ]]" := (rd junk id a j) (at level 1, format "a [[ id  @  j ]]").

Definition decayTerm (pulse_time resistance capacitance : D) (npp : Z) : D :=
  dint 1 - dexp (- (pulse_time / dint npp) / (resistance * capacitance)).

Definition swvDLCCorrectedInputArray (pulse_time resistance capacitance : D)
    (inputSignal : list D) (arraySize : nat) (npp : Z) : list D :=
  let correctedSequenceContainer := alloc junk CorrectedSWV arraySize in
  let decayTerm := decayTerm pulse_time resistance capacitance npp in
  let correctedSequenceContainer := for_loop arraySize 0 (fun i correctedSequenceContainer =>
    if i =? 0 then upd 0 inputSignal[[InputPulse @ 0]] correctedSequenceContainer
    else
      let deltaE := inputSignal[[InputPulse @ i]] - correctedSequenceContainer[[CorrectedSWV @ i - 1]] in
      upd i (correctedSequenceContainer[[CorrectedSWV @ i - 1]] + deltaE * decayTerm)
        correctedSequenceContainer) correctedSequenceContainer in
  firstn arraySize correctedSequenceContainer.

Definition swvDLCcurrent (resistance : D) (arraySize : nat)
    (inputSignal dlcCorrectedSignal : list D) : list D :=
  let DLCcurrentPlaceholder := alloc junk CurrentSWV arraySize in
  let DLCcurrentPlaceholder := for_loop arraySize 0 (fun i DLCcurrentPlaceholder =>
    upd i ((inputSignal[[InputPulse @ i]] - dlcCorrectedSignal[[DLCcorrected @ i]]) / resistance)
      DLCcurrentPlaceholder) DLCcurrentPlaceholder in
  firstn arraySize DLCcurrentPlaceholder.

End Pulse.

(** The waveform and the clock of a pulse train. *)
Section Waveform.
Context {D : Type} `{Arith D}.
Variable junk : array_id -> nat -> D.
(** What the fresh block of the clock holds. *)
Variable fresh : nat -> D.
Local Open Scope double_scope.

Local Notation "a [[ id @ j ]]" := (rd junk id a j) (at level 1, format "a [[ id  @  j ]]").

Definition experimentClock (pulseTime : D) (arrLength : nat) (npp : Z) : list D :=
  let clockContainer := map fresh (seq 0 (S arrLength)) in
  let intervalDuration := pulseTime / dint npp in
  let pushValue := dint 0 in
  let '(clockContainer, pushValue) :=
    for_loop arrLength 0 (fun i '(clockContainer, pushValue) =>
      let clockContainer := upd i pushValue clockContainer in
      (clockContainer, pushValue + intervalDuration)) (clockContainer, pushValue) in
  firstn arrLength clockContainer.

(** Lines 33-34 and 43-44: one sample of the square wave. *)
Definition square_wave_step (amplit : D) (npp : Z) (i : nat) (s : list D * Z) : list D * Z :=
  let '(inputSequenceContainer, heavisideFlag) := s in
  let heavisideFlag :=
    if (Z.rem (Z.of_nat i) npp =? 0)%Z then (- heavisideFlag)%Z else heavisideFlag in
  (upd i (amplit * dint heavisideFlag) inputSequenceContainer, heavisideFlag).

(** Lines 52-53: one sample of the staircase, added to the square wave. *)
Definition staircase_step (e_step : D) (npp : Z) (i : nat) (s : list D * D) : list D * D :=
  let '(inputSequenceContainer, pushValue) := s in
  let pushValue :=
    if (Z.rem (Z.of_nat i) (2 * npp) =? 0)%Z then pushValue + e_step else pushValue in
  (upd i (inputSequenceContainer[[InputPulse @ i]] + pushValue) inputSequenceContainer,
   pushValue).

(** The sign of the square wave at sample [i]: it starts negative for a
    falling staircase ([e_step < 0]), positive otherwise, and flips every
    [npp] samples. *)
Definition square_sign (falling : bool) (npp : Z) (i : nat) : Z :=
  let first := if falling then (-1)%Z else 1%Z in
  if Z.even (Z.of_nat i / npp) then first else (- first)%Z.

(** [count] additions of [step], one after the other. *)
Definition added (step : D) (count : nat) (x : D) : D := Nat.iter count (fun x => x + step) x.

(** The level of the staircase at sample [i]: one step is added at sample 0
    and at every multiple of [2 * npp]. *)
Definition stair (e_start e_step : D) (npp : Z) (i : nat) : D :=
  added e_step (S (Z.to_nat (Z.of_nat i / (2 * npp)))) (e_start - e_step).

(** The pulse train.  [None] when a sample is asked for and [npp] is zero
    (the remainder [i % npp] traps) or [2 * npp] fits no [int]. *)
Definition swvInputArray (e_step amplit e_start : D) (arraySize : nat) (npp : Z)
    : option (list D) :=
  if (0 <? arraySize) && ((npp =? 0)%Z || negb (fits_int (2 * npp))) then None
  else
    let inputSequenceContainer := alloc junk InputPulse arraySize in
    let inputSequenceContainer :=
      if dint 0 >? e_step then
        fst (for_loop arraySize 0 (square_wave_step amplit npp) (inputSequenceContainer, 1%Z))
      else
        fst (for_loop arraySize 0 (square_wave_step amplit npp)
               (inputSequenceContainer, (-1)%Z)) in
    let pushValue := e_start - e_step in
    let inputSequenceContainer :=
      fst (for_loop arraySize 0 (staircase_step e_step npp)
             (inputSequenceContainer, pushValue)) in
    Some (firstn arraySize inputSequenceContainer).

End Waveform.
End swv.

(** ** [double] as IEEE binary64 *)

Module binary64.
Local Open Scope float_scope.

(** An integer below 2^53 in magnitude, exactly. *)
Definition of_Z (z : Z) : float :=
  match z with
  | Z0 => 0
  | Zpos _ => PrimFloat.of_uint63 (Uint63.of_Z z)
  | Zneg p => - PrimFloat.of_uint63 (Uint63.of_Z (Zpos p))
  end.

(** The double nearest to a decimal literal whose digits, read as an
    integer, stay below 2^53: the quotient of two exact integers, rounded
    once. *)
Definition of_literal (q : Q) : float := of_Z (Qnum q) / of_Z (Zpos (Qden q)).

(** The least integer not below [x], as a double. *)
Definition ceil (x : float) : float :=
  match Prim2SF x with
  | S754_finite s m e =>
      if (0 <=? e)%Z then x
      else
        let q := (Zpos m / 2 ^ (- e))%Z in
        if s then - of_Z q
        else if (Zpos m mod 2 ^ (- e) =? 0)%Z then of_Z q else of_Z (q + 1)
  | _ => x
  end.

(** The integer nearest to [x], halves away from zero, as a double. *)
Definition round (x : float) : float :=
  match Prim2SF x with
  | S754_finite s m e =>
      if (0 <=? e)%Z then x
      else
        let q := (Zpos m / 2 ^ (- e))%Z in
        let n := if (2 ^ (- e) <=? 2 * (Zpos m mod 2 ^ (- e)))%Z then (q + 1)%Z else q in
        if s then - of_Z n else of_Z n
  | _ => x
  end.

(** The integer part of [x]. *)
Definition trunc (x : float) : option Z :=
  match Prim2SF x with
  | S754_zero _ => Some 0%Z
  | S754_finite s m e =>
      let a := if (0 <=? e)%Z then (Zpos m * 2 ^ e)%Z else (Zpos m / 2 ^ (- e))%Z in
      Some (if s then (- a)%Z else a)
  | _ => None
  end.

(** The interpretation, for a given [exp] of the C library. *)
Definition arith (exp : float -> float) : Arith float :=
  Build_Arith float PrimFloat.add PrimFloat.sub PrimFloat.mul PrimFloat.div PrimFloat.opp
    exp ceil (fun x y => y <? x) of_Z of_literal trunc.

(** A reference exponential to run the model with: argument reduction by
    multiples of ln 2 and a Taylor polynomial.  It is exact at zero. *)
Definition exp_poly (x : float) : float :=
  fold_right (fun c acc => c + x * acc) 0
    [1; 1; 0.5; 0x1.5555555555555p-3; 0x1.5555555555555p-5; 0x1.1111111111111p-7;
     0x1.6c16c16c16c17p-10; 0x1.a01a01a01a01ap-13; 0x1.a01a01a01a01ap-16;
     0x1.71de3a556c734p-19; 0x1.27e4fb7789f5cp-22; 0x1.ae64567f544e4p-26;
     0x1.1eed8eff8d898p-29; 0x1.6124613a86d09p-33; 0x1.93974a8c07c9dp-37].

Definition exp_ref (x : float) : float :=
  if is_nan x then x
  else if 0x1.62e42fefa39efp+9 <? x then infinity
  else if x <? -0x1.74910d52d3051p+9 then 0
  else
    let k := match trunc (x * 0x1.71547652b82fep+0 + (if x <? 0 then -0.5 else 0.5)) with
             | Some k => k
             | None => 0%Z
             end in
    let kf := of_Z k in
    let red := x - kf * 0x1.62e42fee00000p-1 - kf * 0x1.a39ef35793c76p-33 in
    Z.ldexp (exp_poly red) k.

End binary64.

(** ** Rounding to nearest in binary64, read on integers

    What [binary_round_aux], the rounding of every binary64 operation,
    computes from a mantissa, an exponent and a location. *)

Module rounding.
Local Open Scope Z_scope.

(** Whether anything was lost below the mantissa. *)
Definition inexact (l : location) : bool :=
  match l with loc_Exact => false | loc_Inexact _ => true end.

(** The mantissa [a] with the round bit [r] and the sticky bit [s], rounded
    to nearest even. *)
Definition rounded (a : Z) (r s : bool) : Z := if r && (s || Z.odd a) then a + 1 else a.

(** The double a rounded mantissa [a <= 2^53] at the exponent [f] stands
    for. *)
Definition encode (a f : Z) : spec_float :=
  if a =? 0 then S754_zero false
  else if a <? 2 ^ 53 then
    if f <=? 971 then S754_finite false (Z.to_pos a) f else S754_infinity false
  else
    if f + 1 <=? 971 then S754_finite false (Z.to_pos (2 ^ 52)) (f + 1)
    else S754_infinity false.

(** A zero, a positive double or the positive infinity. *)
Definition not_negative (x : spec_float) : Prop :=
  match x with
  | S754_zero false | S754_infinity false | S754_finite false _ _ => True
  | _ => False
  end.

End rounding.

(** ** [double] as an exact real number *)

Module exact.
Local Open Scope R_scope.

Definition gt (x y : R) : bool := if Rlt_dec y x then true else false.

(** The least integer not below [x]. *)
Definition ceilZ (x : R) : Z := (1 - up (- x))%Z.

(** The integer part of [x]. *)
Definition trunc (x : R) : option Z :=
  Some (if Rle_dec 0 x then (up x - 1)%Z else ceilZ x).

Definition arith : Arith R :=
  Build_Arith R Rplus Rminus Rmult Rdiv Ropp exp (fun x => IZR (ceilZ x)) gt IZR Q2R trunc.

End exact.

(** ** The window of a component *)

Module engine.
Import redoxKinetics.
Section Derived.
Context {D : Type} `{Arith D}.
Variable junk : array_id -> nat -> D.
Variable int_indefinite : Z.
Variables timePeriod resistance : D.
Variable lenOfPulseSequence : nat.
Variable DLCcorrectedSequence : list D.
Local Open Scope double_scope.

(** The rate constants of lines 61-62 at one overpotential, the constants of
    definitions.h written out. *)
Definition forward_rate (c : component D) (overpotential : D) : D :=
  kineticConstant c
  * dexp (overpotential * (dlit 96485.0 / (dlit 8.3145 * dlit 295.0))
          * electronCount c * symmetryCoefficient c).

Definition backward_rate (c : component D) (overpotential : D) : D :=
  kineticConstant c
  * dexp (- overpotential * (dlit 96485.0 / (dlit 8.3145 * dlit 295.0))
          * electronCount c * (dint 1 - symmetryCoefficient c)).

(** The arguments of [exp] in the two. *)
Definition forward_exponent (c : component D) (overpotential : D) : D :=
  overpotential * (dlit 96485.0 / (dlit 8.3145 * dlit 295.0))
  * electronCount c * symmetryCoefficient c.

Definition backward_exponent (c : component D) (overpotential : D) : D :=
  - overpotential * (dlit 96485.0 / (dlit 8.3145 * dlit 295.0))
  * electronCount c * (dint 1 - symmetryCoefficient c).

(** The buffers the scans of component [c] look at, and the scans. *)
Definition rates_of (c : component D) (b : buffers D) : buffers D :=
  compute_rates junk lenOfPulseSequence c (compute_overpotentials junk lenOfPulseSequence c b).

Definition scans_of (c : component D) (b : buffers D) : scan * scan :=
  window_scans junk timePeriod lenOfPulseSequence DLCcorrectedSequence c (rates_of c b).

Definition window_of (c : component D) (b : buffers D) : window :=
  detect_window junk timePeriod lenOfPulseSequence DLCcorrectedSequence c (rates_of c b).

(** The buffers of component [c] when its slice [j] begins; the component
    started from [b]. *)
Definition before_slice (c : component D) (b : buffers D) (j : nat) : buffers D :=
  for_loop j 0
    (slice junk int_indefinite timePeriod resistance c (window_of c b))
    (compute_Ksum_Kratio junk lenOfPulseSequence (rates_of c b)).

(** The fields two buffers agree on. *)
Definition same_potentials (b b' : buffers D) : Prop :=
  cur b' = cur b /\
  averagedPulseSequence b' = averagedPulseSequence b /\
  overcorrectedPulseSequence b' = overcorrectedPulseSequence b.

Definition same_rates (b b' : buffers D) : Prop :=
  forwardK b' = forwardK b /\ backwardK b' = backwardK b /\
  forwardKhalflife b' = forwardKhalflife b /\ backwardKhalflife b' = backwardKhalflife b.

(** The component [c] with another rate constant. *)
Definition with_kineticConstant (k : D) (c : component D) : component D :=
  mkComponent (loading c) k (standardPotential c) (symmetryCoefficient c) (electronCount c).

(** What both capacitive filters leave in the cells below [N]: the first raw
    value, then one relaxation step per cell. *)
Definition relaxed (id : array_id) (decay : D) (raw out : list D) (N : nat) : Prop :=
  rd junk id out 0 = rd junk InputPulse raw 0 /\
  forall i, (1 <= i < N)%nat ->
    rd junk id out i
    = rd junk id out (i - 1)
      + (rd junk InputPulse raw i - rd junk id out (i - 1)) * decay.

(** Every working array has its [lenOfPulseSequence] cells and the one behind. *)
Definition well_formed (b : buffers D) : Prop :=
  length (overpotentials b) = S lenOfPulseSequence /\
  length (averagedPulseSequence b) = S lenOfPulseSequence /\
  length (overcorrectedPulseSequence b) = S lenOfPulseSequence /\
  length (forwardK b) = S lenOfPulseSequence /\
  length (backwardK b) = S lenOfPulseSequence /\
  length (Ksum b) = S lenOfPulseSequence /\
  length (Kratio b) = S lenOfPulseSequence /\
  length (forwardKhalflife b) = S lenOfPulseSequence /\
  length (backwardKhalflife b) = S lenOfPulseSequence /\
  length (cur b) = S lenOfPulseSequence.

End Derived.
End engine.

(** ** Memory contents to run the model with *)

Module examples.
Import redoxKinetics.
Local Open Scope float_scope.

(** Memory that holds zeros wherever the program has stored nothing. *)
Definition zeros : array_id -> nat -> float := fun _ _ => 0.

(** Memory that holds 0.3 behind the caller's corrected sequence. *)
Definition behind_DLC : array_id -> nat -> float :=
  fun id _ => match id with DLCcorrected => 0.3 | _ => 0 end.

(** The component of the concrete scenario of the specification, and the
    same species with a slow rate constant. *)
Definition fast : component float := mkComponent 1e-9 1e6 0 0.5 1.
Definition slow : component float := mkComponent 1e-9 1 0 0.5 1.

(** Binary64 with the reference exponential. *)
Definition doubles : Arith float := binary64.arith binary64.exp_ref.

(** Five samples of a rising sweep. *)
Definition sweep : list float := [-0.2; -0.1; 0; 0.1; 0.2].

(** A run of the slow species over the sweep, and one of the fast species
    at its standard potential. *)
Definition slow_run (n : nat) : buffers float :=
  @run_components float doubles zeros INT_MIN 0.01 100 5 sweep [1e-9] [1] [0] [0.5] [1] n.

Definition at_rest : buffers float := @init_buffers float doubles zeros 3 [0; 0; 0].

(** Five samples of a rising sweep above the standard potential. *)
Definition rising : list float := [0.1; 0.2; 0.3; 0.4; 0.5].

End examples.

(** * Properties *)

(** ** Arrays and loops *)

Section ArrayFacts.
Context {A : Type}.

Lemma length_upd (j : nat) (v : A) (a : list A) : length (upd j v a) = length a.
Proof.
  revert j; induction a as [|x a IH]; intros [|j]; simpl; auto.
Qed.

Lemma nth_upd_same (j : nat) (v d : A) (a : list A) :
  j < length a -> nth j (upd j v a) d = v.
Proof.
  revert j; induction a as [|x a IH]; intros [|j] Hj; simpl in *; try lia; auto.
  apply IH; lia.
Qed.

Lemma nth_upd_other (i j : nat) (v d : A) (a : list A) :
  i <> j -> nth i (upd j v a) d = nth i a d.
Proof.
  revert i j; induction a as [|x a IH]; intros [|i] [|j] Hij; simpl; auto; try lia.
Qed.

Lemma nth_firstn_below (n j : nat) (a : list A) (d : A) :
  j < n -> nth j (firstn n a) d = nth j a d.
Proof.
  revert j a; induction n as [|n IH]; intros j a Hj; [lia|].
  destruct a as [|x a]; [reflexivity|].
  destruct j as [|j]; simpl; [reflexivity|apply IH; lia].
Qed.

Lemma length_firstn_le (n : nat) (a : list A) :
  n <= length a -> length (firstn n a) = n.
Proof. intros Hn; rewrite length_firstn; lia. Qed.

End ArrayFacts.

Section LoopFacts.
Context {S : Type}.

(** The last turn of a loop. *)
Lemma for_loop_last (count start : nat) (body : nat -> S -> S) (s : S) :
  for_loop (Datatypes.S count) start body s
  = body (start + count) (for_loop count start body s).
Proof.
  revert start s; induction count as [|c IH]; intros start s.
  - simpl; rewrite Nat.add_0_r; reflexivity.
  - change (for_loop (Datatypes.S (Datatypes.S c)) start body s)
      with (for_loop (Datatypes.S c) (Datatypes.S start) body (body start s)).
    rewrite IH; simpl; rewrite Nat.add_succ_r; reflexivity.
Qed.

(** An invariant indexed by the loop counter. *)
Lemma for_loop_invariant (P : nat -> S -> Prop) (count start : nat)
    (body : nat -> S -> S) (s : S) :
  P start s ->
  (forall i s', start <= i < start + count -> P i s' -> P (Datatypes.S i) (body i s')) ->
  P (start + count) (for_loop count start body s).
Proof.
  revert start s; induction count as [|c IH]; intros start s H0 Hstep.
  - rewrite Nat.add_0_r; exact H0.
  - simpl; rewrite Nat.add_succ_r; apply (IH (Datatypes.S start)).
    + apply Hstep; [lia|exact H0].
    + intros i s' Hi; apply Hstep; lia.
Qed.

(** A property every turn keeps. *)
Lemma for_loop_preserves (P : S -> Prop) (count start : nat)
    (body : nat -> S -> S) (s : S) :
  P s -> (forall i s', P s' -> P (body i s')) -> P (for_loop count start body s).
Proof.
  intros H0 Hstep.
  apply (for_loop_invariant (fun _ => P)); auto.
Qed.

(** A loop whose body does nothing. *)
Lemma for_loop_skip (count start : nat) (body : nat -> S -> S) (s : S) :
  (forall i s', body i s' = s') -> for_loop count start body s = s.
Proof.
  intros Hskip; apply (for_loop_preserves (fun s' => s' = s)); [reflexivity|].
  intros i s' ->; apply Hskip.
Qed.

End LoopFacts.

Section MemoryFacts.
Context {D : Type}.
Variable junk : array_id -> nat -> D.

Lemma rd_upd_same (id : array_id) (j : nat) (v : D) (a : list D) :
  j < length a -> rd junk id (upd j v a) j = v.
Proof. apply nth_upd_same. Qed.

Lemma rd_upd_other (id : array_id) (i j : nat) (v : D) (a : list D) :
  i <> j -> rd junk id (upd j v a) i = rd junk id a i.
Proof. apply nth_upd_other. Qed.

Lemma length_alloc (id : array_id) (n : nat) : length (alloc junk id n) = Datatypes.S n.
Proof. unfold alloc; rewrite length_map, length_seq; reflexivity. Qed.

(** A defined cell read through [nth_error]. *)
Lemma nth_error_rd (id : array_id) (a : list D) (j : nat) :
  j < length a -> nth_error a j = Some (rd junk id a j).
Proof. intros Hj; apply nth_error_nth'; exact Hj. Qed.

End MemoryFacts.

(** ** The shape of the working arrays *)

Import redoxKinetics engine.

Ltac fields :=
  cbn [overpotentials averagedPulseSequence overcorrectedPulseSequence
    forwardK backwardK Ksum Kratio forwardKhalflife backwardKhalflife cur
    set_overpotentials set_averaged set_overcorrected set_forwardK set_backwardK
    set_Ksum set_Kratio set_forwardKhalflife set_backwardKhalflife set_cur fst snd] in *.

Ltac shape :=
  unfold well_formed in *; fields; rewrite ?length_upd, ?length_alloc; intuition.

Section Shape.
Context {D : Type} `{Arith D}.
Variable junk : array_id -> nat -> D.
Variable int_indefinite : Z.
Variables timePeriod resistance : D.
Variable N : nat.

Lemma well_formed_init (DLC : list D) : well_formed N (init_buffers junk N DLC).
Proof.
  unfold init_buffers; cbv zeta.
  apply for_loop_preserves; [|intros; shape].
  apply for_loop_preserves; [|intros; shape].
  shape.
Qed.

Lemma well_formed_compute_overpotentials (c : component D) (b : buffers D) :
  well_formed N b -> well_formed N (compute_overpotentials junk N c b).
Proof.
  intros Hb; unfold compute_overpotentials; cbv zeta.
  apply for_loop_preserves; [exact Hb|intros; shape].
Qed.

Lemma well_formed_compute_rates (c : component D) (b : buffers D) :
  well_formed N b -> well_formed N (compute_rates junk N c b).
Proof.
  intros Hb; unfold compute_rates; cbv zeta.
  apply for_loop_preserves; [exact Hb|intros; shape].
Qed.

Lemma well_formed_rates_of (c : component D) (b : buffers D) :
  well_formed N b -> well_formed N (rates_of junk N c b).
Proof.
  intros Hb; apply well_formed_compute_rates, well_formed_compute_overpotentials, Hb.
Qed.

Lemma well_formed_compute_Ksum_Kratio (b : buffers D) :
  well_formed N b -> well_formed N (compute_Ksum_Kratio junk N b).
Proof.
  intros Hb; unfold compute_Ksum_Kratio.
  apply for_loop_preserves; [exact Hb|intros; shape].
Qed.

Lemma well_formed_recompute (c : component D) (id : array_id)
    (potential : buffers D -> list D) (m : nat) (b : buffers D) :
  well_formed N b -> well_formed N (recompute junk c id potential m b).
Proof. intros Hb; unfold recompute; cbv zeta; shape. Qed.

Lemma well_formed_march (c : component D) (w : window) (Red0 : D) (b : buffers D) :
  well_formed N b ->
  well_formed N (snd (march junk int_indefinite timePeriod c w Red0 b)).
Proof.
  intros Hb; unfold march; cbv zeta.
  apply (for_loop_preserves (fun s => well_formed N (snd s))); [exact Hb|].
  intros i [Red b'] Hb'; shape.
Qed.

Lemma well_formed_overcorrection_pass (c : component D) (w : window) (b : buffers D) :
  well_formed N b -> well_formed N (overcorrection_pass junk resistance c w b).
Proof.
  intros Hb; unfold overcorrection_pass; cbv zeta.
  apply for_loop_preserves; [exact Hb|].
  intros i s Hs; apply well_formed_recompute; shape.
Qed.

Lemma well_formed_averaging_pass (c : component D) (w : window) (b : buffers D) :
  well_formed N b -> well_formed N (averaging_pass junk resistance c w b).
Proof.
  intros Hb; unfold averaging_pass; cbv zeta.
  apply for_loop_preserves; [exact Hb|].
  intros i s Hs; apply well_formed_recompute; shape.
Qed.

Lemma well_formed_slice (c : component D) (w : window) (j : nat) (b : buffers D) :
  well_formed N b ->
  well_formed N (slice junk int_indefinite timePeriod resistance c w j b).
Proof.
  intros Hb; unfold slice; cbv zeta.
  destruct (LookupThresholdFound w); [|exact Hb].
  destruct (Nat.even j).
  - apply well_formed_overcorrection_pass, well_formed_march, Hb.
  - apply well_formed_averaging_pass, well_formed_march, Hb.
Qed.

Lemma well_formed_process_component (DLC : list D) (c : component D) (b : buffers D) :
  well_formed N b ->
  well_formed N (process_component junk int_indefinite timePeriod resistance N DLC c b).
Proof.
  intros Hb; unfold process_component; cbv zeta.
  apply for_loop_preserves; [|intros; apply well_formed_slice; assumption].
  apply well_formed_compute_Ksum_Kratio, well_formed_compute_rates,
    well_formed_compute_overpotentials, Hb.
Qed.

Lemma well_formed_run_components (DLC l k e a z : list D) (n : nat) :
  well_formed N (run_components junk int_indefinite timePeriod resistance N DLC l k e a z n).
Proof.
  unfold run_components.
  apply for_loop_preserves; [apply well_formed_init|].
  intros; apply well_formed_process_component; assumption.
Qed.

End Shape.

(** ** The start and the end of a call *)

Section StartAndEnd.
Context {D : Type} `{Arith D}.
Variable junk : array_id -> nat -> D.
Variable int_indefinite : Z.
Variables timePeriod resistance : D.
Variable N : nat.
Variables inputPulseSequence DLC : list D.

(** The copy of the corrected sequence and the zeroing of [cur]. *)
Lemma init_buffers_cells (j : nat) :
  j < N ->
  let b := init_buffers junk N DLC in
  rd junk Averaged (averagedPulseSequence b) j = rd junk DLCcorrected DLC j /\
  rd junk Overcorrected (overcorrectedPulseSequence b) j = rd junk DLCcorrected DLC j /\
  rd junk Cur (cur b) j = dint 0.
Proof.
  intros Hj; unfold init_buffers; cbv zeta.
  match goal with
  | |- context [for_loop N 0 ?zero (for_loop N 0 ?copy ?b0)] =>
      set (fzero := zero); set (fcopy := copy); set (start := b0)
  end.
  assert (Hcopy : well_formed N (for_loop N 0 fcopy start) /\
                  rd junk Averaged (averagedPulseSequence (for_loop N 0 fcopy start)) j
                  = rd junk DLCcorrected DLC j /\
                  rd junk Overcorrected (overcorrectedPulseSequence (for_loop N 0 fcopy start)) j
                  = rd junk DLCcorrected DLC j).
  { assert (Hinv : well_formed N (for_loop N 0 fcopy start) /\
        (j < 0 + N ->
         rd junk Averaged (averagedPulseSequence (for_loop N 0 fcopy start)) j
         = rd junk DLCcorrected DLC j /\
         rd junk Overcorrected (overcorrectedPulseSequence (for_loop N 0 fcopy start)) j
         = rd junk DLCcorrected DLC j)).
    { apply (for_loop_invariant (fun i s => well_formed N s /\
        (j < i ->
         rd junk Averaged (averagedPulseSequence s) j = rd junk DLCcorrected DLC j /\
         rd junk Overcorrected (overcorrectedPulseSequence s) j = rd junk DLCcorrected DLC j))).
      - split; [|lia].
        subst start; shape.
      - intros i s Hi [Hs Hcells]; subst fcopy; split.
        + shape.
        + intros Hji; fields.
          destruct (Nat.eq_dec j i) as [->|Hne].
          * rewrite !rd_upd_same; [auto| |]; unfold well_formed in Hs; lia.
          * rewrite !rd_upd_other by exact Hne; apply Hcells; lia. }
    destruct Hinv as [Hwf Hcells]; destruct (Hcells Hj); auto. }
  destruct Hcopy as [Hwf [Havg Hover]].
  assert (Hinv : (averagedPulseSequence (for_loop N 0 fzero (for_loop N 0 fcopy start))
                  = averagedPulseSequence (for_loop N 0 fcopy start) /\
                  overcorrectedPulseSequence (for_loop N 0 fzero (for_loop N 0 fcopy start))
                  = overcorrectedPulseSequence (for_loop N 0 fcopy start) /\
                  length (cur (for_loop N 0 fzero (for_loop N 0 fcopy start))) = S N) /\
                 (j < 0 + N -> rd junk Cur (cur (for_loop N 0 fzero (for_loop N 0 fcopy start))) j
                               = dint 0)).
  { apply (for_loop_invariant (fun i s =>
      (averagedPulseSequence s = averagedPulseSequence (for_loop N 0 fcopy start) /\
       overcorrectedPulseSequence s = overcorrectedPulseSequence (for_loop N 0 fcopy start) /\
       length (cur s) = S N) /\
      (j < i -> rd junk Cur (cur s) j = dint 0))).
    - split; [|lia]. unfold well_formed in Hwf; intuition.
    - intros i s Hi [[Ha [Ho Hl]] Hcells]; subst fzero; fields.
      rewrite length_upd; split; [auto|].
      intros Hji; destruct (Nat.eq_dec j i) as [->|Hne].
      + apply rd_upd_same; lia.
      + rewrite rd_upd_other by exact Hne; apply Hcells; lia. }
  destruct Hinv as [[Ha [Ho _]] Hcur].
  rewrite Ha, Ho; auto.
Qed.

(** Lines 231-234 overwrite the potentials with currents, cell by cell. *)
Lemma ohms_law_cells (b : buffers D) :
  well_formed N b ->
  length (averagedPulseSequence (ohms_law junk resistance N inputPulseSequence b)) = S N /\
  forall j, j < N ->
    rd junk Averaged (averagedPulseSequence (ohms_law junk resistance N inputPulseSequence b)) j
    = ((rd junk InputPulse inputPulseSequence j - rd junk Averaged (averagedPulseSequence b) j)
       / resistance)%D.
Proof.
  intros Hb.
  assert (Hinv : length (averagedPulseSequence (ohms_law junk resistance N inputPulseSequence b))
                 = S N /\
    forall j,
      (j < 0 + N ->
       rd junk Averaged (averagedPulseSequence (ohms_law junk resistance N inputPulseSequence b)) j
       = ((rd junk InputPulse inputPulseSequence j - rd junk Averaged (averagedPulseSequence b) j)
          / resistance)%D) /\
      (0 + N <= j ->
       rd junk Averaged (averagedPulseSequence (ohms_law junk resistance N inputPulseSequence b)) j
       = rd junk Averaged (averagedPulseSequence b) j)).
  { unfold ohms_law.
    apply (for_loop_invariant (fun i s =>
      length (averagedPulseSequence s) = S N /\
      forall j,
        (j < i -> rd junk Averaged (averagedPulseSequence s) j
                  = ((rd junk InputPulse inputPulseSequence j
                      - rd junk Averaged (averagedPulseSequence b) j) / resistance)%D) /\
        (i <= j -> rd junk Averaged (averagedPulseSequence s) j
                   = rd junk Averaged (averagedPulseSequence b) j))).
    - split; [unfold well_formed in Hb; intuition|].
      intros j; split; [lia|reflexivity].
    - intros i s Hi [Hlen Hcells]; fields; rewrite length_upd; split; [exact Hlen|].
      intros j; split; intros Hj.
      + destruct (Nat.eq_dec j i) as [->|Hne].
        * rewrite rd_upd_same by lia.
          destruct (Hcells i) as [_ Hsame]; rewrite Hsame by lia; reflexivity.
        * rewrite rd_upd_other by exact Hne; apply Hcells; lia.
      + rewrite rd_upd_other by lia; apply Hcells; lia. }
  destruct Hinv as [Hlen Hcells]; split; [exact Hlen|].
  intros j Hj; apply Hcells; exact Hj.
Qed.

End StartAndEnd.

(** ** C1: the current trace *)

Section CurrentTrace.
Context {D : Type} `{Arith D}.
Variable junk : array_id -> nat -> D.
Variable int_indefinite : Z.

(** C1.  The call returns [N] cells.  Cell [j] holds
    [(inputPulseSequence[j] - averagedPulseSequence[j]) / resistance], where
    [averagedPulseSequence] is the working buffer as the last component left
    it; before the first component that buffer is the corrected sequence. *)
Theorem C1_current_trace (timePeriod resistance : D) (N : nat)
    (inputPulseSequence DLC : list D) (sizeOfInputArray : nat)
    (loadingsArray kineticConstArray redoxPotArray symCoefArray zArray : list D) (j : nat) :
  j < N ->
  let run := run_components junk int_indefinite timePeriod resistance N DLC
               loadingsArray kineticConstArray redoxPotArray symCoefArray zArray in
  let currentTrace := redoxKineticsFull junk int_indefinite timePeriod resistance N
               inputPulseSequence DLC sizeOfInputArray
               loadingsArray kineticConstArray redoxPotArray symCoefArray zArray in
  length currentTrace = N /\
  nth_error currentTrace j
  = Some ((rd junk InputPulse inputPulseSequence j
           - rd junk Averaged (averagedPulseSequence (run sizeOfInputArray)) j) / resistance)%D /\
  rd junk Averaged (averagedPulseSequence (run 0)) j = rd junk DLCcorrected DLC j.
Proof.
  intros Hj run currentTrace.
  destruct (ohms_law_cells junk resistance N inputPulseSequence (run sizeOfInputArray)
              (well_formed_run_components junk int_indefinite timePeriod resistance N DLC
                 loadingsArray kineticConstArray redoxPotArray symCoefArray zArray
                 sizeOfInputArray)) as [Hlen Hcells].
  assert (Hout : length currentTrace = N).
  { subst currentTrace; unfold redoxKineticsFull; apply length_firstn_le.
    fold run; rewrite Hlen; lia. }
  split; [exact Hout|split].
  - rewrite (nth_error_rd junk Averaged) by lia.
    f_equal; subst currentTrace; unfold redoxKineticsFull, rd.
    rewrite nth_firstn_below by exact Hj.
    apply Hcells; exact Hj.
  - subst run; unfold run_components; simpl.
    apply (init_buffers_cells junk N DLC j Hj).
Qed.

End CurrentTrace.

(** ** The scans of the window detection *)

Section Scans.
Context {D : Type} `{Arith D}.
Variable junk : array_id -> nat -> D.

(** The forward scan reads the cells from [start] on, below [start + count]. *)
Lemma forward_scan_reads (id : array_id) (hl : list D) (bound : D) (count start : nat) :
  Forall (fun cell => fst cell = id /\ start <= snd cell < start + count)
    (snd (forward_scan junk id hl bound count start)).
Proof.
  revert start; induction count as [|count IH]; intros start; simpl; [constructor|].
  destruct (dgt (rd junk id hl start) bound).
  - constructor; [simpl; split; [reflexivity|lia]|constructor].
  - specialize (IH (S start)).
    destruct (forward_scan junk id hl bound count (S start)) as [found reads]; simpl in *.
    constructor; [simpl; split; [reflexivity|lia]|].
    eapply Forall_impl; [|exact IH]; simpl; intros cell Hcell; intuition lia.
Qed.

(** The reverse scan reads the cell [start] first, whatever it finds. *)
Lemma backward_scan_first_read (id : array_id) (hl : list D) (bound : D) (start : nat) :
  0 < start ->
  exists rest, snd (backward_scan junk id hl bound start) = (id, start) :: rest.
Proof.
  destruct start as [|j]; [lia|intros _]; simpl.
  destruct (dgt (rd junk id hl (S j)) bound).
  - exists []; reflexivity.
  - destruct (backward_scan junk id hl bound j) as [found reads].
    exists reads; reflexivity.
Qed.

(** A forward scan stops exactly when some cell of its range qualifies. *)
Lemma forward_scan_found (id : array_id) (hl : list D) (bound : D) (count start : nat) :
  fst (forward_scan junk id hl bound count start) <> None <->
  exists j, start <= j < start + count /\ dgt (rd junk id hl j) bound = true.
Proof.
  revert start; induction count as [|count IH]; intros start; simpl.
  - split; [intros Hf; contradiction Hf; reflexivity|intros [j [Hj _]]; lia].
  - destruct (dgt (rd junk id hl start) bound) eqn:Hgt; simpl.
    + split; [intros _; exists start; split; [lia|exact Hgt]|discriminate].
    + specialize (IH (S start)).
      destruct (forward_scan junk id hl bound count (S start)) as [found reads]; simpl in *.
      rewrite IH; split; intros [j [Hj Hq]].
      * exists j; split; [lia|exact Hq].
      * exists j; split; [|exact Hq].
        destruct (Nat.eq_dec j start) as [->|Hne]; [congruence|lia].
Qed.

(** So does a reverse scan, over the cells [1] to [start]. *)
Lemma backward_scan_found (id : array_id) (hl : list D) (bound : D) (start : nat) :
  fst (backward_scan junk id hl bound start) <> None <->
  exists j, 1 <= j <= start /\ dgt (rd junk id hl j) bound = true.
Proof.
  induction start as [|start IH]; simpl.
  - split; [intros Hf; contradiction Hf; reflexivity|intros [j [Hj _]]; lia].
  - destruct (dgt (rd junk id hl (S start)) bound) eqn:Hgt; simpl.
    + split; [intros _; exists (S start); split; [lia|exact Hgt]|discriminate].
    + destruct (backward_scan junk id hl bound start) as [found reads]; simpl in *.
      rewrite IH; split; intros [j [Hj Hq]].
      * exists j; split; [lia|exact Hq].
      * exists j; split; [|exact Hq].
        destruct (Nat.eq_dec j (S start)) as [->|Hne]; [congruence|lia].
Qed.

(** Where the scans stop. *)
Lemma forward_scan_index (id : array_id) (hl : list D) (bound : D) (count start j : nat) :
  fst (forward_scan junk id hl bound count start) = Some j -> start <= j < start + count.
Proof.
  revert start; induction count as [|count IH]; intros start; simpl; [discriminate|].
  destruct (dgt (rd junk id hl start) bound); simpl.
  - intros [= <-]; lia.
  - specialize (IH (S start)).
    destruct (forward_scan junk id hl bound count (S start)) as [found reads]; simpl in *.
    intros Hf; specialize (IH Hf); lia.
Qed.

Lemma backward_scan_index (id : array_id) (hl : list D) (bound : D) (start j : nat) :
  fst (backward_scan junk id hl bound start) = Some j -> 1 <= j <= start.
Proof.
  induction start as [|start IH]; simpl; [discriminate|].
  destruct (dgt (rd junk id hl (S start)) bound); simpl.
  - intros [= <-]; lia.
  - destruct (backward_scan junk id hl bound start) as [found reads]; simpl in *.
    intros Hf; specialize (IH Hf); lia.
Qed.

Variable timePeriod : D.
Variable N : nat.
Variable DLC : list D.

(** The upper lookup bound never exceeds [N]. *)
Lemma detect_window_max (c : component D) (b : buffers D) :
  lookupMaxTreshold (detect_window junk timePeriod N DLC c b) <= N.
Proof.
  unfold detect_window, window_scans; cbv zeta.
  destruct (positiveScanDirection junk N DLC); simpl;
    match goal with
    | |- context [fst (backward_scan ?j ?id ?hl ?bd ?n)] =>
        destruct (fst (backward_scan j id hl bd n)) as [k|] eqn:Hk;
        [apply backward_scan_index in Hk; lia|lia]
    end.
Qed.

(** In both branches the reverse scan reads cell [N] first and the forward
    scan stays below [N]. *)
Lemma scans_of_reads (c : component D) (b : buffers D) :
  0 < N ->
  let scans := scans_of junk timePeriod N DLC c b in
  (exists rest,
     snd (snd scans)
     = ((if positiveScanDirection junk N DLC then ForwardHalflife else BackwardHalflife), N)
       :: rest) /\
  Forall (fun cell =>
            fst cell = (if positiveScanDirection junk N DLC
                        then BackwardHalflife else ForwardHalflife) /\
            snd cell < N)
    (snd (fst scans)).
Proof.
  intros HN scans; subst scans; unfold scans_of, window_scans; cbv zeta.
  destruct (positiveScanDirection junk N DLC); simpl;
    (split; [apply backward_scan_first_read; exact HN|]);
    (eapply Forall_impl; [|apply forward_scan_reads]); simpl; intros cell Hcell; intuition lia.
Qed.

End Scans.

(** ** What each loop of a component writes *)

Section Footprints.
Context {D : Type} `{Arith D}.
Variable junk : array_id -> nat -> D.
Variable int_indefinite : Z.
Variables timePeriod resistance : D.
Variable N : nat.
Variable DLC : list D.
Variable c : component D.

Lemma compute_overpotentials_frame (b : buffers D) :
  let b' := compute_overpotentials junk N c b in
  same_potentials b b' /\ same_rates b b'.
Proof.
  cbv zeta; unfold compute_overpotentials; cbv zeta.
  apply (for_loop_preserves (fun s => same_potentials b s /\ same_rates b s)).
  - repeat split.
  - intros i s Hs; unfold same_potentials, same_rates in *; fields; exact Hs.
Qed.

Lemma compute_rates_frame (b : buffers D) :
  let b' := compute_rates junk N c b in
  same_potentials b b' /\ overpotentials b' = overpotentials b.
Proof.
  cbv zeta; unfold compute_rates; cbv zeta.
  apply (for_loop_preserves (fun s => same_potentials b s /\ overpotentials s = overpotentials b)).
  - repeat split.
  - intros i s Hs; unfold same_potentials in *; fields; exact Hs.
Qed.

Lemma compute_Ksum_Kratio_frame (b : buffers D) :
  let b' := compute_Ksum_Kratio junk N b in
  same_potentials b b' /\ same_rates b b' /\ overpotentials b' = overpotentials b.
Proof.
  cbv zeta; unfold compute_Ksum_Kratio.
  apply (for_loop_preserves (fun s =>
    same_potentials b s /\ same_rates b s /\ overpotentials s = overpotentials b)).
  - repeat split.
  - intros i s Hs; unfold same_potentials, same_rates in *; fields; exact Hs.
Qed.

(** The three loops before the slices leave the potentials and the current
    alone. *)
Lemma before_slices_frame (b : buffers D) :
  let b' := compute_Ksum_Kratio junk N (rates_of junk N c b) in
  cur b' = cur b /\
  averagedPulseSequence b' = averagedPulseSequence b /\
  overcorrectedPulseSequence b' = overcorrectedPulseSequence b.
Proof.
  cbv zeta; unfold rates_of.
  destruct (compute_Ksum_Kratio_frame
              (compute_rates junk N c (compute_overpotentials junk N c b)))
    as [[K1 [K2 K3]] _].
  destruct (compute_rates_frame (compute_overpotentials junk N c b)) as [[R1 [R2 R3]] _].
  destruct (compute_overpotentials_frame b) as [[O1 [O2 O3]] _].
  rewrite K1, K2, K3, R1, R2, R3; auto.
Qed.

(** The march writes nothing but [cur]. *)
Lemma march_frame (w : window) (Red0 : D) (b : buffers D) :
  let b' := snd (march junk int_indefinite timePeriod c w Red0 b) in
  averagedPulseSequence b' = averagedPulseSequence b /\
  overcorrectedPulseSequence b' = overcorrectedPulseSequence b.
Proof.
  cbv zeta; unfold march; cbv zeta.
  apply (for_loop_preserves (fun s =>
    averagedPulseSequence (snd s) = averagedPulseSequence b /\
    overcorrectedPulseSequence (snd s) = overcorrectedPulseSequence b)).
  - split; reflexivity.
  - intros i [Red s] Hs; fields; exact Hs.
Qed.

(** The march writes [cur] from [lookupMinTreshhold + 1] to
    [lookupMaxTreshold] and nowhere else. *)
Lemma march_cur_frame (w : window) (Red0 : D) (b : buffers D) (k : nat) :
  ~ (lookupMinTreshhold w < k <= lookupMaxTreshold w) ->
  rd junk Cur (cur (snd (march junk int_indefinite timePeriod c w Red0 b))) k
  = rd junk Cur (cur b) k.
Proof.
  intros Hk; unfold march; cbv zeta.
  set (lo := lookupMinTreshhold w) in *; set (hi := lookupMaxTreshold w) in *.
  match goal with
  | |- context [for_loop ?n ?st ?body ?s0] =>
      apply (for_loop_invariant
               (fun _ s => rd junk Cur (cur (snd s)) k = rd junk Cur (cur b) k) n st body s0)
  end.
  - reflexivity.
  - intros i [Red s] Hi Hs; fields.
    rewrite rd_upd_other by lia; exact Hs.
Qed.

Lemma recompute_frame (id : array_id) (potential : buffers D -> list D) (m : nat)
    (b : buffers D) :
  let b' := recompute junk c id potential m b in
  cur b' = cur b /\
  averagedPulseSequence b' = averagedPulseSequence b /\
  overcorrectedPulseSequence b' = overcorrectedPulseSequence b.
Proof. cbv zeta; unfold recompute; cbv zeta; fields; repeat split. Qed.

(** The first resistive correction, cell by cell. *)
Lemma overcorrection_pass_cells (w : window) (b : buffers D) :
  well_formed N b ->
  lookupMaxTreshold w <= N ->
  let b' := overcorrection_pass junk resistance c w b in
  cur b' = cur b /\
  averagedPulseSequence b' = averagedPulseSequence b /\
  forall m,
    (lookupMinTreshhold w <= m < lookupMaxTreshold w ->
     rd junk Overcorrected (overcorrectedPulseSequence b') m
     = (rd junk Overcorrected (overcorrectedPulseSequence b) m
        - rd junk Cur (cur b) m * resistance)%D) /\
    (~ lookupMinTreshhold w <= m < lookupMaxTreshold w ->
     rd junk Overcorrected (overcorrectedPulseSequence b') m
     = rd junk Overcorrected (overcorrectedPulseSequence b) m).
Proof.
  intros Hb Hhi; cbv zeta; unfold overcorrection_pass; cbv zeta.
  set (lo := lookupMinTreshhold w) in *; set (hi := lookupMaxTreshold w) in *.
  match goal with
  | |- context [for_loop ?n ?st ?body ?s0] =>
      assert (Hinv : (fun i s =>
        well_formed N s /\ cur s = cur b /\
        averagedPulseSequence s = averagedPulseSequence b /\
        forall m,
          (lo <= m < i ->
           rd junk Overcorrected (overcorrectedPulseSequence s) m
           = (rd junk Overcorrected (overcorrectedPulseSequence b) m
              - rd junk Cur (cur b) m * resistance)%D) /\
          (~ lo <= m < i ->
           rd junk Overcorrected (overcorrectedPulseSequence s) m
           = rd junk Overcorrected (overcorrectedPulseSequence b) m))
        (st + n) (for_loop n st body s0))
  end.
  { apply for_loop_invariant.
    - split; [exact Hb|split; [reflexivity|split; [reflexivity|]]].
      intros m; split; [lia|reflexivity].
    - intros i s Hi [Hs [Hcur [Havg Hcells]]].
      destruct (recompute_frame Overcorrected overcorrectedPulseSequence i
        (set_overcorrected (upd i
           (rd junk Overcorrected (overcorrectedPulseSequence s) i
            - rd junk Cur (cur s) i * resistance)%D (overcorrectedPulseSequence s)) s))
        as [Rcur [Ravg Rover]].
      rewrite Rcur, Ravg, Rover; fields.
      split; [apply well_formed_recompute; shape|].
      split; [exact Hcur|split; [exact Havg|]].
      intros m; split; intros Hm.
      + destruct (Nat.eq_dec m i) as [->|Hne].
        * rewrite rd_upd_same by (unfold well_formed in Hs; lia).
          destruct (Hcells i) as [_ Hsame]; rewrite Hsame by lia.
          rewrite Hcur; reflexivity.
        * rewrite rd_upd_other by exact Hne; apply Hcells; lia.
      + rewrite rd_upd_other by lia; apply Hcells; lia. }
  cbv beta in Hinv; destruct Hinv as [_ [Hcur [Havg Hcells]]].
  split; [exact Hcur|split; [exact Havg|]].
  intros m; split; intros Hm; apply Hcells; lia.
Qed.

(** The second resistive correction and the average, cell by cell. *)
Lemma averaging_pass_cells (w : window) (b : buffers D) :
  well_formed N b ->
  lookupMaxTreshold w <= N ->
  let b' := averaging_pass junk resistance c w b in
  cur b' = cur b /\
  forall m,
    (lookupMinTreshhold w <= m < lookupMaxTreshold w ->
     rd junk Averaged (averagedPulseSequence b') m
     = ((rd junk Overcorrected (overcorrectedPulseSequence b) m
         - rd junk Cur (cur b) m * resistance
         + rd junk Overcorrected (overcorrectedPulseSequence b) m) / dint 2)%D /\
     rd junk Overcorrected (overcorrectedPulseSequence b') m
     = rd junk Averaged (averagedPulseSequence b') m) /\
    (~ lookupMinTreshhold w <= m < lookupMaxTreshold w ->
     rd junk Averaged (averagedPulseSequence b') m
     = rd junk Averaged (averagedPulseSequence b) m /\
     rd junk Overcorrected (overcorrectedPulseSequence b') m
     = rd junk Overcorrected (overcorrectedPulseSequence b) m).
Proof.
  intros Hb Hhi; cbv zeta; unfold averaging_pass; cbv zeta.
  set (lo := lookupMinTreshhold w) in *; set (hi := lookupMaxTreshold w) in *.
  match goal with
  | |- context [for_loop ?n ?st ?body ?s0] =>
      assert (Hinv : (fun i s =>
        well_formed N s /\ cur s = cur b /\
        forall m,
          (lo <= m < i ->
           rd junk Averaged (averagedPulseSequence s) m
           = ((rd junk Overcorrected (overcorrectedPulseSequence b) m
               - rd junk Cur (cur b) m * resistance
               + rd junk Overcorrected (overcorrectedPulseSequence b) m) / dint 2)%D /\
           rd junk Overcorrected (overcorrectedPulseSequence s) m
           = rd junk Averaged (averagedPulseSequence s) m) /\
          (~ lo <= m < i ->
           rd junk Averaged (averagedPulseSequence s) m
           = rd junk Averaged (averagedPulseSequence b) m /\
           rd junk Overcorrected (overcorrectedPulseSequence s) m
           = rd junk Overcorrected (overcorrectedPulseSequence b) m))
        (st + n) (for_loop n st body s0))
  end.
  { apply for_loop_invariant.
    - split; [exact Hb|split; [reflexivity|]].
      intros m; split; [lia|split; reflexivity].
    - intros i s Hi [Hs [Hcur Hcells]].
      match goal with
      | |- context [recompute junk c Averaged averagedPulseSequence i ?s1] =>
          destruct (recompute_frame Averaged averagedPulseSequence i s1) as [Rcur [Ravg Rover]];
          rewrite Rcur, Ravg, Rover;
          assert (Hs1 : well_formed N s1) by shape
      end.
      split; [apply well_formed_recompute; exact Hs1|]; clear Hs1.
      fields.
      assert (Hlen : i < length (averagedPulseSequence s) /\
                     i < length (overcorrectedPulseSequence s))
        by (unfold well_formed in Hs; lia).
      destruct Hlen as [Hla Hlo].
      split; [exact Hcur|].
      intros m; destruct (Nat.eq_dec m i) as [->|Hne].
      + rewrite !rd_upd_same by (rewrite ?length_upd; assumption).
        destruct (Hcells i) as [_ Hsame]; destruct Hsame as [_ Hover]; [lia|].
        rewrite Hover, Hcur.
        split; [intros _; split; reflexivity|intros Hm; lia].
      + rewrite !rd_upd_other by exact Hne.
        split; intros Hm; apply Hcells; lia. }
  cbv beta in Hinv; destruct Hinv as [_ [Hcur Hcells]].
  split; [exact Hcur|].
  intros m; split; intros Hm; apply Hcells; lia.
Qed.

End Footprints.

(** ** The slices of a component *)

Section Slices.
Context {D : Type} `{Arith D}.
Variable junk : array_id -> nat -> D.
Variable int_indefinite : Z.
Variables timePeriod resistance : D.
Variable N : nat.
Variable DLC : list D.
Variable c : component D.

Lemma process_component_slices (b : buffers D) :
  process_component junk int_indefinite timePeriod resistance N DLC c b
  = before_slice junk int_indefinite timePeriod resistance N DLC c b
      (Z.to_nat (loadingDivider int_indefinite c)).
Proof. reflexivity. Qed.

Lemma before_slice_next (b : buffers D) (j : nat) :
  before_slice junk int_indefinite timePeriod resistance N DLC c b (S j)
  = slice junk int_indefinite timePeriod resistance c (window_of junk timePeriod N DLC c b) j
      (before_slice junk int_indefinite timePeriod resistance N DLC c b j).
Proof. unfold before_slice; rewrite for_loop_last; reflexivity. Qed.

(** A slice without a window does nothing. *)
Lemma slice_not_found (w : window) (j : nat) (b : buffers D) :
  LookupThresholdFound w = false ->
  slice junk int_indefinite timePeriod resistance c w j b = b.
Proof. intros Hw; unfold slice; cbv zeta; rewrite Hw; reflexivity. Qed.

(** A slice leaves [cur] alone outside the cells the march writes. *)
Lemma slice_cur_frame (w : window) (j : nat) (b : buffers D) (k : nat) :
  well_formed N b ->
  lookupMaxTreshold w <= N ->
  ~ (lookupMinTreshhold w < k <= lookupMaxTreshold w) ->
  rd junk Cur (cur (slice junk int_indefinite timePeriod resistance c w j b)) k
  = rd junk Cur (cur b) k.
Proof.
  intros Hb Hhi Hk; unfold slice; cbv zeta.
  destruct (LookupThresholdFound w); [|reflexivity].
  match goal with
  | |- context [march junk int_indefinite timePeriod c w ?Red0 b] =>
      set (marched := snd (march junk int_indefinite timePeriod c w Red0 b));
      assert (Hm : well_formed N marched) by (apply well_formed_march; exact Hb);
      assert (Hcur : rd junk Cur (cur marched) k = rd junk Cur (cur b) k)
        by (apply march_cur_frame; exact Hk)
  end.
  destruct (Nat.even j).
  - destruct (overcorrection_pass_cells junk resistance N c w marched Hm Hhi) as [-> _].
    exact Hcur.
  - destruct (averaging_pass_cells junk resistance N c w marched Hm Hhi) as [-> _].
    exact Hcur.
Qed.

(** The correction a slice applies, cell by cell, with the currents in [cur]
    when the slice ends. *)
Lemma slice_correction (w : window) (j : nat) (b : buffers D) (m : nat) :
  well_formed N b ->
  LookupThresholdFound w = true ->
  lookupMaxTreshold w <= N ->
  lookupMinTreshhold w <= m < lookupMaxTreshold w ->
  let b' := slice junk int_indefinite timePeriod resistance c w j b in
  (Nat.even j = true ->
   rd junk Overcorrected (overcorrectedPulseSequence b') m
   = (rd junk Overcorrected (overcorrectedPulseSequence b) m
      - rd junk Cur (cur b') m * resistance)%D) /\
  (Nat.even j = false ->
   rd junk Averaged (averagedPulseSequence b') m
   = ((rd junk Overcorrected (overcorrectedPulseSequence b) m
       - rd junk Cur (cur b') m * resistance
       + rd junk Overcorrected (overcorrectedPulseSequence b) m) / dint 2)%D).
Proof.
  intros Hb Hw Hhi Hm b'; subst b'; unfold slice; cbv zeta; rewrite Hw.
  match goal with
  | |- context [march junk int_indefinite timePeriod c w ?Red0 b] =>
      set (marched := snd (march junk int_indefinite timePeriod c w Red0 b));
      assert (Hmarched : well_formed N marched) by (apply well_formed_march; exact Hb);
      assert (Hover : overcorrectedPulseSequence marched = overcorrectedPulseSequence b)
        by (subst marched; apply march_frame)
  end.
  split; intros ->.
  - destruct (overcorrection_pass_cells junk resistance N c w marched Hmarched Hhi)
      as [Hcur [_ Hcells]].
    destruct (Hcells m) as [Hin _].
    rewrite Hin by exact Hm; rewrite Hcur, Hover; reflexivity.
  - destruct (averaging_pass_cells junk resistance N c w marched Hmarched Hhi) as [Hcur Hcells].
    destruct (Hcells m) as [Hin _]; destruct (Hin Hm) as [Havg _].
    rewrite Havg, Hcur, Hover; reflexivity.
Qed.

Lemma well_formed_before_slice (b : buffers D) (j : nat) :
  well_formed N b ->
  well_formed N (before_slice junk int_indefinite timePeriod resistance N DLC c b j).
Proof.
  intros Hb; unfold before_slice.
  apply for_loop_preserves; [|intros; apply well_formed_slice; assumption].
  apply well_formed_compute_Ksum_Kratio, well_formed_rates_of, Hb.
Qed.

(** No slice of a component writes [cur] outside the cells its march writes. *)
Lemma before_slice_cur_frame (b : buffers D) (j k : nat) :
  well_formed N b ->
  let w := window_of junk timePeriod N DLC c b in
  ~ (lookupMinTreshhold w < k <= lookupMaxTreshold w) ->
  rd junk Cur (cur (before_slice junk int_indefinite timePeriod resistance N DLC c b j)) k
  = rd junk Cur (cur b) k.
Proof.
  intros Hb w Hk.
  induction j as [|j IH].
  - unfold before_slice; cbn [for_loop].
    destruct (before_slices_frame junk N c b) as [Hcur _]; rewrite Hcur; reflexivity.
  - rewrite before_slice_next, slice_cur_frame; auto.
    + apply well_formed_before_slice; exact Hb.
    + apply detect_window_max.
Qed.

(** C3.  When neither scan of a component finds a qualifying index, [cur],
    [averagedPulseSequence] and [overcorrectedPulseSequence] are after the
    component exactly what they were before it. *)
Theorem C3_window_not_found_leaves_buffers (b : buffers D) :
  LookupThresholdFound (window_of junk timePeriod N DLC c b) = false ->
  let b' := process_component junk int_indefinite timePeriod resistance N DLC c b in
  cur b' = cur b /\
  averagedPulseSequence b' = averagedPulseSequence b /\
  overcorrectedPulseSequence b' = overcorrectedPulseSequence b.
Proof.
  intros Hw b'; subst b'.
  rewrite process_component_slices; unfold before_slice.
  rewrite for_loop_skip by (intros i s; apply slice_not_found; exact Hw).
  apply before_slices_frame.
Qed.

End Slices.

(** ** C5: the reverse scan *)

Section ReverseScan.
Context {D : Type} `{Arith D}.
Variable junk : array_id -> nat -> D.
Variable int_indefinite : Z.

(** C5.  In a run over at least one time step, take any component [i]: the
    loop over the components processes it from the buffers the components
    before it left, and in both branches of its window detection the reverse
    scan reads cell [N] of its half-life array first, one past the last cell
    [N - 1] of the array, while every cell the forward scan reads has an index
    below [N]. *)
Theorem C5_reverse_scan_reads_past_the_end
    (timePeriod resistance : D) (N : nat) (DLC : list D)
    (loadingsArray kineticConstArray redoxPotArray symCoefArray zArray : list D) (i : nat) :
  0 < N ->
  let run := run_components junk int_indefinite timePeriod resistance N DLC
               loadingsArray kineticConstArray redoxPotArray symCoefArray zArray in
  let c := component_at junk loadingsArray kineticConstArray redoxPotArray symCoefArray zArray i in
  let scans := scans_of junk timePeriod N DLC c (run i) in
  run (S i) = process_component junk int_indefinite timePeriod resistance N DLC c (run i) /\
  (exists rest,
     snd (snd scans)
     = ((if positiveScanDirection junk N DLC then ForwardHalflife else BackwardHalflife), N)
       :: rest) /\
  Forall (fun cell =>
            fst cell = (if positiveScanDirection junk N DLC
                        then BackwardHalflife else ForwardHalflife) /\
            snd cell < N)
    (snd (fst scans)) /\
  N - 1 < N /\ ~ N < N.
Proof.
  intros HN run c scans.
  split; [subst run; unfold run_components; rewrite for_loop_last; reflexivity|].
  destruct (scans_of_reads junk timePeriod N DLC c (run i) HN) as [Hback Hfwd].
  split; [exact Hback|split; [exact Hfwd|lia]].
Qed.

End ReverseScan.

(** ** C10: the current at the lower lookup bound *)

Section MarchStores.
Context {D : Type} `{Arith D}.
Variable junk : array_id -> nat -> D.
Variable int_indefinite : Z.
Variables timePeriod resistance : D.
Variable N : nat.
Variable DLC : list D.
Variable c : component D.

(** The current the march stores in its first cell. *)
Lemma march_first_store (w : window) (Red0 : D) (b : buffers D) :
  well_formed N b ->
  lookupMinTreshhold w < lookupMaxTreshold w <= N ->
  rd junk Cur (cur (snd (march junk int_indefinite timePeriod c w Red0 b)))
    (S (lookupMinTreshhold w))
  = (electronCount c * definitions.f
     * (Red0 * rd junk ForwardK (forwardK b) (S (lookupMinTreshhold w))
        - (truncatedComponent int_indefinite c - Red0)
          * rd junk BackwardK (backwardK b) (S (lookupMinTreshhold w))))%D.
Proof.
  intros Hb Hw; unfold march; cbv zeta.
  set (lo := lookupMinTreshhold w) in *; set (hi := lookupMaxTreshold w) in *.
  destruct (hi - lo) as [|n] eqn:Hn; [lia|].
  cbn [for_loop].
  match goal with
  | |- context [for_loop ?n ?st ?body ?s0] =>
      assert (Hrest : rd junk Cur (cur (snd (for_loop n st body s0))) (S lo)
                      = rd junk Cur (cur (snd s0)) (S lo))
        by (apply (for_loop_invariant
                     (fun _ s => rd junk Cur (cur (snd s)) (S lo)
                                 = rd junk Cur (cur (snd s0)) (S lo)) n st body s0);
            [reflexivity|intros i [Red s] Hi Hs; fields; rewrite rd_upd_other by lia; exact Hs])
  end.
  rewrite Hrest; fields.
  apply rd_upd_same; unfold well_formed in Hb; lia.
Qed.

(** A slice with a window that is not empty stores the first current of its
    march, computed from the starting concentration and the rate constants
    the slice found. *)
Lemma slice_first_store (w : window) (j : nat) (b : buffers D) :
  well_formed N b ->
  LookupThresholdFound w = true ->
  lookupMinTreshhold w < lookupMaxTreshold w <= N ->
  let Red0 := startingRedConcentration
                (rd junk Overpotentials (overpotentials b) (lookupMinTreshhold w))
                (truncatedComponent int_indefinite c)
                (double_to_int int_indefinite (electronCount c)) in
  rd junk Cur (cur (slice junk int_indefinite timePeriod resistance c w j b))
    (S (lookupMinTreshhold w))
  = (electronCount c * definitions.f
     * (Red0 * rd junk ForwardK (forwardK b) (S (lookupMinTreshhold w))
        - (truncatedComponent int_indefinite c - Red0)
          * rd junk BackwardK (backwardK b) (S (lookupMinTreshhold w))))%D.
Proof.
  intros Hb Hfound Hw Red0; unfold slice; cbv zeta; rewrite Hfound; fold Red0.
  assert (Hm : well_formed N (snd (march junk int_indefinite timePeriod c w Red0 b)))
    by (apply well_formed_march; exact Hb).
  destruct (Nat.even j).
  - destruct (overcorrection_pass_cells junk resistance N c w _ Hm (proj2 Hw)) as [-> _].
    apply march_first_store; assumption.
  - destruct (averaging_pass_cells junk resistance N c w _ Hm (proj2 Hw)) as [-> _].
    apply march_first_store; assumption.
Qed.

End MarchStores.

Section StaleCurrent.
Context {D : Type} `{Arith D}.
Variable junk : array_id -> nat -> D.
Variable int_indefinite : Z.

(** C10, as the code has it.  [cur] starts as zeros.  Take component [i] of
    a run, with a window found and not empty, and its slice [j].  The march
    of the slice stores its first current in cell [lookupMinTreshhold + 1];
    the slice, like every slice of the component before it, leaves [cur]
    outside [lookupMinTreshhold + 1 .. lookupMaxTreshold] as the earlier
    components left it.  Its correction pass (the overcorrection of an even
    slice, the average of an odd one) multiplies [cur[m]] with the
    resistance for every [m] from [lookupMinTreshhold] to
    [lookupMaxTreshold - 1]; at [lookupMinTreshhold] that is the value [cur]
    held when the component began, which no slice of this component wrote.
    In every slice of the first component it is the initial zero. *)
Theorem C10_correction_at_lower_bound_uses_stale_current
    (timePeriod resistance : D) (N : nat) (DLC : list D)
    (loadingsArray kineticConstArray redoxPotArray symCoefArray zArray : list D)
    (i j : nat) :
  let b := run_components junk int_indefinite timePeriod resistance N DLC
             loadingsArray kineticConstArray redoxPotArray symCoefArray zArray i in
  let c := component_at junk loadingsArray kineticConstArray redoxPotArray symCoefArray zArray i in
  let w := window_of junk timePeriod N DLC c b in
  let lo := lookupMinTreshhold w in
  let hi := lookupMaxTreshold w in
  let s := before_slice junk int_indefinite timePeriod resistance N DLC c b j in
  let s' := slice junk int_indefinite timePeriod resistance c w j s in
  let Red0 := startingRedConcentration (rd junk Overpotentials (overpotentials s) lo)
                (truncatedComponent int_indefinite c)
                (double_to_int int_indefinite (electronCount c)) in
  LookupThresholdFound w = true ->
  lo < hi ->
  (forall k, k < N -> rd junk Cur (cur (init_buffers junk N DLC)) k = dint 0) /\
  s' = before_slice junk int_indefinite timePeriod resistance N DLC c b (S j) /\
  rd junk Cur (cur s') (S lo)
  = (electronCount c * definitions.f
     * (Red0 * rd junk ForwardK (forwardK s) (S lo)
        - (truncatedComponent int_indefinite c - Red0)
          * rd junk BackwardK (backwardK s) (S lo)))%D /\
  (forall k, ~ (lo < k <= hi) ->
     rd junk Cur (cur s') k = rd junk Cur (cur b) k /\
     rd junk Cur (cur s) k = rd junk Cur (cur b) k) /\
  (forall m, lo <= m < hi ->
     (Nat.even j = true ->
      rd junk Overcorrected (overcorrectedPulseSequence s') m
      = (rd junk Overcorrected (overcorrectedPulseSequence s) m
         - rd junk Cur (cur s') m * resistance)%D) /\
     (Nat.even j = false ->
      rd junk Averaged (averagedPulseSequence s') m
      = ((rd junk Overcorrected (overcorrectedPulseSequence s) m
          - rd junk Cur (cur s') m * resistance
          + rd junk Overcorrected (overcorrectedPulseSequence s) m) / dint 2)%D)) /\
  rd junk Cur (cur s') lo = rd junk Cur (cur b) lo /\
  (i = 0 -> rd junk Cur (cur s') lo = dint 0).
Proof.
  intros b c w lo hi s s' Red0 Hw Hlo.
  assert (Hb : well_formed N b) by apply well_formed_run_components.
  assert (Hs : well_formed N s) by (apply well_formed_before_slice; exact Hb).
  assert (Hhi : hi <= N) by apply detect_window_max.
  assert (Hnext : s' = before_slice junk int_indefinite timePeriod resistance N DLC c b (S j))
    by (symmetry; apply before_slice_next).
  assert (Hframe : forall j' k, ~ (lo < k <= hi) ->
            rd junk Cur (cur (before_slice junk int_indefinite timePeriod resistance N DLC c b j')) k
            = rd junk Cur (cur b) k)
    by (intros j' k Hk; apply before_slice_cur_frame; assumption).
  assert (Hstale : rd junk Cur (cur s') lo = rd junk Cur (cur b) lo)
    by (rewrite Hnext; apply Hframe; lia).
  split; [intros k Hk; apply (init_buffers_cells junk N DLC k Hk)|].
  split; [exact Hnext|].
  split; [apply (slice_first_store junk int_indefinite timePeriod resistance N c w j s Hs Hw);
          fold lo; fold hi; lia|].
  split; [intros k Hk; split; [rewrite Hnext|]; apply Hframe; exact Hk|].
  split.
  { intros m Hm.
    apply (slice_correction junk int_indefinite timePeriod resistance N c w j s m Hs Hw Hhi Hm). }
  split; [exact Hstale|].
  intros Hi; rewrite Hstale; subst b; rewrite Hi.
  apply (init_buffers_cells junk N DLC lo); lia.
Qed.

End StaleCurrent.

(** ** The kinetic state of a component *)

Section KineticState.
Context {D : Type} `{Arith D}.
Variable junk : array_id -> nat -> D.
Variable N : nat.
Variable c : component D.
Local Open Scope double_scope.

Lemma compute_overpotentials_cells (b : buffers D) (j : nat) :
  well_formed N b -> (j < N)%nat ->
  rd junk Overpotentials (overpotentials (compute_overpotentials junk N c b)) j
  = rd junk Averaged (averagedPulseSequence b) j - standardPotential c.
Proof.
  intros Hb Hj; unfold compute_overpotentials; cbv zeta.
  match goal with
  | |- context [for_loop ?n ?st ?body ?s0] =>
      assert (Hinv : (fun i s =>
        averagedPulseSequence s = averagedPulseSequence b /\
        length (overpotentials s) = S N /\
        ((j < i)%nat ->
         rd junk Overpotentials (overpotentials s) j
         = rd junk Averaged (averagedPulseSequence b) j - standardPotential c))
        (st + n)%nat (for_loop n st body s0))
  end.
  { apply for_loop_invariant.
    - split; [reflexivity|split; [unfold well_formed in Hb; intuition|lia]].
    - intros i s Hi [Havg [Hlen Hcell]]; fields; rewrite length_upd.
      split; [exact Havg|split; [exact Hlen|]].
      intros Hji; destruct (Nat.eq_dec j i) as [->|Hne].
      + rewrite rd_upd_same by lia; rewrite Havg; reflexivity.
      + rewrite rd_upd_other by exact Hne; apply Hcell; lia. }
  cbv beta in Hinv; apply Hinv; exact Hj.
Qed.

(** Lines 59-67, cell by cell; the cells from [N] on keep what they held. *)
Lemma compute_rates_cells (b : buffers D) :
  well_formed N b ->
  let b' := compute_rates junk N c b in
  forall j,
    ((j < N)%nat ->
     rd junk BackwardK (backwardK b') j
     = backward_rate c (rd junk Overpotentials (overpotentials b) j) /\
     rd junk ForwardK (forwardK b') j
     = forward_rate c (rd junk Overpotentials (overpotentials b) j) /\
     rd junk ForwardHalflife (forwardKhalflife b') j
     = definitions.ln2 / forward_rate c (rd junk Overpotentials (overpotentials b) j) /\
     rd junk BackwardHalflife (backwardKhalflife b') j
     = definitions.ln2 / backward_rate c (rd junk Overpotentials (overpotentials b) j)) /\
    ((N <= j)%nat ->
     rd junk ForwardHalflife (forwardKhalflife b') j
     = rd junk ForwardHalflife (forwardKhalflife b) j /\
     rd junk BackwardHalflife (backwardKhalflife b') j
     = rd junk BackwardHalflife (backwardKhalflife b) j).
Proof.
  intros Hb; cbv zeta; unfold compute_rates; cbv zeta.
  match goal with
  | |- context [for_loop ?n ?st ?body ?s0] =>
      assert (Hinv : (fun i s =>
        well_formed N s /\ overpotentials s = overpotentials b /\
        forall j,
          ((j < i)%nat ->
           rd junk BackwardK (backwardK s) j
           = backward_rate c (rd junk Overpotentials (overpotentials b) j) /\
           rd junk ForwardK (forwardK s) j
           = forward_rate c (rd junk Overpotentials (overpotentials b) j) /\
           rd junk ForwardHalflife (forwardKhalflife s) j
           = definitions.ln2 / forward_rate c (rd junk Overpotentials (overpotentials b) j) /\
           rd junk BackwardHalflife (backwardKhalflife s) j
           = definitions.ln2 / backward_rate c (rd junk Overpotentials (overpotentials b) j)) /\
          ((i <= j)%nat ->
           rd junk ForwardHalflife (forwardKhalflife s) j
           = rd junk ForwardHalflife (forwardKhalflife b) j /\
           rd junk BackwardHalflife (backwardKhalflife s) j
           = rd junk BackwardHalflife (backwardKhalflife b) j))
        (st + n)%nat (for_loop n st body s0))
  end.
  { apply for_loop_invariant.
    - split; [exact Hb|split; [reflexivity|]].
      intros j; split; [lia|split; reflexivity].
    - intros i s Hi [Hs [Hov Hcells]].
      split; [shape|].
      fields; split; [exact Hov|].
      assert (Hlen : (i < length (forwardK s))%nat /\ (i < length (backwardK s))%nat /\
                     (i < length (forwardKhalflife s))%nat /\
                     (i < length (backwardKhalflife s))%nat)
        by (unfold well_formed in Hs; lia).
      destruct Hlen as [Hlf [Hlb [Hlfh Hlbh]]].
      intros j; destruct (Nat.eq_dec j i) as [->|Hne].
      + rewrite !rd_upd_same by assumption; rewrite Hov.
        split; [intros _; repeat split|intros Hle; lia].
      + rewrite !rd_upd_other by exact Hne.
        split; intros Hj; apply Hcells; lia. }
  cbv beta in Hinv; destruct Hinv as [_ [_ Hcells]]; exact Hcells.
Qed.

(** The arrays the scans read, in terms of the potentials the component
    began with. *)
Lemma rates_of_cells (b : buffers D) :
  well_formed N b ->
  let b' := rates_of junk N c b in
  forall j,
    ((j < N)%nat ->
     let eta := rd junk Averaged (averagedPulseSequence b) j - standardPotential c in
     rd junk Overpotentials (overpotentials b') j = eta /\
     rd junk ForwardK (forwardK b') j = forward_rate c eta /\
     rd junk BackwardK (backwardK b') j = backward_rate c eta /\
     rd junk ForwardHalflife (forwardKhalflife b') j = definitions.ln2 / forward_rate c eta /\
     rd junk BackwardHalflife (backwardKhalflife b') j
     = definitions.ln2 / backward_rate c eta) /\
    ((N <= j)%nat ->
     rd junk ForwardHalflife (forwardKhalflife b') j
     = rd junk ForwardHalflife (forwardKhalflife b) j /\
     rd junk BackwardHalflife (backwardKhalflife b') j
     = rd junk BackwardHalflife (backwardKhalflife b) j).
Proof.
  intros Hb b' j; subst b'; unfold rates_of.
  pose proof (well_formed_compute_overpotentials junk N c b Hb) as Hov.
  destruct (compute_rates_cells (compute_overpotentials junk N c b) Hov j) as [Hin Hout].
  split.
  - intros Hj; destruct (Hin Hj) as [Hb' [Hf [Hfh Hbh]]].
    rewrite compute_overpotentials_cells in Hb', Hf, Hfh, Hbh by assumption.
    destruct (compute_rates_frame junk N c (compute_overpotentials junk N c b)) as [_ Hsame].
    rewrite Hsame, compute_overpotentials_cells by assumption.
    repeat split; assumption.
  - intros Hj; destruct (Hout Hj) as [Hfh Hbh].
    destruct (compute_overpotentials_frame junk N c b) as [_ [_ [_ [Sfh Sbh]]]].
    rewrite Hfh, Hbh, Sfh, Sbh; split; reflexivity.
Qed.

End KineticState.

(** C7.  After lines 54-67 have run for a component, at every index [j]
    below [N]: [overpotentials[j]] is [averagedPulseSequence[j]] minus the
    standard potential, [forwardK[j]] is
    [k0 * exp(overpotentials[j] * (F/(R*T)) * z * alpha)], [backwardK[j]] is
    [k0 * exp(-overpotentials[j] * (F/(R*T)) * z * (1 - alpha))] and the
    half-lives are [ln2] over them, with R = 8.3145, T = 295.0, F = 96485.0
    and ln2 = 0.69314718056; in binary64 these constants are the doubles the
    C++ literals denote. *)
Theorem C7_kinetic_state {D : Type} `{Arith D} (junk : array_id -> nat -> D) (N : nat)
    (c : component D) (b : buffers D) (j : nat) :
  well_formed N b -> j < N ->
  let b' := rates_of junk N c b in
  let eta := rd junk Overpotentials (overpotentials b') j in
  let FbyRT := (dlit 96485.0 / (dlit 8.3145 * dlit 295.0))%D in
  (eta = rd junk Averaged (averagedPulseSequence b) j - standardPotential c /\
   rd junk ForwardK (forwardK b') j
   = kineticConstant c * dexp (eta * FbyRT * electronCount c * symmetryCoefficient c) /\
   rd junk BackwardK (backwardK b') j
   = kineticConstant c
     * dexp (- eta * FbyRT * electronCount c * (dint 1 - symmetryCoefficient c)) /\
   rd junk ForwardHalflife (forwardKhalflife b') j
   = dlit 0.69314718056 / rd junk ForwardK (forwardK b') j /\
   rd junk BackwardHalflife (backwardKhalflife b') j
   = dlit 0.69314718056 / rd junk BackwardK (backwardK b') j)%D /\
  (forall e : float -> float,
     @definitions.r float (binary64.arith e) = 8.3145%float /\
     @definitions.t float (binary64.arith e) = 295.0%float /\
     @definitions.f float (binary64.arith e) = 96485.0%float /\
     @definitions.FbyRT float (binary64.arith e) = (96485.0 / (8.3145 * 295.0))%float /\
     @definitions.ln2 float (binary64.arith e) = 0.69314718056%float).
Proof.
  intros Hb Hj b' eta FbyRT.
  destruct (rates_of_cells junk N c b Hb j) as [Hin _].
  destruct (Hin Hj) as [Heta [Hf [Hbk [Hfh Hbh]]]].
  fold b' in Heta, Hf, Hbk, Hfh, Hbh; fold eta in Heta.
  split.
  - rewrite Hfh, Hbh, Hf, Hbk, <- Heta.
    repeat split; reflexivity.
  - intros e; repeat split; vm_compute; reflexivity.
Qed.

(** ** The capacitive correction filter *)

Section Filter.
Context {D : Type} `{Arith D}.
Variable junk : array_id -> nat -> D.
Local Open Scope double_scope.

Lemma relaxed_firstn (id : array_id) (decay : D) (raw a : list D) (N : nat) :
  (1 <= N)%nat -> relaxed junk id decay raw a N -> relaxed junk id decay raw (firstn N a) N.
Proof.
  intros HN [H0 Hrec]; unfold relaxed, rd in *.
  rewrite nth_firstn_below by lia; split; [exact H0|].
  intros i Hi; rewrite !nth_firstn_below by lia.
  apply Hrec; exact Hi.
Qed.

(** One relaxation step written into cell [i] keeps the cells below. *)
Lemma relaxed_step (id : array_id) (decay : D) (raw a : list D) (i : nat) :
  (1 <= i < length a)%nat ->
  relaxed junk id decay raw a i ->
  relaxed junk id decay raw
    (upd i (rd junk id a (i - 1)
            + (rd junk InputPulse raw i - rd junk id a (i - 1)) * decay) a) (S i).
Proof.
  intros Hi [H0 Hrec]; split.
  - rewrite rd_upd_other by lia; exact H0.
  - intros k Hk; destruct (Nat.eq_dec k i) as [->|Hne].
    + rewrite rd_upd_same by lia; rewrite rd_upd_other by lia; reflexivity.
    + rewrite !rd_upd_other by lia; apply Hrec; lia.
Qed.

Lemma dlcCorrectedCVsequence_relaxed (resistance capacitance timeIncrement : D)
    (N : nat) (raw : list D) :
  (1 <= N)%nat ->
  let out := cv.dlcCorrectedCVsequence junk resistance capacitance timeIncrement N raw in
  length out = N /\
  relaxed junk CorrectedCV (cv.decayTerm resistance capacitance timeIncrement) raw out N.
Proof.
  intros HN out; subst out; unfold cv.dlcCorrectedCVsequence; cbv zeta.
  match goal with
  | |- context [for_loop ?n ?st ?body ?s0] =>
      assert (Hinv : (fun i a =>
        length a = S N /\
        relaxed junk CorrectedCV (cv.decayTerm resistance capacitance timeIncrement) raw a i)
        (st + n)%nat (for_loop n st body s0))
  end.
  { apply for_loop_invariant.
    - rewrite length_upd, length_alloc; split; [reflexivity|split].
      + apply rd_upd_same; rewrite length_alloc; lia.
      + intros i Hi; lia.
    - intros i a Hi [Hlen Hrel]; rewrite length_upd; split; [exact Hlen|].
      apply relaxed_step; [lia|exact Hrel]. }
  cbv beta in Hinv; destruct Hinv as [Hlen Hrel].
  replace (1 + (N - 1))%nat with N in Hrel by lia.
  split; [apply length_firstn_le; lia|apply relaxed_firstn; assumption].
Qed.

Lemma swvDLCCorrectedInputArray_relaxed (pulse_time resistance capacitance : D)
    (raw : list D) (N : nat) (npp : Z) :
  (1 <= N)%nat ->
  let out := swv.swvDLCCorrectedInputArray junk pulse_time resistance capacitance raw N npp in
  length out = N /\
  relaxed junk CorrectedSWV (swv.decayTerm pulse_time resistance capacitance npp) raw out N.
Proof.
  intros HN out; subst out; unfold swv.swvDLCCorrectedInputArray; cbv zeta.
  match goal with
  | |- context [for_loop ?n ?st ?body ?s0] =>
      assert (Hinv : (fun i a =>
        length a = S N /\
        ((1 <= i)%nat ->
         relaxed junk CorrectedSWV (swv.decayTerm pulse_time resistance capacitance npp) raw a i))
        (st + n)%nat (for_loop n st body s0))
  end.
  { apply for_loop_invariant.
    - rewrite length_alloc; split; [reflexivity|lia].
    - intros i a Hi [Hlen Hrel].
      destruct i as [|i]; cbn [Nat.eqb]; rewrite length_upd; (split; [exact Hlen|intros _]).
      + split; [apply rd_upd_same; lia|intros k Hk; lia].
      + apply relaxed_step; [lia|apply Hrel; lia]. }
  cbv beta in Hinv; destruct Hinv as [Hlen Hrel].
  split; [apply length_firstn_le; lia|apply relaxed_firstn; [exact HN|apply Hrel; lia]].
Qed.

(** A loop that stores [value i] in cell [i]. *)
Lemma fill_cells (id : array_id) (value : nat -> D) (N : nat) (i : nat) :
  (i < N)%nat ->
  nth_error (firstn N (for_loop N 0 (fun i a => upd i (value i) a) (alloc junk id N))) i
  = Some (value i).
Proof.
  intros Hi.
  match goal with
  | |- context [for_loop ?n ?st ?body ?s0] =>
      assert (Hinv : (fun k a =>
        length a = S N /\ ((i < k)%nat -> rd junk id a i = value i))
        (st + n)%nat (for_loop n st body s0))
  end.
  { apply for_loop_invariant.
    - rewrite length_alloc; split; [reflexivity|lia].
    - intros k a Hk [Hlen Hcell]; rewrite length_upd; split; [exact Hlen|].
      intros Hik; destruct (Nat.eq_dec i k) as [->|Hne].
      + apply rd_upd_same; lia.
      + rewrite rd_upd_other by exact Hne; apply Hcell; lia. }
  cbv beta in Hinv; destruct Hinv as [Hlen Hcell].
  rewrite (nth_error_rd junk id) by (rewrite length_firstn_le; lia).
  unfold rd; rewrite nth_firstn_below by exact Hi.
  f_equal; apply Hcell; exact Hi.
Qed.

(** C9.  For a raw sequence of at least one sample, both filters (the sweep
    one of cv.cpp and the pulse one of swv.cpp) return [N] cells with
    [corrected[0] = raw[0]] and
    [corrected[i] = corrected[i-1] + (raw[i] - corrected[i-1]) * decay] for
    [1 <= i < N], where [decay] is [1 - exp(-(dt/(R*C)))] for the sweep and
    [1 - exp(-(pulse_time/npp)/(R*C))] for the pulse; and both capacitive
    current functions return [(raw[i] - corrected[i]) / R] in cell [i]. *)
Theorem C9_capacitive_filter (resistance capacitance timeIncrement pulse_time : D)
    (npp : Z) (N : nat) (raw corrected : list D) :
  (1 <= N)%nat ->
  let sweep := cv.dlcCorrectedCVsequence junk resistance capacitance timeIncrement N raw in
  let pulse := swv.swvDLCCorrectedInputArray junk pulse_time resistance capacitance raw N npp in
  (length sweep = N /\
   rd junk CorrectedCV sweep 0 = rd junk InputPulse raw 0 /\
   forall i, (1 <= i < N)%nat ->
     rd junk CorrectedCV sweep i
     = rd junk CorrectedCV sweep (i - 1)
       + (rd junk InputPulse raw i - rd junk CorrectedCV sweep (i - 1))
         * (dint 1 - dexp (- (timeIncrement / (resistance * capacitance))))) /\
  (length pulse = N /\
   rd junk CorrectedSWV pulse 0 = rd junk InputPulse raw 0 /\
   forall i, (1 <= i < N)%nat ->
     rd junk CorrectedSWV pulse i
     = rd junk CorrectedSWV pulse (i - 1)
       + (rd junk InputPulse raw i - rd junk CorrectedSWV pulse (i - 1))
         * (dint 1 - dexp (- (pulse_time / dint npp) / (resistance * capacitance)))) /\
  (forall i, (i < N)%nat ->
     nth_error (cv.dlcCurrentCV junk resistance N raw corrected) i
     = Some ((rd junk InputPulse raw i - rd junk DLCcorrected corrected i) / resistance) /\
     nth_error (swv.swvDLCcurrent junk resistance N raw corrected) i
     = Some ((rd junk InputPulse raw i - rd junk DLCcorrected corrected i) / resistance)).
Proof.
  intros HN sweep pulse.
  destruct (dlcCorrectedCVsequence_relaxed resistance capacitance timeIncrement N raw HN)
    as [Hls [Hs0 Hsrec]].
  destruct (swvDLCCorrectedInputArray_relaxed pulse_time resistance capacitance raw N npp HN)
    as [Hlp [Hp0 Hprec]].
  split; [split; [exact Hls|split; [exact Hs0|exact Hsrec]]|].
  split; [split; [exact Hlp|split; [exact Hp0|exact Hprec]]|].
  intros i Hi; split.
  - unfold cv.dlcCurrentCV; cbv zeta.
    apply (fill_cells CurrentCV
             (fun i => (rd junk InputPulse raw i - rd junk DLCcorrected corrected i) / resistance)).
    exact Hi.
  - unfold swv.swvDLCcurrent; cbv zeta.
    apply (fill_cells CurrentSWV
             (fun i => (rd junk InputPulse raw i - rd junk DLCcorrected corrected i) / resistance)).
    exact Hi.
Qed.

End Filter.

(** ** The discretization of the loading *)

Lemma wrap_int_range (z : Z) : (INT_MIN <= wrap_int z <= INT_MAX)%Z.
Proof.
  unfold wrap_int, INT_MIN, INT_MAX.
  pose proof (Z.mod_pos_bound (z - -2147483648) 4294967296 eq_refl); lia.
Qed.

Lemma wrap_int_fits (z : Z) : (INT_MIN <= z <= INT_MAX)%Z -> wrap_int z = z.
Proof.
  unfold wrap_int, INT_MIN, INT_MAX; intros Hz.
  rewrite Z.mod_small by lia; lia.
Qed.

Section Discretization.
Context {D : Type} `{Arith D}.
Variable int_indefinite : Z.
Local Open Scope double_scope.

(** When the ceiling fits an [int] below [INT_MAX], the divider is the
    least even integer from the ceiling on. *)
Lemma loadingDivider_rounds_up_to_even (c : component D) (n : Z) :
  dtrunc (dceil (dint 20 * loading c * dint 1000000000)) = Some n ->
  (INT_MIN <= n < INT_MAX)%Z ->
  let divider := loadingDivider int_indefinite c in
  Z.even divider = true /\ (n <= divider <= n + 1)%Z /\
  truncatedComponent int_indefinite c = dint 2 * loading c / dint divider.
Proof.
  intros Hn Hfit divider; subst divider.
  unfold truncatedComponent, loadingDivider, double_to_int; rewrite Hn.
  assert (Hf : fits_int n = true).
  { unfold fits_int, INT_MIN, INT_MAX in *.
    apply andb_true_iff; split; apply Z.leb_le; lia. }
  rewrite Hf; cbv zeta.
  rewrite <- Zeven_rem.
  destruct (Z.even n) eqn:He; cbn [negb].
  - repeat split; [exact He|lia|lia].
  - rewrite wrap_int_fits by (unfold INT_MIN, INT_MAX in *; lia).
    repeat split; [|lia|lia].
    rewrite Z.even_add, He; reflexivity.
Qed.

(** The divider is an [int], whatever the loading. *)
Lemma loadingDivider_is_int (c : component D) :
  (INT_MIN <= loadingDivider int_indefinite c <= INT_MAX)%Z.
Proof.
  unfold loadingDivider, double_to_int.
  assert (Hc : forall m, (if fits_int m then m else wrap_int int_indefinite) = m
                         /\ fits_int m = true
                         \/ (if fits_int m then m else wrap_int int_indefinite)
                            = wrap_int int_indefinite).
  { intros m; destruct (fits_int m); [left; split; reflexivity|right; reflexivity]. }
  assert (Hr : forall m, fits_int m = true -> (INT_MIN <= m <= INT_MAX)%Z).
  { intros m Hm; unfold fits_int in Hm; apply andb_true_iff in Hm.
    destruct Hm as [H1 H2]; apply Z.leb_le in H1, H2; lia. }
  destruct (dtrunc (dceil (dint 20 * loading c * dint 1000000000))) as [m|]; cbv zeta.
  - destruct (Hc m) as [[-> Hm]| ->];
      match goal with
      | |- context [if ?t then _ else _] => destruct t
      end; try apply wrap_int_range; auto.
  - match goal with
    | |- context [if ?t then _ else _] => destruct t
    end; apply wrap_int_range.
Qed.

End Discretization.

(** C6, as the code has it.  For every loading whose [ceil(20*L*1e9)] fits an
    [int] below [INT_MAX], the discretization count is that ceiling rounded
    up to the next even integer and the slice is [2*L/D]; for the double
    1e-9 the count is 20. *)
Theorem C6_discretization_count {D : Type} `{Arith D} (int_indefinite : Z)
    (c : component D) (n : Z) :
  dtrunc (dceil (dint 20 * loading c * dint 1000000000))%D = Some n ->
  (INT_MIN <= n < INT_MAX)%Z ->
  let divider := loadingDivider int_indefinite c in
  (Z.even divider = true /\ (n <= divider <= n + 1)%Z /\
   truncatedComponent int_indefinite c = (dint 2 * loading c / dint divider)%D) /\
  (forall (e : float -> float) (k E0 alpha z : float),
     @loadingDivider float (binary64.arith e) int_indefinite
       (mkComponent 1e-9%float k E0 alpha z) = 20%Z).
Proof.
  intros Hn Hfit divider; split.
  - apply loadingDivider_rounds_up_to_even; assumption.
  - intros e k E0 alpha z; vm_compute; reflexivity.
Qed.

(** The claim C6 taken for every positive loading fails: for the loading 1.0
    the ceiling is 20000000000, which no [int] holds. *)
Lemma C6_loading_beyond_int :
  (0 <? 1)%float = true /\
  binary64.trunc (binary64.ceil (20 * 1 * 1000000000)%float) = Some 20000000000%Z /\
  Z.even 20000000000 = true /\
  forall (e : float -> float) (int_indefinite : Z) (k E0 alpha z : float),
    @loadingDivider float (binary64.arith e) int_indefinite (mkComponent 1%float k E0 alpha z)
    <> 20000000000%Z.
Proof.
  split; [reflexivity|split; [vm_compute; reflexivity|split; [reflexivity|]]].
  intros e ind k E0 alpha z Heq.
  pose proof (@loadingDivider_is_int float (binary64.arith e) ind
                (mkComponent 1%float k E0 alpha z)) as Hr.
  rewrite Heq in Hr; unfold INT_MAX in Hr; lia.
Qed.

(** ** The scan direction *)

(** C4 fails on the code: line 40 compares the first value of the corrected
    sequence with the cell one past its last value.  With the sequence
    {0.2, 0.1} and 0.3 in the cell behind it, the flag is [false], while the
    first value exceeds the last one. *)
Theorem C4_scan_direction_compares_past_the_end :
  (forall (D : Type) (H : Arith D) (junk : array_id -> nat -> D) (N : nat) (DLC : list D),
     positiveScanDirection junk N DLC
     = dgt (rd junk DLCcorrected DLC 0) (rd junk DLCcorrected DLC N) /\
     (length DLC = N -> rd junk DLCcorrected DLC N = junk DLCcorrected N)) /\
  @positiveScanDirection float (binary64.arith binary64.exp_ref) examples.behind_DLC 2
    [0.2; 0.1]%float = false /\
  @dgt float (binary64.arith binary64.exp_ref)
    (nth 0 [0.2; 0.1]%float 0%float) (nth (2 - 1) [0.2; 0.1]%float 0%float) = true.
Proof.
  split; [|split; reflexivity].
  intros D H junk N DLC; split; [reflexivity|].
  intros <-; unfold rd; apply nth_overflow; lia.
Qed.

(** ** Invalid parameters *)

(** A double divided by a zero is an infinity or a NaN. *)
Lemma binary64_division_by_zero (x y : float) :
  (y =? 0)%float = true -> is_infinity (x / y) || is_nan (x / y) = true.
Proof.
  unfold is_infinity, is_nan.
  rewrite !FloatAxioms.eqb_spec, abs_spec, div_spec.
  change (Prim2SF 0) with (S754_zero false); change (Prim2SF infinity) with (S754_infinity false).
  destruct (Prim2SF y) as [sy|sy| |sy my ey]; intros Hy;
    try solve [discriminate Hy | destruct sy; discriminate Hy].
  destruct (Prim2SF x) as [sx|sx| |sx mx ex]; destruct sy; try destruct sx; reflexivity.
Qed.

(** C2, as the code has it.  A resistance equal to zero is not guarded: the
    division of line 233 is carried out with it, and every cell of the trace
    the call returns is the quotient
    [(inputPulseSequence[j] - averagedPulseSequence[j]) / resistance], an
    infinity or a NaN. *)
Theorem C2_zero_resistance_is_divided_by (e : float -> float)
    (junk : array_id -> nat -> float) (int_indefinite : Z)
    (timePeriod resistance : float) (N : nat) (inputPulseSequence DLC : list float)
    (sizeOfInputArray : nat)
    (loadingsArray kineticConstArray redoxPotArray symCoefArray zArray : list float) (j : nat) :
  j < N ->
  (resistance =? 0)%float = true ->
  let currentTrace := @redoxKineticsFull float (binary64.arith e) junk int_indefinite
        timePeriod resistance N inputPulseSequence DLC sizeOfInputArray
        loadingsArray kineticConstArray redoxPotArray symCoefArray zArray in
  let b := @run_components float (binary64.arith e) junk int_indefinite timePeriod resistance
        N DLC loadingsArray kineticConstArray redoxPotArray symCoefArray zArray
        sizeOfInputArray in
  exists y,
    nth_error currentTrace j = Some y /\
    y = ((rd junk InputPulse inputPulseSequence j
          - rd junk Averaged (averagedPulseSequence b) j) / resistance)%float /\
    is_infinity y || is_nan y = true.
Proof.
  intros Hj Hzero currentTrace b.
  pose proof (@well_formed_run_components float (binary64.arith e) junk int_indefinite
                timePeriod resistance N DLC loadingsArray kineticConstArray redoxPotArray
                symCoefArray zArray sizeOfInputArray) as Hrun.
  destruct (@ohms_law_cells float (binary64.arith e) junk resistance N inputPulseSequence
              _ Hrun) as [Hlen Hcells].
  eexists; split; [|split; [reflexivity|]].
  - subst currentTrace; unfold redoxKineticsFull.
    rewrite (nth_error_rd junk Averaged) by (rewrite length_firstn_le; lia).
    unfold rd at 1; rewrite nth_firstn_below by exact Hj.
    unfold rd in Hcells; rewrite (Hcells j Hj); reflexivity.
  - apply binary64_division_by_zero; exact Hzero.
Qed.

(** The claim C2 fails: a call with the resistance 0 and otherwise valid
    parameters returns a trace, and the trace holds infinities. *)
Lemma C2_zero_resistance_returns_infinities :
  @redoxKineticsFull float (binary64.arith binary64.exp_ref) examples.zeros INT_MIN
    0.01%float 0%float 2 [0.1; 0.2]%float [0.05; 0.15]%float
    1 [1e-9]%float [1e6]%float [0]%float [0.5]%float [1]%float
  = [infinity; infinity].
Proof. vm_compute; reflexivity. Qed.

(** ** Window detection and the rate constant *)

Section WindowFound.
Context {D : Type} `{Arith D}.
Variable junk : array_id -> nat -> D.
Variable timePeriod : D.
Variable N : nat.
Variable DLC : list D.
Local Open Scope double_scope.

(** A window is found exactly when a cell one of the two scans reads
    qualifies. *)
Lemma detect_window_found (c : component D) (b : buffers D) :
  LookupThresholdFound (detect_window junk timePeriod N DLC c b) = true <->
  if positiveScanDirection junk N DLC then
    (exists j, (0 <= j < 0 + N)%nat /\
       (rd junk BackwardHalflife (backwardKhalflife b) j
        >? timeBenchmark timePeriod * symmetryCoefficient c) = true) \/
    (exists j, (1 <= j <= N)%nat /\
       (rd junk ForwardHalflife (forwardKhalflife b) j
        >? timeBenchmark timePeriod * (dint 1 - symmetryCoefficient c)) = true)
  else
    (exists j, (0 <= j < 0 + N)%nat /\
       (rd junk ForwardHalflife (forwardKhalflife b) j
        >? timeBenchmark timePeriod * (dint 1 - symmetryCoefficient c)) = true) \/
    (exists j, (1 <= j <= N)%nat /\
       (rd junk BackwardHalflife (backwardKhalflife b) j
        >? timeBenchmark timePeriod * symmetryCoefficient c) = true).
Proof.
  unfold detect_window, window_scans; cbv zeta.
  destruct (positiveScanDirection junk N DLC);
    rewrite <- forward_scan_found, <- backward_scan_found;
    cbn [LookupThresholdFound fst snd];
    match goal with
    | |- context [fst (forward_scan ?j ?id ?hl ?bd ?n ?st)] =>
        destruct (fst (forward_scan j id hl bd n st))
    end;
    match goal with
    | |- context [fst (backward_scan ?j ?id ?hl ?bd ?n)] =>
        destruct (fst (backward_scan j id hl bd n))
    end;
    split; intros Hf; try reflexivity; try discriminate;
    try (left; discriminate); try (right; discriminate);
    destruct Hf as [Hf|Hf]; contradiction Hf; reflexivity.
Qed.

End WindowFound.

(** ** Rounding to nearest is monotone *)

Section Rounding.
Import rounding.
Local Open Scope Z_scope.

(** The record of a mantissa and a location, and back. *)
Lemma loc_of_shr_record_of_loc (m : Z) (l : location) :
  loc_of_shr_record (shr_record_of_loc m l) = l.
Proof. destruct l as [|[| |]]; reflexivity. Qed.

Lemma shr_m_of_loc (m : Z) (l : location) : shr_m (shr_record_of_loc m l) = m.
Proof. destruct l as [|[| |]]; reflexivity. Qed.

(** One step of the right shift: the mantissa is halved, the bit that falls
    out becomes the round bit, and the sticky bit collects the old two. *)
Lemma shr_1_spec (m : Z) (r s : bool) :
  0 <= m ->
  shr_1 (Build_shr_record m r s) = Build_shr_record (m / 2) (Z.odd m) (r || s).
Proof.
  intros Hm; rewrite <- Z.div2_div.
  destruct m as [|p|p]; [reflexivity| |lia].
  destruct p as [p|p|]; reflexivity.
Qed.

Lemma iter_pos_nat {A : Type} (f : A -> A) (p : positive) (x : A) :
  SpecFloat.iter_pos f p x = Nat.iter (Pos.to_nat p) f x.
Proof.
  revert x; induction p as [p IH|p IH|]; intros x; cbn [SpecFloat.iter_pos].
  - rewrite !IH, Pos2Nat.inj_xI.
    replace (S (2 * Pos.to_nat p)) with (Pos.to_nat p + Pos.to_nat p + 1)%nat by lia.
    rewrite !Nat.iter_add; reflexivity.
  - rewrite !IH, Pos2Nat.inj_xO.
    replace (2 * Pos.to_nat p)%nat with (Pos.to_nat p + Pos.to_nat p)%nat by lia.
    rewrite Nat.iter_add; reflexivity.
  - reflexivity.
Qed.

(** [n] steps of the right shift. *)
Lemma shr_n_spec (n : nat) (m : Z) (r s : bool) :
  0 <= m ->
  Nat.iter (S n) shr_1 (Build_shr_record m r s)
  = Build_shr_record (m / 2 ^ Z.of_nat (S n))
      (Z.odd (m / 2 ^ Z.of_nat n))
      (negb (m mod 2 ^ Z.of_nat n =? 0) || r || s).
Proof.
  intros Hm; induction n as [|n IH].
  - cbn [Nat.iter]; rewrite shr_1_spec by exact Hm.
    change (2 ^ Z.of_nat 1) with 2; change (2 ^ Z.of_nat 0) with 1.
    rewrite Z.div_1_r, Z.mod_1_r; reflexivity.
  - rewrite Nat.iter_succ, IH.
    assert (Hpow : 0 < 2 ^ Z.of_nat n) by (apply Z.pow_pos_nonneg; lia).
    assert (Hpow' : 0 < 2 ^ Z.of_nat (S n)) by (apply Z.pow_pos_nonneg; lia).
    rewrite shr_1_spec by (apply Z.div_pos; lia).
    f_equal.
    + rewrite Z.div_div by lia.
      f_equal; rewrite (Nat2Z.inj_succ (S n)), Z.pow_succ_r by lia; lia.
    + (* sticky *)
      assert (Hsplit : m mod 2 ^ Z.of_nat (S n)
                       = m mod 2 ^ Z.of_nat n + 2 ^ Z.of_nat n * ((m / 2 ^ Z.of_nat n) mod 2)).
      { rewrite Nat2Z.inj_succ, Z.pow_succ_r by lia.
        rewrite (Z.mul_comm 2), Z.rem_mul_r by lia; lia. }
      rewrite Hsplit.
      pose proof (Z.mod_pos_bound m (2 ^ Z.of_nat n) Hpow) as Hb.
      rewrite Zodd_mod.
      pose proof (Z.mod_pos_bound (m / 2 ^ Z.of_nat n) 2 ltac:(lia)) as Hb2.
      destruct (Z.eqb_spec (m mod 2 ^ Z.of_nat n) 0) as [H0|H0];
        destruct (Z.eqb_spec ((m / 2 ^ Z.of_nat n) mod 2) 1) as [H1|H1];
        cbn [negb orb];
        destruct r, s; cbn [orb];
        try reflexivity;
        match goal with
        | |- context [?x =? 0] => destruct (Z.eqb_spec x 0) as [Hx|Hx]; cbn [negb]; try reflexivity; exfalso; nia
        end.
Qed.

(** The number of binary digits. *)
Lemma digits2_pos_spec (p : positive) :
  2 ^ (Z.pos (digits2_pos p) - 1) <= Z.pos p < 2 ^ Z.pos (digits2_pos p).
Proof.
  induction p as [p IH|p IH|]; cbn [digits2_pos]; [| |split; reflexivity].
  - rewrite Pos2Z.inj_succ; change (Z.pos p~1) with (2 * Z.pos p + 1).
    replace (Z.succ (Z.pos (digits2_pos p)) - 1) with (Z.succ (Z.pos (digits2_pos p) - 1)) by lia.
    rewrite !Z.pow_succ_r by lia.
    destruct IH as [IH1 IH2]; revert IH1 IH2.
    generalize (2 ^ (Z.pos (digits2_pos p) - 1)), (2 ^ Z.pos (digits2_pos p)). lia.
  - rewrite Pos2Z.inj_succ; change (Z.pos p~0) with (2 * Z.pos p).
    replace (Z.succ (Z.pos (digits2_pos p)) - 1) with (Z.succ (Z.pos (digits2_pos p) - 1)) by lia.
    rewrite !Z.pow_succ_r by lia.
    destruct IH as [IH1 IH2]; revert IH1 IH2.
    generalize (2 ^ (Z.pos (digits2_pos p) - 1)), (2 ^ Z.pos (digits2_pos p)). lia.
Qed.

Lemma Zdigits2_spec (x : Z) :
  0 < x -> 0 < Zdigits2 x /\ 2 ^ (Zdigits2 x - 1) <= x < 2 ^ Zdigits2 x.
Proof.
  destruct x as [|p|p]; try lia; intros _; cbn [Zdigits2].
  split; [lia|apply digits2_pos_spec].
Qed.

Lemma Zdigits2_unique (x d : Z) : 2 ^ (d - 1) <= x < 2 ^ d -> 0 < x -> Zdigits2 x = d.
Proof.
  intros Hd Hx; destruct (Zdigits2_spec x Hx) as [Hpos Hs].
  assert (Hd0 : 0 <= d).
  { destruct (Z_lt_le_dec d 0) as [Hneg|]; [|lia].
    rewrite (Z.pow_neg_r 2 d) in Hd by lia; lia. }
  destruct (Z.lt_trichotomy (Zdigits2 x) d) as [Hlt|[Heq|Hgt]]; [|exact Heq|].
  - assert (2 ^ Zdigits2 x <= 2 ^ (d - 1)) by (apply Z.pow_le_mono_r; lia); lia.
  - assert (2 ^ d <= 2 ^ (Zdigits2 x - 1)) by (apply Z.pow_le_mono_r; lia); lia.
Qed.

Lemma Zdigits2_mono (x y : Z) : 0 <= x <= y -> Zdigits2 x <= Zdigits2 y.
Proof.
  intros [Hx Hxy].
  destruct (Z.eq_dec x 0) as [->|Hx0].
  - destruct y as [|p|p]; cbn [Zdigits2]; lia.
  - destruct (Zdigits2_spec x ltac:(lia)) as [_ Hsx].
    destruct (Zdigits2_spec y ltac:(lia)) as [_ Hsy].
    destruct (Z_lt_le_dec (Zdigits2 y) (Zdigits2 x)) as [Hlt|]; [|lia].
    assert (2 ^ Zdigits2 y <= 2 ^ (Zdigits2 x - 1)) by (apply Z.pow_le_mono_r; lia); lia.
Qed.

(** ** The two steps of [binary_round_aux] *)

(** A right shift by [n >= 1] of a mantissa with its location. *)
Lemma shr_spec (x e n : Z) (l : location) :
  0 <= x -> 1 <= n ->
  shr (shr_record_of_loc x l) e n
  = (Build_shr_record (x / 2 ^ n) (Z.odd (x / 2 ^ (n - 1)))
       (negb (x mod 2 ^ (n - 1) =? 0) || inexact l), e + n).
Proof.
  intros Hx Hn; destruct n as [|p|p]; try lia.
  unfold shr; rewrite iter_pos_nat.
  destruct (Pos2Nat.is_succ p) as [k Hk]; rewrite Hk.
  assert (Hp : Z.pos p = Z.of_nat (S k)) by lia.
  assert (Hp' : Z.pos p - 1 = Z.of_nat k) by lia.
  rewrite Hp', Hp.
  destruct l as [|[| |]]; cbn [shr_record_of_loc inexact]; rewrite shr_n_spec by exact Hx;
    do 2 f_equal; rewrite ?orb_false_r, ?orb_true_r; reflexivity.
Qed.

Lemma round_nearest_even_spec (a : Z) (r s : bool) :
  round_nearest_even a (loc_of_shr_record (Build_shr_record a r s)) = rounded a r s.
Proof.
  unfold rounded; destruct r, s; cbn [loc_of_shr_record round_nearest_even andb orb];
    try reflexivity.
  rewrite <- Z.negb_even; destruct (Z.even a); reflexivity.
Qed.

Lemma shr_nonpos (r : shr_record) (e n : Z) : n <= 0 -> shr r e n = (r, e).
Proof. intros Hn; destruct n as [|p|p]; try lia; reflexivity. Qed.

Lemma normalise_spec (a f : Z) :
  0 <= a <= 2 ^ 53 -> -1074 <= f ->
  (let '(mrs, e) := shr_fexp prec emax a f loc_Exact in
   match shr_m mrs with
   | Z0 => S754_zero false
   | Zpos m => if e <=? emax - prec then S754_finite false m e else S754_infinity false
   | Zneg _ => S754_nan
   end) = encode a f.
Proof.
  intros Ha Hf; unfold encode.
  destruct (Z.ltb_spec a (2 ^ 53)) as [Hlt|Hge].
  - assert (Hd53 : Zdigits2 a <= 53).
    { destruct (Z.eq_dec a 0) as [->|Ha0]; [cbn; lia|].
      destruct (Zdigits2_spec a ltac:(lia)) as [Hd Hs].
      destruct (Z_lt_le_dec 53 (Zdigits2 a)) as [Hgt|]; [|lia].
      assert (2 ^ 53 <= 2 ^ (Zdigits2 a - 1)) by (apply Z.pow_le_mono_r; lia); lia. }
    unfold shr_fexp, fexp, SpecFloat.emin.
    change (3 - emax - prec) with (-1074); change prec with 53.
    rewrite shr_nonpos by lia.
    cbn [shr_record_of_loc shr_m]; change (emax - 53) with 971.
    destruct a as [|pa|pa]; try lia; reflexivity.
  - assert (Ha53 : a = 2 ^ 53) by lia; subst a.
    unfold shr_fexp, fexp, SpecFloat.emin.
    change (3 - emax - prec) with (-1074); change prec with 53.
    change (Zdigits2 (2 ^ 53)) with 54.
    replace (Z.max (54 + f - 53) (-1074) - f) with 1 by lia.
    cbn; change (emax - 53) with 971; rewrite (Z.add_comm f 1).
    reflexivity.
Qed.

Lemma fexp_spec (z : Z) : fexp prec emax z = Z.max (z - 53) (-1074).
Proof. reflexivity. Qed.

Lemma div_pow2_bound (x d n : Z) :
  0 <= x < 2 ^ d -> 0 <= n -> d - 53 <= n -> 0 <= x / 2 ^ n < 2 ^ 53.
Proof.
  intros Hx Hn Hd.
  assert (Hpow : 0 < 2 ^ n) by (apply Z.pow_pos_nonneg; lia).
  split; [apply Z.div_pos; lia|].
  apply Z.div_lt_upper_bound; [exact Hpow|].
  rewrite <- Z.pow_add_r by lia.
  destruct (Z_lt_le_dec d 0) as [Hneg|Hd0].
  - rewrite (Z.pow_neg_r 2 d) in Hx by lia; lia.
  - assert (2 ^ d <= 2 ^ (n + 53)) by (apply Z.pow_le_mono_r; lia); lia.
Qed.

(** [binary_round_aux] on a mantissa that is shifted right by at least one
    place. *)
Lemma round_aux_spec (x e : Z) (l : location) :
  0 <= x ->
  let f := fexp prec emax (Zdigits2 x + e) in
  let n := f - e in
  1 <= n ->
  binary_round_aux prec emax false x e l
  = encode (rounded (x / 2 ^ n) (Z.odd (x / 2 ^ (n - 1)))
              (negb (x mod 2 ^ (n - 1) =? 0) || inexact l)) f.
Proof.
  intros Hx f n Hn.
  unfold binary_round_aux, shr_fexp at 1; fold f; fold n.
  rewrite shr_spec by assumption.
  replace (e + n) with f by (subst n; lia).
  cbn [shr_m]; rewrite round_nearest_even_spec.
  apply normalise_spec; [|subst f; rewrite fexp_spec; lia].
  assert (Ha : 0 <= x / 2 ^ n < 2 ^ 53).
  { destruct (Z.eq_dec x 0) as [->|Hx0].
    - rewrite Z.div_0_l by (apply Z.pow_nonzero; lia); split; [lia|reflexivity].
    - destruct (Zdigits2_spec x ltac:(lia)) as [Hd Hs].
      apply (div_pow2_bound x (Zdigits2 x)); [lia|lia|].
      subst n f; rewrite fexp_spec; lia. }
  unfold rounded; destruct (_ && _); lia.
Qed.

(** ** The rounded value grows with the value rounded *)

(** The round bit and the sticky bit, read off the remainder. *)
Lemma round_bits (x n : Z) :
  0 <= x -> 1 <= n ->
  let h := 2 ^ (n - 1) in
  let rho := x mod 2 ^ n in
  0 < h /\ 2 ^ n = 2 * h /\ 0 <= rho < 2 * h /\ x = x / 2 ^ n * (2 * h) + rho /\
  Z.odd (x / h) = (h <=? rho) /\
  x mod h = (if h <=? rho then rho - h else rho).
Proof.
  intros Hx Hn h rho.
  assert (Hh : 0 < h) by (apply Z.pow_pos_nonneg; lia).
  assert (Hpow : 2 ^ n = 2 * h).
  { subst h; replace n with (Z.succ (n - 1)) at 1 by lia; apply Z.pow_succ_r; lia. }
  pose proof (Z.mod_pos_bound x (2 ^ n) ltac:(lia)) as Hrho; fold rho in Hrho.
  pose proof (Z.div_mod x (2 ^ n) ltac:(lia)) as Hdm; fold rho in Hdm.
  rewrite Hpow in Hrho, Hdm.
  split; [exact Hh|split; [exact Hpow|split; [exact Hrho|split; [rewrite Hpow at 1; lia|]]]].
  assert (Hx' : x = (2 * (x / 2 ^ n) + (if h <=? rho then 1 else 0)) * h
                    + (if h <=? rho then rho - h else rho)).
  { rewrite Hpow; destruct (Z.leb_spec h rho); lia. }
  assert (Hr : 0 <= (if h <=? rho then rho - h else rho) < h)
    by (destruct (Z.leb_spec h rho); lia).
  assert (Hq : x / h = 2 * (x / 2 ^ n) + (if h <=? rho then 1 else 0)).
  { symmetry; apply (Z.div_unique x h _ (if h <=? rho then rho - h else rho)); [lia|].
    rewrite Hx' at 1; ring. }
  split.
  - rewrite Hq; destruct (h <=? rho).
    + rewrite Z.add_comm, Z.odd_add_mul_2; reflexivity.
    + rewrite Z.add_0_r, Z.odd_mul; reflexivity.
  - symmetry; apply (Z.mod_unique x h (2 * (x / 2 ^ n) + (if h <=? rho then 1 else 0)));
      [lia|].
    rewrite Hx' at 1; ring.
Qed.

Lemma rounded_bounds (a : Z) (r s : bool) : a <= rounded a r s <= a + 1.
Proof. unfold rounded; destruct (_ && _); lia. Qed.

(** Rounding two values that share the shift [n]. *)
Lemma rounded_mono_same_shift (x1 x2 n : Z) (i1 i2 : bool) :
  0 <= x1 -> 1 <= n ->
  x1 < x2 \/ (x1 = x2 /\ (i1 = true -> i2 = true)) ->
  let a1 := x1 / 2 ^ n in
  let a2 := x2 / 2 ^ n in
  rounded a1 (Z.odd (x1 / 2 ^ (n - 1))) (negb (x1 mod 2 ^ (n - 1) =? 0) || i1)
  <= rounded a2 (Z.odd (x2 / 2 ^ (n - 1))) (negb (x2 mod 2 ^ (n - 1) =? 0) || i2).
Proof.
  intros Hx1 Hn Hle a1 a2.
  assert (Hx2 : 0 <= x2) by lia.
  destruct (round_bits x1 n Hx1 Hn) as [Hh [Hpow [Hrho1 [Hd1 [Hr1 Hs1]]]]].
  destruct (round_bits x2 n Hx2 Hn) as [_ [_ [Hrho2 [Hd2 [Hr2 Hs2]]]]].
  fold a1 in Hd1; fold a2 in Hd2.
  set (h := 2 ^ (n - 1)) in *.
  set (rho1 := x1 mod 2 ^ n) in *; set (rho2 := x2 mod 2 ^ n) in *.
  rewrite Hr1, Hs1, Hr2, Hs2.
  assert (Ha : a1 <= a2) by (apply Z.div_le_mono; lia).
  pose proof (rounded_bounds a1 (h <=? rho1)
                (negb ((if h <=? rho1 then rho1 - h else rho1) =? 0) || i1)) as Hb1.
  pose proof (rounded_bounds a2 (h <=? rho2)
                (negb ((if h <=? rho2 then rho2 - h else rho2) =? 0) || i2)) as Hb2.
  destruct (Z.eq_dec a1 a2) as [Heq|Hne]; [|lia].
  assert (Hrho : rho1 <= rho2) by nia.
  assert (Hsame : rho1 = rho2 -> i1 = true -> i2 = true).
  { intros Hr; destruct Hle as [Hlt|[_ Hi]]; [nia|exact Hi]. }
  clear Hb1 Hb2; unfold rounded; rewrite <- Heq.
  destruct (Z.leb_spec h rho1) as [H1|H1];
    destruct (Z.leb_spec h rho2) as [H2|H2];
    destruct (Z.odd a1);
    destruct (Z.eqb_spec (rho1 - h) 0) as [E1|E1];
    destruct (Z.eqb_spec (rho2 - h) 0) as [E2|E2];
    destruct (Z.eqb_spec rho1 0) as [F1|F1];
    destruct (Z.eqb_spec rho2 0) as [F2|F2];
    destruct i1; destruct i2; cbn [negb andb orb]; try lia;
    exfalso; assert (Hr : rho1 = rho2) by lia; specialize (Hsame Hr eq_refl); discriminate.
Qed.

Section Fine.
(** A scale below the exponent of every double: at this scale every
    mantissa is shifted right by at least one place. *)
Variable E0 : Z.
Hypothesis HE0 : E0 < -1074.

Lemma fine_shift (x : Z) :
  0 <= x ->
  let n := fexp prec emax (Zdigits2 x + E0) - E0 in
  1 <= n /\ Zdigits2 x - 53 <= n /\ -1074 - E0 <= n /\
  (n = Zdigits2 x - 53 \/ n = -1074 - E0).
Proof. intros Hx n; subst n; rewrite fexp_spec; lia. Qed.

(** The shape of the rounded mantissa: at most [2^53], and at least [2^52]
    above the least exponent. *)
Lemma fine_shape (x : Z) (r s : bool) :
  0 <= x ->
  let f := fexp prec emax (Zdigits2 x + E0) in
  let a := rounded (x / 2 ^ (f - E0)) r s in
  0 <= a <= 2 ^ 53 /\ (-1074 < f -> 2 ^ 52 <= a).
Proof.
  intros Hx f a.
  destruct (fine_shift x Hx) as [Hn [Hd [_ Hcase]]]; fold f in Hn, Hd, Hcase.
  pose proof (rounded_bounds (x / 2 ^ (f - E0)) r s) as Hb; fold a in Hb.
  assert (Hpow : 0 < 2 ^ (f - E0)) by (apply Z.pow_pos_nonneg; lia).
  assert (Ha : 0 <= x / 2 ^ (f - E0) < 2 ^ 53).
  { destruct (Z.eq_dec x 0) as [->|Hx0].
    - rewrite Z.div_0_l by lia; split; [lia|reflexivity].
    - destruct (Zdigits2_spec x ltac:(lia)) as [Hdp Hs].
      apply (div_pow2_bound x (Zdigits2 x)); lia. }
  split; [lia|].
  intros Hf.
  assert (Hfd : f - E0 = Zdigits2 x - 53) by (subst f; rewrite fexp_spec in *; lia).
  assert (Hx0 : 0 < x).
  { destruct (Z.eq_dec x 0) as [->|]; [cbn in Hfd; lia|lia]. }
  destruct (Zdigits2_spec x Hx0) as [Hdp Hs].
  assert (2 ^ 52 <= x / 2 ^ (f - E0)); [|lia].
  apply Z.div_le_lower_bound; [exact Hpow|].
  rewrite <- Z.pow_add_r by lia.
  replace (f - E0 + 52) with (Zdigits2 x - 1) by lia; lia.
Qed.

(** The rounded value, in units of [2^E0], grows with the value rounded. *)
Lemma fine_value_mono (x1 x2 : Z) (i1 i2 : bool) :
  0 <= x1 ->
  x1 < x2 \/ (x1 = x2 /\ (i1 = true -> i2 = true)) ->
  let n1 := fexp prec emax (Zdigits2 x1 + E0) - E0 in
  let n2 := fexp prec emax (Zdigits2 x2 + E0) - E0 in
  rounded (x1 / 2 ^ n1) (Z.odd (x1 / 2 ^ (n1 - 1))) (negb (x1 mod 2 ^ (n1 - 1) =? 0) || i1)
  * 2 ^ n1
  <= rounded (x2 / 2 ^ n2) (Z.odd (x2 / 2 ^ (n2 - 1))) (negb (x2 mod 2 ^ (n2 - 1) =? 0) || i2)
     * 2 ^ n2.
Proof.
  intros Hx1 Hle n1 n2.
  assert (Hx2 : 0 <= x2) by lia.
  destruct (fine_shift x1 Hx1) as [Hn1 [Hd1 [Hm1 Hc1]]]; fold n1 in Hn1, Hd1, Hm1, Hc1.
  destruct (fine_shift x2 Hx2) as [Hn2 [Hd2 [Hm2 Hc2]]]; fold n2 in Hn2, Hd2, Hm2, Hc2.
  pose proof (Zdigits2_mono x1 x2 ltac:(lia)) as Hd.
  assert (Hn : n1 <= n2) by (subst n1 n2; rewrite !fexp_spec; lia).
  assert (Hp1 : 0 < 2 ^ n1) by (apply Z.pow_pos_nonneg; lia).
  assert (Hp2 : 0 < 2 ^ n2) by (apply Z.pow_pos_nonneg; lia).
  destruct (Z.eq_dec n1 n2) as [Heq|Hne].
  - rewrite <- Heq.
    apply Z.mul_le_mono_nonneg_r; [lia|].
    apply rounded_mono_same_shift; assumption.
  - (* the second value lies in a higher binade *)
    assert (Hnorm : n2 = Zdigits2 x2 - 53) by lia.
    destruct (fine_shape x2 (Z.odd (x2 / 2 ^ (n2 - 1)))
                (negb (x2 mod 2 ^ (n2 - 1) =? 0) || i2) Hx2) as [_ Hlow].
    fold n2 in Hlow.
    assert (H52 : 2 ^ 52 <= rounded (x2 / 2 ^ n2) (Z.odd (x2 / 2 ^ (n2 - 1)))
                               (negb (x2 mod 2 ^ (n2 - 1) =? 0) || i2))
      by (apply Hlow; subst n2; lia).
    pose proof (rounded_bounds (x1 / 2 ^ n1) (Z.odd (x1 / 2 ^ (n1 - 1)))
                  (negb (x1 mod 2 ^ (n1 - 1) =? 0) || i1)) as Hb1.
    assert (Hupper : (x1 / 2 ^ n1 + 1) * 2 ^ n1 <= 2 ^ (n2 + 52)).
    { destruct (Z.eq_dec x1 0) as [->|Hx10].
      - rewrite Z.div_0_l by lia.
        assert (2 ^ n1 <= 2 ^ (n2 + 52)) by (apply Z.pow_le_mono_r; lia); lia.
      - destruct (Zdigits2_spec x1 ltac:(lia)) as [Hdp Hs].
        destruct (Z_le_gt_dec n1 (Zdigits2 x1)) as [Hin|Hout].
        + assert (Hq : x1 / 2 ^ n1 < 2 ^ (Zdigits2 x1 - n1)).
          { apply Z.div_lt_upper_bound; [exact Hp1|].
            rewrite <- Z.pow_add_r by lia.
            replace (n1 + (Zdigits2 x1 - n1)) with (Zdigits2 x1) by lia; lia. }
          assert (Hsplit : 2 ^ (n2 + 52) = 2 ^ (n2 + 52 - n1) * 2 ^ n1).
          { rewrite <- Z.pow_add_r by lia; f_equal; lia. }
          rewrite Hsplit; apply Z.mul_le_mono_nonneg_r; [lia|].
          assert (2 ^ (Zdigits2 x1 - n1) <= 2 ^ (n2 + 52 - n1))
            by (apply Z.pow_le_mono_r; lia).
          lia.
        + rewrite Z.div_small by (split; [lia|];
            apply (Z.lt_le_trans _ (2 ^ Zdigits2 x1)); [lia|apply Z.pow_le_mono_r; lia]).
          assert (2 ^ n1 <= 2 ^ (n2 + 52)) by (apply Z.pow_le_mono_r; lia); lia. }
    rewrite Z.pow_add_r in Hupper by lia.
    nia.
Qed.

End Fine.

(** ** The order of the doubles that rounding gives *)

(** Two mantissas of canonical shape compare as their values do. *)
Lemma scale_compare (E0 m1 g1 m2 g2 : Z) :
  E0 <= g1 -> E0 <= g2 -> -1074 <= g2 ->
  0 < m1 -> m2 < 2 ^ 53 -> (-1074 < g1 -> 2 ^ 52 <= m1) ->
  m1 * 2 ^ (g1 - E0) <= m2 * 2 ^ (g2 - E0) ->
  g1 < g2 \/ (g1 = g2 /\ m1 <= m2).
Proof.
  intros H1 H2 Hg2 Hm1 Hm2 Hnormal Hle.
  assert (Hp2 : 0 < 2 ^ (g2 - E0)) by (apply Z.pow_pos_nonneg; lia).
  destruct (Z.lt_trichotomy g1 g2) as [Hlt|[Heq|Hgt]]; [left; exact Hlt| |].
  - right; split; [exact Heq|]; subst g2; nia.
  - exfalso.
    assert (Hsplit : 2 ^ (g1 - E0) = 2 ^ (g1 - g2) * 2 ^ (g2 - E0)).
    { rewrite <- Z.pow_add_r by lia; f_equal; lia. }
    assert (Htwo : 2 <= 2 ^ (g1 - g2)).
    { change 2 with (2 ^ 1) at 1; apply Z.pow_le_mono_r; lia. }
    specialize (Hnormal ltac:(lia)).
    rewrite Hsplit in Hle.
    assert (2 ^ 53 = 2 * 2 ^ 52) by reflexivity.
    nia.
Qed.

Lemma encode_le (E0 a1 f1 a2 f2 : Z) :
  E0 <= f1 -> E0 <= f2 -> -1074 <= f1 -> -1074 <= f2 ->
  0 <= a1 <= 2 ^ 53 -> 0 <= a2 <= 2 ^ 53 ->
  (-1074 < f1 -> 2 ^ 52 <= a1) -> (-1074 < f2 -> 2 ^ 52 <= a2) ->
  a1 * 2 ^ (f1 - E0) <= a2 * 2 ^ (f2 - E0) ->
  SFleb (encode a1 f1) (encode a2 f2) = true.
Proof.
  intros H1 H2 Hf1 Hf2 Ha1 Ha2 Hn1 Hn2 Hle.
  assert (Hp1 : 0 < 2 ^ (f1 - E0)) by (apply Z.pow_pos_nonneg; lia).
  assert (Hp2 : 0 < 2 ^ (f2 - E0)) by (apply Z.pow_pos_nonneg; lia).
  unfold encode.
  destruct (Z.eqb_spec a1 0) as [Hz1|Hz1].
  { destruct (a2 =? 0); [reflexivity|].
    destruct (a2 <? 2 ^ 53); [destruct (f2 <=? 971)|destruct (f2 + 1 <=? 971)]; reflexivity. }
  destruct (Z.eqb_spec a2 0) as [Hz2|Hz2]; [subst a2; nia|].
  (* the normalised mantissas and exponents *)
  set (m1 := if a1 <? 2 ^ 53 then a1 else 2 ^ 52).
  set (g1 := if a1 <? 2 ^ 53 then f1 else f1 + 1).
  set (m2 := if a2 <? 2 ^ 53 then a2 else 2 ^ 52).
  set (g2 := if a2 <? 2 ^ 53 then f2 else f2 + 1).
  assert (Hv1 : m1 * 2 ^ (g1 - E0) = a1 * 2 ^ (f1 - E0) /\ 0 < m1 < 2 ^ 53 /\
                (-1074 < g1 -> 2 ^ 52 <= m1) /\ f1 <= g1).
  { subst m1 g1; destruct (Z.ltb_spec a1 (2 ^ 53)) as [Hlt|Hge].
    - repeat split; try lia.
    - assert (a1 = 2 ^ 53) by lia; subst a1.
      replace (f1 + 1 - E0) with (Z.succ (f1 - E0)) by lia.
      rewrite Z.pow_succ_r by lia.
      repeat split; try lia; reflexivity. }
  assert (Hv2 : m2 * 2 ^ (g2 - E0) = a2 * 2 ^ (f2 - E0) /\ 0 < m2 < 2 ^ 53 /\
                (-1074 < g2 -> 2 ^ 52 <= m2) /\ f2 <= g2).
  { subst m2 g2; destruct (Z.ltb_spec a2 (2 ^ 53)) as [Hlt|Hge].
    - repeat split; try lia.
    - assert (a2 = 2 ^ 53) by lia; subst a2.
      replace (f2 + 1 - E0) with (Z.succ (f2 - E0)) by lia.
      rewrite Z.pow_succ_r by lia.
      repeat split; try lia; reflexivity. }
  destruct Hv1 as [Hv1 [Hm1 [Hs1 Hg1]]]; destruct Hv2 as [Hv2 [Hm2 [Hs2 Hg2]]].
  assert (Hcmp : g1 < g2 \/ (g1 = g2 /\ m1 <= m2)).
  { apply (scale_compare E0); try lia. }
  assert (Henc1 : (if a1 <? 2 ^ 53
                   then if f1 <=? 971 then S754_finite false (Z.to_pos a1) f1
                        else S754_infinity false
                   else if f1 + 1 <=? 971 then S754_finite false (Z.to_pos (2 ^ 52)) (f1 + 1)
                        else S754_infinity false)
                  = if g1 <=? 971 then S754_finite false (Z.to_pos m1) g1
                    else S754_infinity false)
    by (subst m1 g1; destruct (a1 <? 2 ^ 53); reflexivity).
  assert (Henc2 : (if a2 <? 2 ^ 53
                   then if f2 <=? 971 then S754_finite false (Z.to_pos a2) f2
                        else S754_infinity false
                   else if f2 + 1 <=? 971 then S754_finite false (Z.to_pos (2 ^ 52)) (f2 + 1)
                        else S754_infinity false)
                  = if g2 <=? 971 then S754_finite false (Z.to_pos m2) g2
                    else S754_infinity false)
    by (subst m2 g2; destruct (a2 <? 2 ^ 53); reflexivity).
  rewrite Henc1, Henc2.
  destruct (Z.leb_spec g2 971) as [Hfin2|Hinf2].
  - destruct (Z.leb_spec g1 971) as [Hfin1|Hinf1]; [|lia].
    unfold SFleb, SFcompare.
    destruct Hcmp as [Hlt|[Heq Hm]].
    + rewrite (proj2 (Z.compare_lt_iff g1 g2) Hlt); reflexivity.
    + rewrite (proj2 (Z.compare_eq_iff g1 g2) Heq).
      change (Pos.compare_cont Eq (Z.to_pos m1) (Z.to_pos m2))
        with (Pos.compare (Z.to_pos m1) (Z.to_pos m2)).
      destruct (Pos.compare_spec (Z.to_pos m1) (Z.to_pos m2)) as [E|E|E]; try reflexivity.
      exfalso; lia.
  - destruct (g1 <=? 971); reflexivity.
Qed.

(** Rounding to nearest is monotone: at a scale [E0] below every double,
    the greater mantissa (or the same with a later location) rounds to the
    greater double. *)
Lemma round_fine_mono (E0 x1 x2 : Z) (l1 l2 : location) :
  E0 < -1074 -> 0 <= x1 ->
  x1 < x2 \/ (x1 = x2 /\ (inexact l1 = true -> inexact l2 = true)) ->
  SFleb (binary_round_aux prec emax false x1 E0 l1)
        (binary_round_aux prec emax false x2 E0 l2) = true.
Proof.
  intros HE0 Hx1 Hle.
  assert (Hx2 : 0 <= x2) by lia.
  destruct (fine_shift E0 HE0 x1 Hx1) as [Hn1 _].
  destruct (fine_shift E0 HE0 x2 Hx2) as [Hn2 _].
  rewrite (round_aux_spec x1 E0 l1 Hx1 Hn1), (round_aux_spec x2 E0 l2 Hx2 Hn2).
  destruct (fine_shape E0 HE0 x1 (Z.odd (x1 / 2 ^ (fexp prec emax (Zdigits2 x1 + E0) - E0 - 1)))
              (negb (x1 mod 2 ^ (fexp prec emax (Zdigits2 x1 + E0) - E0 - 1) =? 0) || inexact l1)
              Hx1) as [Hb1 Hs1].
  destruct (fine_shape E0 HE0 x2 (Z.odd (x2 / 2 ^ (fexp prec emax (Zdigits2 x2 + E0) - E0 - 1)))
              (negb (x2 mod 2 ^ (fexp prec emax (Zdigits2 x2 + E0) - E0 - 1) =? 0) || inexact l2)
              Hx2) as [Hb2 Hs2].
  apply (encode_le E0); try assumption; try (rewrite fexp_spec; lia).
  apply (fine_value_mono E0 HE0 x1 x2 (inexact l1) (inexact l2) Hx1 Hle).
Qed.

(** ** The same value at two scales *)

Lemma shr_nat (r : shr_record) (e n : Z) :
  0 <= n -> shr r e n = (Nat.iter (Z.to_nat n) shr_1 r, e + n).
Proof.
  intros Hn; destruct n as [|p|p]; try lia.
  - cbn; rewrite Z.add_0_r; reflexivity.
  - unfold shr; rewrite iter_pos_nat; reflexivity.
Qed.

Lemma Zdigits2_shift (x X t : Z) :
  0 < x -> 0 <= t -> x * 2 ^ t <= X < (x + 1) * 2 ^ t -> Zdigits2 X = Zdigits2 x + t.
Proof.
  intros Hx Ht HX.
  destruct (Zdigits2_spec x Hx) as [Hd Hs].
  assert (Hp : 0 < 2 ^ t) by (apply Z.pow_pos_nonneg; lia).
  apply Zdigits2_unique; [|nia].
  replace (Zdigits2 x + t - 1) with (Zdigits2 x - 1 + t) by lia.
  rewrite !Z.pow_add_r by lia; nia.
Qed.

(** A mantissa at the exponent [e], and the mantissa of the same value at
    the finer exponent [E0], round to the same double. *)
Lemma round_aux_coarsen (x X e E0 : Z) (l lX : location) (t : nat) :
  e = E0 + Z.of_nat t ->
  0 <= x -> x * 2 ^ Z.of_nat t <= X < (x + 1) * 2 ^ Z.of_nat t ->
  Nat.iter t shr_1 (shr_record_of_loc X lX) = shr_record_of_loc x l ->
  e <= fexp prec emax (Zdigits2 x + e) ->
  binary_round_aux prec emax false x e l = binary_round_aux prec emax false X E0 lX.
Proof.
  intros He Hx HX Hiter Hn.
  assert (Hdigits : fexp prec emax (Zdigits2 X + E0) = fexp prec emax (Zdigits2 x + e)).
  { destruct (Z.eq_dec x 0) as [->|Hx0].
    - cbn [Zdigits2] in *; rewrite fexp_spec in Hn.
      rewrite Z.add_0_l; rewrite !fexp_spec.
      assert (HXd : Zdigits2 X <= Z.of_nat t).
      { destruct (Z.eq_dec X 0) as [->|HX0]; [cbn; lia|].
        destruct (Zdigits2_spec X ltac:(lia)) as [Hd Hs].
        destruct (Z_lt_le_dec (Z.of_nat t) (Zdigits2 X)) as [Hgt|]; [|lia].
        assert (2 ^ Z.of_nat t <= 2 ^ (Zdigits2 X - 1)) by (apply Z.pow_le_mono_r; lia); lia. }
      lia.
    - rewrite (Zdigits2_shift x X (Z.of_nat t)) by lia.
      f_equal; lia. }
  unfold binary_round_aux, shr_fexp; rewrite Hdigits.
  set (f := fexp prec emax (Zdigits2 x + e)) in *.
  rewrite (shr_nat _ e (f - e)) by lia.
  rewrite (shr_nat _ E0 (f - E0)) by lia.
  replace (Z.to_nat (f - E0)) with (Z.to_nat (f - e) + t)%nat by lia.
  rewrite Nat.iter_add, Hiter.
  replace (E0 + (f - E0)) with (e + (f - e)) by lia.
  reflexivity.
Qed.

(** ** Canonical mantissas *)

Lemma bounded_spec (m : positive) (e : Z) :
  SpecFloat.bounded prec emax m e = true ->
  -1074 <= e <= 971 /\ Z.pos m < 2 ^ 53 /\ (-1074 < e -> 2 ^ 52 <= Z.pos m) /\
  Zdigits2 (Z.pos m) <= 53 /\ (-1074 < e -> Zdigits2 (Z.pos m) = 53).
Proof.
  unfold SpecFloat.bounded, canonical_mantissa; intros Hb.
  apply andb_true_iff in Hb; destruct Hb as [Hc He].
  apply Z.eqb_eq in Hc; apply Z.leb_le in He.
  rewrite fexp_spec in Hc; change (emax - prec) with 971 in He.
  destruct (Zdigits2_spec (Z.pos m) ltac:(lia)) as [Hd Hs].
  change (Z.pos (digits2_pos m)) with (Zdigits2 (Z.pos m)) in Hc.
  assert (Hd53 : Zdigits2 (Z.pos m) <= 53) by lia.
  assert (Hlt : Z.pos m < 2 ^ 53).
  { apply (Z.lt_le_trans _ (2 ^ Zdigits2 (Z.pos m))); [lia|apply Z.pow_le_mono_r; lia]. }
  repeat split; try lia.
  - intros Hn; assert (Heq : Zdigits2 (Z.pos m) = 53) by lia.
    rewrite Heq in Hs; exact (proj1 Hs).
Qed.

(** The order of two positive doubles is the order of their values. *)
Lemma canonical_le_value (m1 m2 : positive) (e1 e2 : Z) :
  SpecFloat.bounded prec emax m1 e1 = true -> SpecFloat.bounded prec emax m2 e2 = true ->
  SFleb (S754_finite false m1 e1) (S754_finite false m2 e2) = true ->
  Z.pos m1 * 2 ^ (e1 + 1074) <= Z.pos m2 * 2 ^ (e2 + 1074).
Proof.
  intros Hb1 Hb2 Hle.
  destruct (bounded_spec m1 e1 Hb1) as [He1 [Hm1 [Hn1 _]]].
  destruct (bounded_spec m2 e2 Hb2) as [He2 [Hm2 [Hn2 _]]].
  unfold SFleb, SFcompare in Hle.
  assert (Hp1 : 0 < 2 ^ (e1 + 1074)) by (apply Z.pow_pos_nonneg; lia).
  destruct (Z.compare_spec e1 e2) as [Heq|Hlt|Hgt]; [| |discriminate Hle].
  - subst e2.
    change (Pos.compare_cont Eq m1 m2) with (Pos.compare m1 m2) in Hle.
    destruct (Pos.compare_spec m1 m2) as [E|E|E]; try discriminate Hle; nia.
  - assert (Hsplit : 2 ^ (e2 + 1074) = 2 ^ (e2 - e1) * 2 ^ (e1 + 1074)).
    { rewrite <- Z.pow_add_r by lia; f_equal; lia. }
    assert (Htwo : 2 <= 2 ^ (e2 - e1)).
    { change 2 with (2 ^ 1) at 1; apply Z.pow_le_mono_r; lia. }
    specialize (Hn2 ltac:(lia)).
    assert (2 ^ 53 = 2 * 2 ^ 52) by reflexivity.
    rewrite Hsplit; nia.
Qed.

(** ** Products *)

Lemma iter_shr_exact (m : Z) (t : nat) :
  0 <= m ->
  Nat.iter t shr_1 (shr_record_of_loc (m * 2 ^ Z.of_nat t) loc_Exact)
  = shr_record_of_loc m loc_Exact.
Proof.
  intros Hm; destruct t as [|t].
  - cbn [Nat.iter]; change (2 ^ Z.of_nat 0) with 1; rewrite Z.mul_1_r; reflexivity.
  - cbn [shr_record_of_loc].
    assert (Hp : 0 < 2 ^ Z.of_nat t) by (apply Z.pow_pos_nonneg; lia).
    rewrite shr_n_spec by (apply Z.mul_nonneg_nonneg; [lia|apply Z.pow_nonneg; lia]).
    assert (Hsplit : 2 ^ Z.of_nat (S t) = 2 * 2 ^ Z.of_nat t)
      by (rewrite Nat2Z.inj_succ, Z.pow_succ_r by lia; reflexivity).
    f_equal.
    + apply Z.div_mul; apply Z.pow_nonzero; lia.
    + rewrite Hsplit, Z.mul_assoc, Z.div_mul by lia.
      rewrite Z.odd_mul; apply andb_false_r.
    + rewrite Hsplit, Z.mul_assoc, Z.mod_mul by lia; reflexivity.
Qed.

Lemma Zdigits2_mul (m1 m2 : Z) :
  0 < m1 -> 0 < m2 -> Zdigits2 m1 + Zdigits2 m2 - 1 <= Zdigits2 (m1 * m2).
Proof.
  intros H1 H2.
  destruct (Zdigits2_spec m1 H1) as [Hd1 Hs1].
  destruct (Zdigits2_spec m2 H2) as [Hd2 Hs2].
  destruct (Zdigits2_spec (m1 * m2) ltac:(nia)) as [Hd Hs].
  destruct (Z_lt_le_dec (Zdigits2 (m1 * m2)) (Zdigits2 m1 + Zdigits2 m2 - 1)) as [Hlt|]; [|lia].
  exfalso.
  assert (Hlow : 2 ^ (Zdigits2 m1 - 1) * 2 ^ (Zdigits2 m2 - 1) <= m1 * m2) by nia.
  rewrite <- Z.pow_add_r in Hlow by lia.
  assert (2 ^ Zdigits2 (m1 * m2) <= 2 ^ (Zdigits2 m1 - 1 + (Zdigits2 m2 - 1)))
    by (apply Z.pow_le_mono_r; lia).
  lia.
Qed.

(** The product of two positive doubles is the rounding of the product of
    their mantissas, read at a fine scale. *)
Lemma mul_fine (E0 : Z) (m1 m2 : positive) (e1 e2 : Z) :
  E0 <= -2149 ->
  SpecFloat.bounded prec emax m1 e1 = true -> SpecFloat.bounded prec emax m2 e2 = true ->
  SFmul prec emax (S754_finite false m1 e1) (S754_finite false m2 e2)
  = binary_round_aux prec emax false (Z.pos m1 * Z.pos m2 * 2 ^ (e1 + e2 - E0)) E0 loc_Exact.
Proof.
  intros HE0 Hb1 Hb2.
  destruct (bounded_spec m1 e1 Hb1) as [He1 [Hm1 [Hn1 [Hd1 Hf1]]]].
  destruct (bounded_spec m2 e2 Hb2) as [He2 [Hm2 [Hn2 [Hd2 Hf2]]]].
  cbn [SFmul xorb]; rewrite Pos2Z.inj_mul.
  assert (Ht : e1 + e2 - E0 = Z.of_nat (Z.to_nat (e1 + e2 - E0))) by lia.
  rewrite Ht.
  assert (Hp : 0 < 2 ^ Z.of_nat (Z.to_nat (e1 + e2 - E0))) by (apply Z.pow_pos_nonneg; lia).
  apply (round_aux_coarsen _ _ _ E0 _ _ (Z.to_nat (e1 + e2 - E0))); try lia.
  - apply iter_shr_exact; lia.
  - pose proof (Zdigits2_mul (Z.pos m1) (Z.pos m2) ltac:(lia) ltac:(lia)) as Hd.
    destruct (Zdigits2_spec (Z.pos m1) ltac:(lia)) as [Hp1 _].
    destruct (Zdigits2_spec (Z.pos m2) ltac:(lia)) as [Hp2 _].
    rewrite fexp_spec.
    destruct (Z_lt_le_dec (-1074) e1) as [Hn|Hs]; [rewrite (Hf1 Hn) in Hd; lia|].
    destruct (Z_lt_le_dec (-1074) e2) as [Hn'|Hs']; [rewrite (Hf2 Hn') in Hd; lia|].
    lia.
Qed.

(** Multiplication by a positive double is monotone. *)
Lemma mul_le_core (m1 m2 m : positive) (e1 e2 e : Z) :
  SpecFloat.bounded prec emax m1 e1 = true -> SpecFloat.bounded prec emax m2 e2 = true ->
  SpecFloat.bounded prec emax m e = true ->
  SFleb (S754_finite false m1 e1) (S754_finite false m2 e2) = true ->
  SFleb (SFmul prec emax (S754_finite false m1 e1) (S754_finite false m e))
        (SFmul prec emax (S754_finite false m2 e2) (S754_finite false m e)) = true.
Proof.
  intros Hb1 Hb2 Hb Hle.
  rewrite !(mul_fine (-2149)) by (assumption || lia).
  pose proof (canonical_le_value m1 m2 e1 e2 Hb1 Hb2 Hle) as Hv.
  destruct (bounded_spec m1 e1 Hb1) as [He1 _].
  destruct (bounded_spec m2 e2 Hb2) as [He2 _].
  destruct (bounded_spec m e Hb) as [He _].
  assert (Hs1 : 2 ^ (e1 + e - -2149) = 2 ^ (e1 + 1074) * 2 ^ (e + 1075))
    by (rewrite <- Z.pow_add_r by lia; f_equal; lia).
  assert (Hs2 : 2 ^ (e2 + e - -2149) = 2 ^ (e2 + 1074) * 2 ^ (e + 1075))
    by (rewrite <- Z.pow_add_r by lia; f_equal; lia).
  assert (Hp : 0 < 2 ^ (e + 1075)) by (apply Z.pow_pos_nonneg; lia).
  assert (Hp1 : 0 < 2 ^ (e1 + 1074)) by (apply Z.pow_pos_nonneg; lia).
  assert (HX : Z.pos m1 * Z.pos m * 2 ^ (e1 + e - -2149)
               <= Z.pos m2 * Z.pos m * 2 ^ (e2 + e - -2149)).
  { rewrite Hs1, Hs2.
    replace (Z.pos m1 * Z.pos m * (2 ^ (e1 + 1074) * 2 ^ (e + 1075)))
      with (Z.pos m1 * 2 ^ (e1 + 1074) * (Z.pos m * 2 ^ (e + 1075))) by ring.
    replace (Z.pos m2 * Z.pos m * (2 ^ (e2 + 1074) * 2 ^ (e + 1075)))
      with (Z.pos m2 * 2 ^ (e2 + 1074) * (Z.pos m * 2 ^ (e + 1075))) by ring.
    apply Z.mul_le_mono_nonneg_r; [nia|exact Hv]. }
  apply round_fine_mono; [lia|nia|].
  destruct (Z.eq_dec (Z.pos m1 * Z.pos m * 2 ^ (e1 + e - -2149))
                     (Z.pos m2 * Z.pos m * 2 ^ (e2 + e - -2149))) as [Heq|Hne].
  - right; split; [exact Heq|intros Hi; discriminate Hi].
  - left; lia.
Qed.

(** ** Quotients *)

Lemma inexact_new_location (b r : Z) : inexact (new_location b r) = negb (r =? 0).
Proof.
  unfold new_location, new_location_even, new_location_odd.
  destruct (Z.even b); destruct (r =? 0); reflexivity.
Qed.

(** Doubling the dividend is undone by one step of the right shift. *)
Lemma shr_1_quotient (a b : Z) :
  0 <= a -> 0 < b ->
  shr_1 (shr_record_of_loc ((2 * a) / b) (new_location b ((2 * a) mod b)))
  = shr_record_of_loc (a / b) (new_location b (a mod b)).
Proof.
  intros Ha Hb.
  pose proof (Z.div_mod a b ltac:(lia)) as Hdm.
  pose proof (Z.mod_pos_bound a b Hb) as Hr.
  set (q := a / b) in *; set (r := a mod b) in *.
  assert (Hq : 0 <= q) by (apply Z.div_pos; lia).
  assert (Hdouble : (2 * a) / b = 2 * q + (if b <=? 2 * r then 1 else 0) /\
                    (2 * a) mod b = (if b <=? 2 * r then 2 * r - b else 2 * r)).
  { assert (Hrem : 0 <= (if b <=? 2 * r then 2 * r - b else 2 * r) < b)
      by (destruct (Z.leb_spec b (2 * r)); lia).
    assert (Heq : 2 * a = b * (2 * q + (if b <=? 2 * r then 1 else 0))
                          + (if b <=? 2 * r then 2 * r - b else 2 * r))
      by (destruct (Z.leb_spec b (2 * r)); lia).
    split; symmetry;
      [apply (Z.div_unique_pos _ _ _ _ Hrem Heq)|apply (Z.mod_unique_pos _ _ _ _ Hrem Heq)]. }
  destruct Hdouble as [-> ->].
  assert (Hrec : forall x l, shr_record_of_loc x l
                   = Build_shr_record x (shr_r (shr_record_of_loc x l))
                       (shr_s (shr_record_of_loc x l)))
    by (intros x [|[| |]]; reflexivity).
  rewrite (Hrec (2 * q + _)), shr_1_spec by (destruct (b <=? 2 * r); lia).
  assert (Hinex : forall x l, shr_r (shr_record_of_loc x l) || shr_s (shr_record_of_loc x l)
                              = inexact l)
    by (intros x [|[| |]]; reflexivity).
  rewrite Hinex, inexact_new_location.
  assert (Hhalf : (2 * q + (if b <=? 2 * r then 1 else 0)) / 2 = q).
  { symmetry; apply (Z.div_unique_pos _ 2 q (if b <=? 2 * r then 1 else 0));
      destruct (b <=? 2 * r); lia. }
  assert (Hodd : Z.odd (2 * q + (if b <=? 2 * r then 1 else 0)) = (b <=? 2 * r)).
  { destruct (b <=? 2 * r).
    - rewrite Z.add_comm, Z.odd_add_mul_2; reflexivity.
    - rewrite Z.add_0_r, Z.odd_mul; reflexivity. }
  rewrite Hhalf, Hodd.
  unfold new_location, new_location_even, new_location_odd.
  destruct (Z.even b) eqn:Heven; cbv beta;
    destruct (Z.eqb_spec r 0) as [Hr0|Hr0].
  - rewrite Hr0; destruct (Z.leb_spec b (2 * 0)); [lia|reflexivity].
  - destruct (Z.compare_spec (2 * r) b) as [E|E|E];
      destruct (Z.leb_spec b (2 * r)); try lia;
      match goal with
      | |- context [?x =? 0] => destruct (Z.eqb_spec x 0); try lia
      end; reflexivity.
  - rewrite Hr0; destruct (Z.leb_spec b (2 * 0)); [lia|reflexivity].
  - assert (Hb2 : 2 * r <> b).
    { intros E; rewrite <- E, Z.even_mul in Heven; discriminate Heven. }
    destruct (Z.compare_spec (2 * r + 1) b) as [E|E|E];
      destruct (Z.leb_spec b (2 * r)); try lia;
      match goal with
      | |- context [?x =? 0] => destruct (Z.eqb_spec x 0); try lia
      end; reflexivity.
Qed.

Lemma iter_shr_quotient (a b : Z) (t : nat) :
  0 <= a -> 0 < b ->
  Nat.iter t shr_1
    (shr_record_of_loc ((a * 2 ^ Z.of_nat t) / b)
       (new_location b ((a * 2 ^ Z.of_nat t) mod b)))
  = shr_record_of_loc (a / b) (new_location b (a mod b)).
Proof.
  intros Ha Hb; revert a Ha; induction t as [|t IH]; intros a Ha.
  - cbn [Nat.iter]; change (2 ^ Z.of_nat 0) with 1; rewrite Z.mul_1_r; reflexivity.
  - rewrite Nat.iter_succ_r.
    assert (Hp : 0 < 2 ^ Z.of_nat t) by (apply Z.pow_pos_nonneg; lia).
    replace (a * 2 ^ Z.of_nat (S t)) with (2 * (a * 2 ^ Z.of_nat t))
      by (rewrite Nat2Z.inj_succ, Z.pow_succ_r by lia; ring).
    rewrite shr_1_quotient by (try apply Z.mul_nonneg_nonneg; lia).
    apply IH; exact Ha.
Qed.

(** What [SFdiv_core_binary] computes. *)
Lemma div_core_spec (m1 m2 : positive) (e1 e2 : Z) :
  let e' := Z.min (fexp prec emax (Zdigits2 (Z.pos m1) + e1 - (Zdigits2 (Z.pos m2) + e2)))
              (e1 - e2) in
  let a := Z.pos m1 * 2 ^ (e1 - e2 - e') in
  SFdiv_core_binary prec emax (Z.pos m1) e1 (Z.pos m2) e2
  = (a / Z.pos m2, e', new_location (Z.pos m2) (a mod Z.pos m2)).
Proof.
  intros e' a; unfold SFdiv_core_binary; fold e'.
  assert (Hs : 0 <= e1 - e2 - e') by (subst e'; lia).
  assert (Hm : match e1 - e2 - e' with
               | 0 => Z.pos m1
               | Z.pos _ => Z.shiftl (Z.pos m1) (e1 - e2 - e')
               | Z.neg _ => 0
               end = a).
  { subst a; destruct (e1 - e2 - e') as [|p|p] eqn:E; [rewrite Z.mul_1_r; reflexivity| |lia].
    apply Z.shiftl_mul_pow2; lia. }
  rewrite Hm.
  unfold Z.div, Z.modulo; destruct (Z.div_eucl a (Z.pos m2)); reflexivity.
Qed.

(** The quotient of two positive doubles is the rounding of the quotient
    of their mantissas, read at a fine scale. *)
Lemma div_fine (E0 : Z) (m1 m2 : positive) (e1 e2 : Z) :
  E0 <= -2149 ->
  SpecFloat.bounded prec emax m1 e1 = true -> SpecFloat.bounded prec emax m2 e2 = true ->
  let a := Z.pos m1 * 2 ^ (e1 - e2 - E0) in
  SFdiv prec emax (S754_finite false m1 e1) (S754_finite false m2 e2)
  = binary_round_aux prec emax false (a / Z.pos m2) E0
      (new_location (Z.pos m2) (a mod Z.pos m2)).
Proof.
  intros HE0 Hb1 Hb2 a.
  destruct (bounded_spec m1 e1 Hb1) as [He1 [Hm1 [Hn1 [Hd1 Hf1]]]].
  destruct (bounded_spec m2 e2 Hb2) as [He2 [Hm2 [Hn2 [Hd2 Hf2]]]].
  destruct (Zdigits2_spec (Z.pos m1) ltac:(lia)) as [Hp1 Hs1].
  destruct (Zdigits2_spec (Z.pos m2) ltac:(lia)) as [Hp2 Hs2].
  cbn [SFdiv xorb]; rewrite div_core_spec.
  set (d1 := Zdigits2 (Z.pos m1)) in *; set (d2 := Zdigits2 (Z.pos m2)) in *.
  set (e' := Z.min (fexp prec emax (d1 + e1 - (d2 + e2))) (e1 - e2)).
  assert (He' : -1074 <= fexp prec emax (d1 + e1 - (d2 + e2))) by (rewrite fexp_spec; lia).
  assert (Hs : 0 <= e1 - e2 - e') by (subst e'; lia).
  assert (Ht : 0 <= e' - E0) by (subst e'; lia).
  set (c := Z.pos m1 * 2 ^ (e1 - e2 - e')).
  assert (Hc : 0 <= c) by (subst c; apply Z.mul_nonneg_nonneg; [lia|apply Z.pow_nonneg; lia]).
  assert (Ha : a = c * 2 ^ Z.of_nat (Z.to_nat (e' - E0))).
  { subst a c; rewrite Z2Nat.id by lia.
    rewrite <- Z.mul_assoc, <- Z.pow_add_r by lia; do 2 f_equal; lia. }
  assert (Hp : 0 < 2 ^ Z.of_nat (Z.to_nat (e' - E0))) by (apply Z.pow_pos_nonneg; lia).
  pose proof (Z.div_mod c (Z.pos m2) ltac:(lia)) as Hdm.
  pose proof (Z.mod_pos_bound c (Z.pos m2) ltac:(lia)) as Hr.
  assert (Hq : 0 <= c / Z.pos m2) by (apply Z.div_pos; lia).
  rewrite Ha.
  apply (round_aux_coarsen _ _ _ E0 _ _ (Z.to_nat (e' - E0))); try lia.
  - split.
    + apply Z.div_le_lower_bound; [lia|nia].
    + apply Z.div_lt_upper_bound; [lia|nia].
  - apply iter_shr_quotient; lia.
  - rewrite fexp_spec.
    destruct (Z_lt_le_dec (-1074) e') as [Hnormal|Hsub]; [|lia].
    assert (Hshift : d2 + 53 - d1 <= e1 - e2 - e').
    { subst e'; rewrite fexp_spec in *; lia. }
    assert (H52 : 2 ^ 52 <= c / Z.pos m2).
    { apply Z.div_le_lower_bound; [lia|].
      assert (Hlow : 2 ^ (d1 - 1) * 2 ^ (e1 - e2 - e') <= c).
      { subst c; apply Z.mul_le_mono_nonneg_r; [apply Z.pow_nonneg; lia|lia]. }
      rewrite <- Z.pow_add_r in Hlow by lia.
      assert (Hup : Z.pos m2 * 2 ^ 52 < 2 ^ d2 * 2 ^ 52)
        by (apply Z.mul_lt_mono_pos_r; [reflexivity|lia]).
      rewrite <- Z.pow_add_r in Hup by lia.
      assert (2 ^ (d2 + 52) <= 2 ^ (d1 - 1 + (e1 - e2 - e'))) by (apply Z.pow_le_mono_r; lia).
      lia. }
    pose proof (Zdigits2_mono (2 ^ 52) (c / Z.pos m2) ltac:(lia)) as Hd.
    change (Zdigits2 (2 ^ 52)) with 53 in Hd; lia.
Qed.

(** Two fractions with positive terms: the quotients, and whether they are
    exact, follow the cross product. *)
Lemma quotient_le (a1 b1 a2 b2 : Z) :
  0 <= a1 -> 0 < b1 -> 0 <= a2 -> 0 < b2 -> a2 * b1 <= a1 * b2 ->
  a2 / b2 < a1 / b1 \/
  (a2 / b2 = a1 / b1 /\ (negb (a2 mod b2 =? 0) = true -> negb (a1 mod b1 =? 0) = true)).
Proof.
  intros Ha1 Hb1 Ha2 Hb2 Hcross.
  pose proof (Z.div_mod a1 b1 ltac:(lia)) as Hd1.
  pose proof (Z.mod_pos_bound a1 b1 Hb1) as Hr1.
  pose proof (Z.div_mod a2 b2 ltac:(lia)) as Hd2.
  pose proof (Z.mod_pos_bound a2 b2 Hb2) as Hr2.
  assert (Hle : a2 / b2 <= a1 / b1).
  { apply Z.div_le_lower_bound; [exact Hb1|].
    assert (Hq2 : 0 <= a2 / b2) by (apply Z.div_pos; lia).
    apply (Z.mul_le_mono_pos_r _ _ b2); [exact Hb2|]; nia. }
  destruct (Z.eq_dec (a2 / b2) (a1 / b1)) as [Heq|Hne]; [right|left; lia].
  split; [exact Heq|].
  destruct (Z.eqb_spec (a2 mod b2) 0) as [E2|E2]; [intros H; discriminate H|intros _].
  destruct (Z.eqb_spec (a1 mod b1) 0) as [E1|E1]; [|reflexivity].
  exfalso; rewrite Heq in Hd2; nia.
Qed.

(** Division of a positive double by a positive double is antitone in the
    divisor. *)
Lemma div_le_core (m m1 m2 : positive) (e e1 e2 : Z) :
  SpecFloat.bounded prec emax m e = true ->
  SpecFloat.bounded prec emax m1 e1 = true -> SpecFloat.bounded prec emax m2 e2 = true ->
  SFleb (S754_finite false m1 e1) (S754_finite false m2 e2) = true ->
  SFleb (SFdiv prec emax (S754_finite false m e) (S754_finite false m2 e2))
        (SFdiv prec emax (S754_finite false m e) (S754_finite false m1 e1)) = true.
Proof.
  intros Hb Hb1 Hb2 Hle.
  rewrite !(div_fine (-2149)) by (assumption || lia).
  pose proof (canonical_le_value m1 m2 e1 e2 Hb1 Hb2 Hle) as Hv.
  destruct (bounded_spec m1 e1 Hb1) as [He1 _].
  destruct (bounded_spec m2 e2 Hb2) as [He2 _].
  destruct (bounded_spec m e Hb) as [He _].
  set (u1 := 2 ^ (e1 + 1074)) in *; set (u2 := 2 ^ (e2 + 1074)) in *.
  set (p1 := 2 ^ (e - e1 - -2149)); set (p2 := 2 ^ (e - e2 - -2149)).
  assert (Hu1 : 0 < u1) by (apply Z.pow_pos_nonneg; lia).
  assert (Hu2 : 0 < u2) by (apply Z.pow_pos_nonneg; lia).
  assert (Hp1 : 0 < p1) by (apply Z.pow_pos_nonneg; lia).
  assert (Hp2 : 0 < p2) by (apply Z.pow_pos_nonneg; lia).
  assert (HK : p1 * u1 = p2 * u2).
  { subst p1 p2 u1 u2; rewrite <- !Z.pow_add_r by lia; f_equal; lia. }
  assert (Hcross : p2 * Z.pos m1 <= p1 * Z.pos m2).
  { apply (Z.mul_le_mono_pos_r _ _ (u1 * u2)); [nia|].
    replace (p2 * Z.pos m1 * (u1 * u2)) with (p2 * u2 * (Z.pos m1 * u1)) by ring.
    replace (p1 * Z.pos m2 * (u1 * u2)) with (p1 * u1 * (Z.pos m2 * u2)) by ring.
    rewrite HK; apply Z.mul_le_mono_nonneg_l; [nia|exact Hv]. }
  assert (Hq : 0 <= Z.pos m * p2 / Z.pos m2) by (apply Z.div_pos; nia).
  apply round_fine_mono; [lia|exact Hq|].
  rewrite !inexact_new_location.
  apply quotient_le; try nia.
Qed.

(** ** Doubles that are not negative *)

Lemma encode_not_negative (a f : Z) : not_negative (encode a f).
Proof.
  unfold encode; destruct (a =? 0); [exact I|].
  destruct (a <? 2 ^ 53); [destruct (f <=? 971)|destruct (f + 1 <=? 971)]; exact I.
Qed.

Lemma round_fine_not_negative (E0 x : Z) (l : location) :
  E0 < -1074 -> 0 <= x -> not_negative (binary_round_aux prec emax false x E0 l).
Proof.
  intros HE0 Hx; destruct (fine_shift E0 HE0 x Hx) as [Hn _].
  rewrite (round_aux_spec x E0 l Hx Hn); apply encode_not_negative.
Qed.

Lemma mul_not_negative (m1 m2 : positive) (e1 e2 : Z) :
  SpecFloat.bounded prec emax m1 e1 = true -> SpecFloat.bounded prec emax m2 e2 = true ->
  not_negative (SFmul prec emax (S754_finite false m1 e1) (S754_finite false m2 e2)).
Proof.
  intros Hb1 Hb2; rewrite (mul_fine (-2149)) by (assumption || lia).
  apply round_fine_not_negative; [lia|].
  apply Z.mul_nonneg_nonneg; [lia|apply Z.pow_nonneg; lia].
Qed.

Lemma div_not_negative (m1 m2 : positive) (e1 e2 : Z) :
  SpecFloat.bounded prec emax m1 e1 = true -> SpecFloat.bounded prec emax m2 e2 = true ->
  not_negative (SFdiv prec emax (S754_finite false m1 e1) (S754_finite false m2 e2)).
Proof.
  intros Hb1 Hb2; rewrite (div_fine (-2149)) by (assumption || lia).
  apply round_fine_not_negative; [lia|].
  apply Z.div_pos; [|lia].
  apply Z.mul_nonneg_nonneg; [lia|apply Z.pow_nonneg; lia].
Qed.

(** [<] and [<=] chain, on doubles that are not negative. *)
Lemma SFltb_leb_trans (b x y : spec_float) :
  not_negative x -> not_negative y ->
  SFltb b x = true -> SFleb x y = true -> SFltb b y = true.
Proof.
  unfold SFltb, SFleb.
  destruct x as [[|]|[|]| |[|] mx ex]; cbn [not_negative]; try contradiction; intros _;
    destruct y as [[|]|[|]| |[|] my ey]; cbn [not_negative]; try contradiction; intros _;
    destruct b as [sb|sb| |sb mb eb]; try destruct sb; cbn [SFcompare];
    try discriminate; try reflexivity; try (intros _ H; discriminate H).
  - destruct (Z.compare_spec ex ey) as [E|E|E]; try discriminate.
    + subst ey.
      change (Pos.compare_cont Eq mx my) with (Pos.compare mx my).
      destruct (Z.compare_spec eb ex) as [Eb|Eb|Eb]; try discriminate; try reflexivity.
      change (Pos.compare_cont Eq mb mx) with (Pos.compare mb mx).
      change (Pos.compare_cont Eq mb my) with (Pos.compare mb my).
      destruct (Pos.compare_spec mb mx) as [F|F|F]; try discriminate; intros _.
      destruct (Pos.compare_spec mx my) as [G|G|G]; try discriminate; intros _.
      * subst my; rewrite (proj2 (Pos.compare_lt_iff mb mx) F); reflexivity.
      * rewrite (proj2 (Pos.compare_lt_iff mb my) (Pos.lt_trans _ _ _ F G)); reflexivity.
    + destruct (Z.compare_spec eb ex) as [Eb|Eb|Eb]; try discriminate; intros H _.
      * subst eb; rewrite (proj2 (Z.compare_lt_iff ex ey) E); reflexivity.
      * rewrite (proj2 (Z.compare_lt_iff eb ey) (Z.lt_trans _ _ _ Eb E)); reflexivity.
Qed.

(** ** The half-life of a faster reaction is not longer *)

Lemma valid_finite (x : float) (s : bool) (m : positive) (e : Z) :
  Prim2SF x = S754_finite s m e -> SpecFloat.bounded prec emax m e = true.
Proof. intros Hx; pose proof (Prim2SF_valid x) as Hv; rewrite Hx in Hv; exact Hv. Qed.

(** A quotient of a positive double by a double that is not negative. *)
Lemma div_by_not_negative (m : positive) (e : Z) (y : float) :
  SpecFloat.bounded prec emax m e = true -> not_negative (Prim2SF y) ->
  not_negative (SF64div (S754_finite false m e) (Prim2SF y)).
Proof.
  intros Hb Hy; destruct (Prim2SF y) as [[|]|[|]| |[|] my ey] eqn:E;
    cbn [not_negative] in Hy; try contradiction; try exact I.
  apply div_not_negative; [exact Hb|exact (valid_finite y _ _ _ E)].
Qed.

(** Division of a positive double is antitone, infinities and zeros
    included. *)
Lemma div_antitone (m : positive) (e : Z) (y y' : float) :
  SpecFloat.bounded prec emax m e = true ->
  not_negative (Prim2SF y) -> not_negative (Prim2SF y') ->
  SFleb (Prim2SF y) (Prim2SF y') = true ->
  SFleb (SF64div (S754_finite false m e) (Prim2SF y'))
        (SF64div (S754_finite false m e) (Prim2SF y)) = true.
Proof.
  intros Hb Hy Hy' Hle.
  pose proof (div_by_not_negative m e y Hb Hy) as Hq.
  pose proof (div_by_not_negative m e y' Hb Hy') as Hq'.
  destruct (Prim2SF y) as [[|]|[|]| |[|] my ey] eqn:E;
    cbn [not_negative] in Hy; try contradiction;
    destruct (Prim2SF y') as [[|]|[|]| |[|] my' ey'] eqn:E';
    cbn [not_negative] in Hy'; try contradiction;
    try discriminate Hle; try reflexivity.
  - (* infinity against a quotient *)
    cbn [SF64div SFdiv xorb] in *.
    destruct (SFdiv_core_binary prec emax (Z.pos m) e (Z.pos my') ey') as [[q eq] lq].
    destruct (binary_round_aux prec emax false q eq lq) as [[|]|[|]| |[|] mq eqq];
      cbn [not_negative] in Hq'; try contradiction; reflexivity.
  - (* a quotient against zero *)
    cbn [SF64div SFdiv xorb] in *.
    destruct (SFdiv_core_binary prec emax (Z.pos m) e (Z.pos my) ey) as [[q eq] lq].
    destruct (binary_round_aux prec emax false q eq lq) as [[|]|[|]| |[|] mq eqq];
      cbn [not_negative] in Hq; try contradiction; reflexivity.
  - apply div_le_core;
      [exact Hb|exact (valid_finite y _ _ _ E)|exact (valid_finite y' _ _ _ E')|exact Hle].
Qed.

Lemma positive_cases (x : spec_float) :
  SFltb (S754_zero false) x = true ->
  x = S754_infinity false \/ exists m e, x = S754_finite false m e.
Proof.
  destruct x as [s|[|]| |[|] m e]; cbn; intros H; try discriminate H.
  - left; reflexivity.
  - right; exists m, e; reflexivity.
Qed.

Lemma not_below_zero_cases (x : spec_float) :
  SFltb x (S754_zero false) = false ->
  x = S754_nan \/ (exists s, x = S754_zero s) \/ x = S754_infinity false \/
  exists m e, x = S754_finite false m e.
Proof.
  destruct x as [s|[|]| |[|] m e]; cbn; intros H; try discriminate H.
  - right; left; exists s; reflexivity.
  - right; right; left; reflexivity.
  - left; reflexivity.
  - right; right; right; exists m, e; reflexivity.
Qed.

Lemma above_finite_cases (m : positive) (e : Z) (y : spec_float) :
  SFleb (S754_finite false m e) y = true ->
  y = S754_infinity false \/ exists m' e', y = S754_finite false m' e'.
Proof.
  destruct y as [s|[|]| |[|] m' e']; cbn; intros H; try discriminate H.
  - left; reflexivity.
  - right; exists m', e'; reflexivity.
Qed.

Lemma SFltb_nan (b : spec_float) : SFltb b S754_nan = false.
Proof. destruct b as [s|s| |s m e]; reflexivity. Qed.

Lemma SFleb_infinity (x : spec_float) :
  not_negative x -> SFleb x (S754_infinity false) = true.
Proof.
  destruct x as [[|]|[|]| |[|] m e]; cbn [not_negative]; try contradiction; reflexivity.
Qed.

(** With a positive numerator [L], rate constants [0 < k <= k'] and a factor
    [E] that is not negative, a bound below the half-life [L / (k' * E)] is
    below the half-life [L / (k * E)]. *)
Lemma binary64_halflife_antitone (L k k' E bound : float) :
  (0 <? L)%float = true -> is_finite L = true ->
  (0 <? k)%float = true -> (k <=? k')%float = true ->
  (E <? 0)%float = false ->
  (bound <? L / (k' * E))%float = true -> (bound <? L / (k * E))%float = true.
Proof.
  rewrite !ltb_spec, leb_spec, !div_spec.
  change (Prim2SF 0) with (S754_zero false).
  intros HL HLfin Hk Hkk' HE.
  (* the numerator is a positive double *)
  assert (HLpos : exists mL eL, Prim2SF L = S754_finite false mL eL).
  { destruct (positive_cases _ HL) as [Hinf|Hfin]; [|exact Hfin].
    exfalso; revert HLfin; unfold is_finite, is_nan, is_infinity.
    rewrite !FloatAxioms.eqb_spec, abs_spec, Hinf; discriminate. }
  destruct HLpos as [mL [eL EL]]; rewrite EL; clear HL HLfin.
  pose proof (valid_finite L _ _ _ EL) as HbL.
  destruct (positive_cases _ Hk) as [Ek|[mk [ek Ek]]].
  { (* an infinite rate constant: the greater one is infinite too *)
    assert (Ek' : Prim2SF k' = S754_infinity false).
    { rewrite Ek in Hkk'; destruct (Prim2SF k') as [s|[|]| |[|] m' e'];
        try discriminate Hkk'; reflexivity. }
    rewrite !mul_spec, Ek, Ek'; intros H; exact H. }
  pose proof (valid_finite k _ _ _ Ek) as Hbk.
  rewrite Ek in Hkk'.
  destruct (not_below_zero_cases _ HE) as [EE|[[sE EE]|[EE|[mE [eE EE]]]]].
  - (* the factor is not a number *)
    rewrite (mul_spec k'), EE.
    destruct (Prim2SF k') as [s|s| |s m' e']; cbn [SF64mul SFmul SF64div SFdiv];
      rewrite SFltb_nan; discriminate.
  - (* the factor is a zero *)
    rewrite !mul_spec, Ek, EE.
    destruct (above_finite_cases _ _ _ Hkk') as [->|[mk' [ek' ->]]];
      cbn [SF64mul SFmul SF64div SFdiv xorb]; [rewrite SFltb_nan; discriminate|].
    intros H; exact H.
  - (* the factor is infinite *)
    rewrite !mul_spec, Ek, EE.
    destruct (above_finite_cases _ _ _ Hkk') as [->|[mk' [ek' ->]]];
      cbn [SF64mul SFmul SF64div SFdiv xorb]; intros H; exact H.
  - (* a positive factor *)
    pose proof (valid_finite E _ _ _ EE) as HbE.
    assert (Hnn : not_negative (Prim2SF (k * E))).
    { rewrite mul_spec, Ek, EE; apply mul_not_negative; assumption. }
    assert (Hnn' : not_negative (Prim2SF (k' * E))).
    { rewrite mul_spec, EE.
      destruct (above_finite_cases _ _ _ Hkk') as [->|[mk' [ek' Ek']]]; [exact I|].
      rewrite Ek'; apply mul_not_negative; [exact (valid_finite k' _ _ _ Ek')|exact HbE]. }
    assert (Hprod : SFleb (Prim2SF (k * E)) (Prim2SF (k' * E)) = true).
    { destruct (above_finite_cases _ _ _ Hkk') as [Ek'|[mk' [ek' Ek']]].
      - rewrite (mul_spec k'), Ek', EE; apply SFleb_infinity; exact Hnn.
      - rewrite !mul_spec, Ek, Ek', EE; rewrite Ek' in Hkk'.
        apply mul_le_core; try assumption; exact (valid_finite k' _ _ _ Ek'). }
    intros Hbound.
    apply (SFltb_leb_trans _ (SF64div (S754_finite false mL eL) (Prim2SF (k' * E)))).
    + apply div_by_not_negative; assumption.
    + apply div_by_not_negative; assumption.
    + exact Hbound.
    + apply div_antitone; assumption.
Qed.

End Rounding.

(** ** C8: the window and the rate constant *)

Section SmallerRate.
Variable exp : float -> float.
Variable junk : array_id -> nat -> float.
Variable timePeriod : float.
Variable N : nat.
Variable DLC : list float.

Lemma binary64_ln2_positive :
  (0 <? @definitions.ln2 float (binary64.arith exp))%float = true /\
  is_finite (@definitions.ln2 float (binary64.arith exp)) = true.
Proof. split; vm_compute; reflexivity. Qed.

(** A half-life cell that qualifies at the rate constant [k'] qualifies at
    every smaller one: below [N] by the order of the rounded quotients, at
    [N] because the cell is the same. *)
Lemma binary64_halflife_qualifies (c : component float) (k' : float) (b : buffers float)
    (bound : float) (j : nat) :
  well_formed N b ->
  (0 <? kineticConstant c)%float = true -> (kineticConstant c <=? k')%float = true ->
  (j < N ->
   let eta := (rd junk Averaged (averagedPulseSequence b) j - standardPotential c)%float in
   (exp (@forward_exponent float (binary64.arith exp) c eta) <? 0)%float = false /\
   (exp (@backward_exponent float (binary64.arith exp) c eta) <? 0)%float = false) ->
  j <= N ->
  (@dgt float (binary64.arith exp)
     (rd junk ForwardHalflife
        (forwardKhalflife
           (@rates_of float (binary64.arith exp) junk N (with_kineticConstant k' c) b)) j)
     bound = true ->
   @dgt float (binary64.arith exp)
     (rd junk ForwardHalflife
        (forwardKhalflife (@rates_of float (binary64.arith exp) junk N c b)) j)
     bound = true) /\
  (@dgt float (binary64.arith exp)
     (rd junk BackwardHalflife
        (backwardKhalflife
           (@rates_of float (binary64.arith exp) junk N (with_kineticConstant k' c) b)) j)
     bound = true ->
   @dgt float (binary64.arith exp)
     (rd junk BackwardHalflife
        (backwardKhalflife (@rates_of float (binary64.arith exp) junk N c b)) j)
     bound = true).
Proof.
  intros Hb Hk Hkk' Hexp Hj.
  destruct (@rates_of_cells float (binary64.arith exp) junk N c b Hb j) as [Hin Hout].
  destruct (@rates_of_cells float (binary64.arith exp) junk N (with_kineticConstant k' c) b
              Hb j) as [Hin' Hout'].
  destruct (Nat.eq_dec j N) as [->|Hne].
  - destruct (Hout (Nat.le_refl N)) as [-> ->].
    destruct (Hout' (Nat.le_refl N)) as [-> ->].
    split; auto.
  - assert (HjN : j < N) by lia.
    destruct (Hexp HjN) as [Hf Hr].
    destruct (Hin HjN) as [_ [_ [_ [-> ->]]]].
    destruct (Hin' HjN) as [_ [_ [_ [-> ->]]]].
    destruct binary64_ln2_positive as [Hpos Hfin].
    unfold forward_rate, backward_rate, with_kineticConstant.
    cbn [kineticConstant standardPotential symmetryCoefficient electronCount loading].
    split; apply binary64_halflife_antitone; assumption.
Qed.

(** C8, as the code has it, in binary64.  With the input, the buffers, the
    other parameters of the component and the memory behind the half-life
    arrays fixed, a window found at a rate constant [k'] is found at every
    positive rate constant below [k'], as long as the exponential is not
    negative at the exponents of the component (the [exp] of a C library is
    negative nowhere): raising the rate constant can only grow the region
    where no window is found. *)
Theorem C8_window_found_at_smaller_rate (c : component float) (k' : float)
    (b : buffers float) :
  well_formed N b ->
  (0 <? kineticConstant c)%float = true ->
  (kineticConstant c <=? k')%float = true ->
  (forall j, j < N ->
     let eta := (rd junk Averaged (averagedPulseSequence b) j - standardPotential c)%float in
     (exp (@forward_exponent float (binary64.arith exp) c eta) <? 0)%float = false /\
     (exp (@backward_exponent float (binary64.arith exp) c eta) <? 0)%float = false) ->
  LookupThresholdFound
    (@window_of float (binary64.arith exp) junk timePeriod N DLC
       (with_kineticConstant k' c) b) = true ->
  LookupThresholdFound
    (@window_of float (binary64.arith exp) junk timePeriod N DLC c b) = true.
Proof.
  intros Hb Hk Hkk' Hexp; unfold window_of; rewrite !detect_window_found.
  unfold with_kineticConstant at 1 2 3 4;
    cbn [kineticConstant standardPotential symmetryCoefficient electronCount loading].
  destruct (positiveScanDirection junk N DLC);
    (intros [[j [Hj Hq]]|[j [Hj Hq]]]; [left|right]; exists j; (split; [exact Hj|]);
     revert Hq; apply (binary64_halflife_qualifies c k' b _ j Hb Hk Hkk' (Hexp j)); lia).
Qed.

End SmallerRate.

(** The claim C8 fails: on three samples at the standard potential, with
    zeros behind the arrays, the window of the species is found at the rate
    constant 1 and not found at the rate constant 1e6. *)
Lemma C8_window_lost_at_larger_rate :
  let b := @init_buffers float (binary64.arith binary64.exp_ref) examples.zeros 3
             [0; 0; 0]%float in
  (kineticConstant examples.slow <? kineticConstant examples.fast)%float = true /\
  engine.with_kineticConstant (kineticConstant examples.fast) examples.slow = examples.fast /\
  LookupThresholdFound
    (@window_of float (binary64.arith binary64.exp_ref) examples.zeros 0.01%float 3
       [0; 0; 0]%float examples.slow b) = true /\
  LookupThresholdFound
    (@window_of float (binary64.arith binary64.exp_ref) examples.zeros 0.01%float 3
       [0; 0; 0]%float examples.fast b) = false.
Proof. vm_compute; repeat split; reflexivity. Qed.

(** ** The theorems at concrete inputs *)

(** C1 on five samples of a sweep and one species. *)
Lemma C1_current_trace_witness :
  1 < 5 /\
  length (@redoxKineticsFull float examples.doubles examples.zeros INT_MIN 0.01%float 100%float
            5 examples.sweep examples.sweep 1 [1e-9]%float [1]%float [0]%float [0.5]%float
            [1]%float) = 5.
Proof.
  split; [lia|].
  apply (@C1_current_trace float examples.doubles examples.zeros INT_MIN 0.01%float 100%float
           5 examples.sweep examples.sweep 1 [1e-9]%float [1]%float [0]%float [0.5]%float
           [1]%float 1).
  lia.
Defined.

(** C2 on two samples with the resistance 0. *)
Lemma C2_zero_resistance_is_divided_by_witness :
  0 < 2 /\ (0 =? 0)%float = true /\
  exists y,
    nth_error (@redoxKineticsFull float examples.doubles examples.zeros INT_MIN 0.01%float
                 0%float 2 [0.1; 0.2]%float [0.05; 0.15]%float 1 [1e-9]%float [1e6]%float
                 [0]%float [0.5]%float [1]%float) 0 = Some y /\
    is_infinity y || is_nan y = true.
Proof.
  split; [lia|split; [reflexivity|]].
  destruct (C2_zero_resistance_is_divided_by binary64.exp_ref examples.zeros INT_MIN
              0.01%float 0%float 2 [0.1; 0.2]%float [0.05; 0.15]%float 1 [1e-9]%float
              [1e6]%float [0]%float [0.5]%float [1]%float 0) as [y [Hy [_ Hinf]]];
    [lia|reflexivity|].
  exists y; split; [exact Hy|exact Hinf].
Defined.

(** C3 on the fast species at its standard potential, whose window is not
    found. *)
Lemma C3_window_not_found_leaves_buffers_witness :
  LookupThresholdFound
    (@window_of float examples.doubles examples.zeros 0.01%float 3 [0; 0; 0]%float
       examples.fast examples.at_rest) = false /\
  cur (@process_component float examples.doubles examples.zeros INT_MIN 0.01%float 100%float 3
         [0; 0; 0]%float examples.fast examples.at_rest)
  = cur examples.at_rest.
Proof.
  split; [vm_compute; reflexivity|].
  apply (@C3_window_not_found_leaves_buffers float examples.doubles examples.zeros INT_MIN
           0.01%float 100%float 3 [0; 0; 0]%float examples.fast examples.at_rest).
  vm_compute; reflexivity.
Defined.

(** C5 on the first component of the sweep: the reverse scan begins at
    cell 5 of an array of five. *)
Lemma C5_reverse_scan_reads_past_the_end_witness :
  0 < 5 /\
  exists rest,
    snd (snd (@scans_of float examples.doubles examples.zeros 0.01%float 5 examples.sweep
                examples.slow (examples.slow_run 0)))
    = (BackwardHalflife, 5) :: rest.
Proof.
  split; [lia|].
  apply (@C5_reverse_scan_reads_past_the_end float examples.doubles examples.zeros INT_MIN
           0.01%float 100%float 5 examples.sweep [1e-9]%float [1]%float [0]%float [0.5]%float
           [1]%float 0).
  lia.
Defined.

(** C6 on the loading 1e-9, whose ceiling is 20. *)
Lemma C6_discretization_count_witness :
  binary64.trunc (binary64.ceil (20 * 1e-9 * 1000000000)%float) = Some 20%Z /\
  (INT_MIN <= 20 < INT_MAX)%Z /\
  Z.even (@loadingDivider float examples.doubles INT_MIN examples.fast) = true.
Proof.
  split; [vm_compute; reflexivity|].
  split; [unfold INT_MIN, INT_MAX; lia|].
  apply (@C6_discretization_count float examples.doubles INT_MIN examples.fast 20%Z).
  - vm_compute; reflexivity.
  - unfold INT_MIN, INT_MAX; lia.
Defined.

(** C7 on the slow species at its standard potential. *)
Lemma C7_kinetic_state_witness :
  well_formed 3 examples.at_rest /\ 1 < 3 /\
  rd examples.zeros ForwardHalflife
    (forwardKhalflife (@rates_of float examples.doubles examples.zeros 3 examples.slow
                         examples.at_rest)) 1
  = (0.69314718056
     / rd examples.zeros ForwardK
         (forwardK (@rates_of float examples.doubles examples.zeros 3 examples.slow
                      examples.at_rest)) 1)%float.
Proof.
  assert (Hwf : well_formed 3 examples.at_rest) by (repeat split; reflexivity).
  split; [exact Hwf|split; [lia|]].
  apply (@C7_kinetic_state float examples.doubles examples.zeros 3 examples.slow
           examples.at_rest 1 Hwf); lia.
Defined.

(** C9 on three samples. *)
Lemma C9_capacitive_filter_witness :
  1 <= 3 /\
  length (@cv.dlcCorrectedCVsequence float examples.doubles examples.zeros 100%float 1e-6%float
            0.01%float 3 [0.1; 0.2; 0.3]%float) = 3.
Proof.
  split; [lia|].
  apply (@C9_capacitive_filter float examples.doubles examples.zeros 100%float 1e-6%float
           0.01%float 0.01%float 10%Z 3 [0.1; 0.2; 0.3]%float [0.1; 0.15; 0.2]%float).
  lia.
Defined.

(** The claim C10 fails on its last clause.  In the first component of the
    sweep the window is cells 0 to 4.  When slice 1 begins, slice 0 has left
    its currents in cells 1 to 4; yet cell 0, the lower bound, still holds
    the initial zero, and that zero is what the averaging pass of slice 1
    applies there: the potential of cell 0 stays what it was. *)
Lemma C10_later_slice_applies_zero :
  let w := @window_of float examples.doubles examples.zeros 0.01%float 5 examples.sweep
             examples.slow (examples.slow_run 0) in
  let s := @before_slice float examples.doubles examples.zeros INT_MIN 0.01%float 100%float 5
             examples.sweep examples.slow (examples.slow_run 0) 1 in
  let s' := @slice float examples.doubles examples.zeros INT_MIN 0.01%float 100%float
              examples.slow w 1 s in
  w = mkWindow 0 4 true /\
  cur s = [0; 1.3228685781000439e-06; 9.6155953141728189e-06; 6.815507511696232e-05;
           0.00045369277006705191; 0]%float /\
  rd examples.zeros Cur (cur s') 0 = 0%float /\
  rd examples.zeros Averaged (averagedPulseSequence s') 0 = (-0.2)%float.
Proof. vm_compute; repeat split; reflexivity. Qed.

(** C10 on the first slice of the second of two species on a rising sweep:
    the window of the second species begins at cell 2, where the march of
    the first species has left a current. *)
Lemma C10_correction_at_lower_bound_uses_stale_current_witness :
  let b := @run_components float examples.doubles examples.zeros INT_MIN 0.01%float 100%float 5
             examples.rising [1e-9; 1e-9]%float [1; 1000]%float [0; 0]%float [0.5; 0.5]%float
             [1; 1]%float 1 in
  let c := @component_at float examples.zeros [1e-9; 1e-9]%float [1; 1000]%float [0; 0]%float
             [0.5; 0.5]%float [1; 1]%float 1 in
  let w := @window_of float examples.doubles examples.zeros 0.01%float 5 examples.rising c b in
  let s := @before_slice float examples.doubles examples.zeros INT_MIN 0.01%float 100%float 5
             examples.rising c b 0 in
  LookupThresholdFound w = true /\
  lookupMinTreshhold w < lookupMaxTreshold w /\
  rd examples.zeros Cur
    (cur (@slice float examples.doubles examples.zeros INT_MIN 0.01%float 100%float c w 0 s))
    (lookupMinTreshhold w)
  = rd examples.zeros Cur (cur b) (lookupMinTreshhold w) /\
  lookupMinTreshhold w = 2 /\
  rd examples.zeros Cur (cur b) 2 = 2.0162247236482881e-05%float.
Proof.
  intros b c w s.
  assert (Hfound : LookupThresholdFound w = true) by (vm_compute; reflexivity).
  assert (Hwindow : lookupMinTreshhold w < lookupMaxTreshold w)
    by (apply Nat.ltb_lt; vm_compute; reflexivity).
  split; [exact Hfound|split; [exact Hwindow|split; [|split; vm_compute; reflexivity]]].
  destruct (@C10_correction_at_lower_bound_uses_stale_current float examples.doubles
              examples.zeros INT_MIN 0.01%float 100%float 5 examples.rising [1e-9; 1e-9]%float
              [1; 1000]%float [0; 0]%float [0.5; 0.5]%float [1; 1]%float 1 0 Hfound Hwindow)
    as [_ [_ [_ [_ [_ [Hstale _]]]]]].
  exact Hstale.
Defined.

(** C8 on three samples at the standard potential, with the rate constants
    1 and 2 and the reference exponential: every half-life is ln2 / 2 at the
    greater rate constant, above the bound 0.05. *)
Lemma C8_window_found_at_smaller_rate_witness :
  let b := @init_buffers float examples.doubles examples.zeros 3 [0; 0; 0]%float in
  well_formed 3 b /\
  (0 <? kineticConstant examples.slow)%float = true /\
  (kineticConstant examples.slow <=? 2)%float = true /\
  rd examples.zeros ForwardHalflife
    (forwardKhalflife
       (@rates_of float examples.doubles examples.zeros 3
          (with_kineticConstant 2%float examples.slow) b)) 0
  = 0.34657359028%float /\
  LookupThresholdFound
    (@window_of float examples.doubles examples.zeros 0.01%float 3 [0; 0; 0]%float
       (with_kineticConstant 2%float examples.slow) b) = true /\
  LookupThresholdFound
    (@window_of float examples.doubles examples.zeros 0.01%float 3 [0; 0; 0]%float
       examples.slow b) = true.
Proof.
  cbv zeta.
  assert (Hwf : well_formed 3
                  (@init_buffers float examples.doubles examples.zeros 3 [0; 0; 0]%float))
    by apply well_formed_init.
  assert (Hk : (0 <? kineticConstant examples.slow)%float = true) by reflexivity.
  assert (Hkk' : (kineticConstant examples.slow <=? 2)%float = true) by reflexivity.
  assert (Hfound : LookupThresholdFound
            (@window_of float (binary64.arith binary64.exp_ref) examples.zeros 0.01%float 3
               [0; 0; 0]%float (with_kineticConstant 2%float examples.slow)
               (@init_buffers float examples.doubles examples.zeros 3 [0; 0; 0]%float))
            = true) by (vm_compute; reflexivity).
  split; [exact Hwf|split; [exact Hk|split; [exact Hkk'|split;
    [vm_compute; reflexivity|split; [exact Hfound|]]]]].
  refine (C8_window_found_at_smaller_rate binary64.exp_ref examples.zeros 0.01%float 3
            [0; 0; 0]%float examples.slow 2%float _ Hwf Hk Hkk' _ Hfound).
  intros [|[|[|j]]] Hj; try lia; split; vm_compute; reflexivity.
Defined.

(** * Further properties of the engine *)

(** ** The slice count *)

Section SliceCount.
Context {D : Type} `{Arith D}.
Variable int_indefinite : Z.

Lemma double_to_int_range (x : D) :
  (INT_MIN <= double_to_int int_indefinite x <= INT_MAX)%Z.
Proof.
  unfold double_to_int.
  destruct (dtrunc x) as [n|]; [|apply wrap_int_range].
  destruct (fits_int n) eqn:Hn; [|apply wrap_int_range].
  unfold fits_int in Hn; apply andb_true_iff in Hn.
  destruct Hn as [H1 H2]; apply Z.leb_le in H1, H2; lia.
Qed.

Lemma loadingDivider_even (c : component D) :
  Z.even (loadingDivider int_indefinite c) = true.
Proof.
  unfold loadingDivider; cbv zeta.
  pose proof (double_to_int_range (dceil (dint 20 * loading c * dint 1000000000))%D) as Hr.
  rewrite <- Zeven_rem.
  destruct (Z.even (double_to_int int_indefinite
                      (dceil (dint 20 * loading c * dint 1000000000))%D)) eqn:He;
    cbn [negb]; [exact He|].
  set (n := double_to_int int_indefinite (dceil (dint 20 * loading c * dint 1000000000))%D) in *.
  destruct (Z.eq_dec n INT_MAX) as [->|Hne]; [reflexivity|].
  rewrite wrap_int_fits by (unfold INT_MIN, INT_MAX in *; lia).
  rewrite Z.even_add, He; reflexivity.
Qed.

(** X1.  Whatever the loading, the number of slices is an even [int]: a
    component that runs slices ends on an odd one, an averaging pass. *)
Theorem loadingDivider_always_even (c : component D) :
  Z.even (loadingDivider int_indefinite c) = true /\
  (INT_MIN <= loadingDivider int_indefinite c <= INT_MAX)%Z.
Proof.
  split; [apply loadingDivider_even|apply loadingDivider_is_int].
Qed.

(** The number of turns of the loop over the slices is even too. *)
Lemma slice_turns_even (c : component D) :
  Nat.even (Z.to_nat (loadingDivider int_indefinite c)) = true.
Proof.
  pose proof (loadingDivider_even c) as He.
  apply Z.even_spec in He; destruct He as [k Hk]; rewrite Hk.
  destruct (Z.le_gt_cases k 0) as [Hneg|Hpos].
  - replace (Z.to_nat (2 * k)) with 0 by lia; reflexivity.
  - apply Nat.even_spec; exists (Z.to_nat k); lia.
Qed.

End SliceCount.

(** ** What a component leaves alone *)

Section ComponentFootprint.
Context {D : Type} `{Arith D}.
Variable junk : array_id -> nat -> D.
Variable int_indefinite : Z.
Variables timePeriod resistance : D.
Variable N : nat.
Variable DLC : list D.
Variable c : component D.

(** A slice changes the potentials only in the cells
    [lookupMinTreshhold .. lookupMaxTreshold - 1]. *)
Lemma slice_potentials_frame (w : window) (j : nat) (b : buffers D) (m : nat) :
  well_formed N b ->
  lookupMaxTreshold w <= N ->
  ~ (lookupMinTreshhold w <= m < lookupMaxTreshold w) ->
  let b' := slice junk int_indefinite timePeriod resistance c w j b in
  rd junk Averaged (averagedPulseSequence b') m = rd junk Averaged (averagedPulseSequence b) m /\
  rd junk Overcorrected (overcorrectedPulseSequence b') m
  = rd junk Overcorrected (overcorrectedPulseSequence b) m.
Proof.
  intros Hb Hhi Hm b'; subst b'; unfold slice; cbv zeta.
  destruct (LookupThresholdFound w); [|split; reflexivity].
  match goal with
  | |- context [march junk int_indefinite timePeriod c w ?Red0 b] =>
      set (marched := snd (march junk int_indefinite timePeriod c w Red0 b));
      assert (Hmarched : well_formed N marched) by (apply well_formed_march; exact Hb);
      destruct (march_frame junk int_indefinite timePeriod c w Red0 b) as [Havg Hover];
      fold marched in Havg, Hover
  end.
  destruct (Nat.even j).
  - destruct (overcorrection_pass_cells junk resistance N c w marched Hmarched Hhi)
      as [_ [Hsame Hcells]].
    destruct (Hcells m) as [_ Hout].
    rewrite Hsame, (Hout Hm), Havg, Hover; split; reflexivity.
  - destruct (averaging_pass_cells junk resistance N c w marched Hmarched Hhi) as [_ Hcells].
    destruct (Hcells m) as [_ Hout]; destruct (Hout Hm) as [Ha Ho].
    rewrite Ha, Ho, Havg, Hover; split; reflexivity.
Qed.

(** An odd slice of a found window leaves both potential arrays equal
    inside the window. *)
Lemma odd_slice_levels (w : window) (j : nat) (b : buffers D) (m : nat) :
  well_formed N b ->
  LookupThresholdFound w = true ->
  lookupMaxTreshold w <= N ->
  Nat.even j = false ->
  lookupMinTreshhold w <= m < lookupMaxTreshold w ->
  let b' := slice junk int_indefinite timePeriod resistance c w j b in
  rd junk Overcorrected (overcorrectedPulseSequence b') m
  = rd junk Averaged (averagedPulseSequence b') m.
Proof.
  intros Hb Hw Hhi Hj Hm b'; subst b'; unfold slice; cbv zeta; rewrite Hw, Hj.
  match goal with
  | |- context [march junk int_indefinite timePeriod c w ?Red0 b] =>
      set (marched := snd (march junk int_indefinite timePeriod c w Red0 b));
      assert (Hmarched : well_formed N marched) by (apply well_formed_march; exact Hb)
  end.
  destruct (averaging_pass_cells junk resistance N c w marched Hmarched Hhi) as [_ Hcells].
  destruct (Hcells m) as [Hin _]; destruct (Hin Hm) as [_ Hlevel]; exact Hlevel.
Qed.

Lemma before_slice_potentials_frame (b : buffers D) (j m : nat) :
  well_formed N b ->
  let w := window_of junk timePeriod N DLC c b in
  ~ (lookupMinTreshhold w <= m < lookupMaxTreshold w) ->
  let s := before_slice junk int_indefinite timePeriod resistance N DLC c b j in
  rd junk Averaged (averagedPulseSequence s) m = rd junk Averaged (averagedPulseSequence b) m /\
  rd junk Overcorrected (overcorrectedPulseSequence s) m
  = rd junk Overcorrected (overcorrectedPulseSequence b) m.
Proof.
  intros Hb w Hm; cbv zeta.
  induction j as [|j IH].
  - unfold before_slice; cbn [for_loop].
    destruct (before_slices_frame junk N c b) as [_ [Ha Ho]]; rewrite Ha, Ho.
    split; reflexivity.
  - rewrite before_slice_next.
    destruct (slice_potentials_frame (window_of junk timePeriod N DLC c b) j
                (before_slice junk int_indefinite timePeriod resistance N DLC c b j) m)
      as [Ha Ho].
    + apply well_formed_before_slice; exact Hb.
    + apply detect_window_max.
    + exact Hm.
    + rewrite Ha, Ho; exact IH.
Qed.

(** X2.  A component corrects the potentials only inside its window
    [lookupMinTreshhold .. lookupMaxTreshold - 1] and writes currents only
    in [lookupMinTreshhold + 1 .. lookupMaxTreshold]; every other cell of
    [averagedPulseSequence], [overcorrectedPulseSequence] and [cur] is after
    the component what it was before. *)
Theorem component_footprint (b : buffers D) (m : nat) :
  well_formed N b ->
  let w := window_of junk timePeriod N DLC c b in
  let b' := process_component junk int_indefinite timePeriod resistance N DLC c b in
  (~ (lookupMinTreshhold w <= m < lookupMaxTreshold w) ->
   rd junk Averaged (averagedPulseSequence b') m = rd junk Averaged (averagedPulseSequence b) m /\
   rd junk Overcorrected (overcorrectedPulseSequence b') m
   = rd junk Overcorrected (overcorrectedPulseSequence b) m) /\
  (~ (lookupMinTreshhold w < m <= lookupMaxTreshold w) ->
   rd junk Cur (cur b') m = rd junk Cur (cur b) m).
Proof.
  intros Hb w b'; subst b'; rewrite process_component_slices; split; intros Hm.
  - apply before_slice_potentials_frame; assumption.
  - apply before_slice_cur_frame; assumption.
Qed.

(** A component whose slice count is zero or negative runs no slice. *)
Lemma process_component_no_slice (b : buffers D) :
  (loadingDivider int_indefinite c <= 0)%Z ->
  same_potentials b (process_component junk int_indefinite timePeriod resistance N DLC c b).
Proof.
  intros Hd; rewrite process_component_slices.
  replace (Z.to_nat (loadingDivider int_indefinite c)) with 0 by lia.
  unfold before_slice; cbn [for_loop]; apply before_slices_frame.
Qed.

(** A component without a window runs slices that do nothing. *)
Lemma process_component_not_found (b : buffers D) :
  LookupThresholdFound (window_of junk timePeriod N DLC c b) = false ->
  same_potentials b (process_component junk int_indefinite timePeriod resistance N DLC c b).
Proof.
  intros Hw; rewrite process_component_slices; unfold before_slice.
  rewrite for_loop_skip by (intros i s; apply slice_not_found; exact Hw).
  apply before_slices_frame.
Qed.

(** After a component the two potential arrays agree wherever they agreed
    before it: outside the window nothing changed, inside it the last slice,
    an odd one, levelled them. *)
Lemma process_component_levels (b : buffers D) :
  well_formed N b ->
  (forall m, m < N ->
     rd junk Overcorrected (overcorrectedPulseSequence b) m
     = rd junk Averaged (averagedPulseSequence b) m) ->
  let b' := process_component junk int_indefinite timePeriod resistance N DLC c b in
  forall m, m < N ->
    rd junk Overcorrected (overcorrectedPulseSequence b') m
    = rd junk Averaged (averagedPulseSequence b') m.
Proof.
  intros Hb Hlevel b' m Hm; subst b'.
  set (w := window_of junk timePeriod N DLC c b).
  destruct (LookupThresholdFound w) eqn:Hw.
  2:{ destruct (process_component_not_found b Hw) as [_ [Ha Ho]].
      rewrite Ha, Ho; apply Hlevel; exact Hm. }
  rewrite process_component_slices.
  pose proof (slice_turns_even int_indefinite c) as Heven.
  destruct (Z.to_nat (loadingDivider int_indefinite c)) as [|j] eqn:Hturns.
  - unfold before_slice; cbn [for_loop].
    destruct (before_slices_frame junk N c b) as [_ [Ha Ho]]; rewrite Ha, Ho.
    apply Hlevel; exact Hm.
  - assert (Hodd : Nat.even j = false).
    { rewrite Nat.even_succ in Heven; rewrite <- Nat.negb_odd, Heven; reflexivity. }
    pose proof (detect_window_max junk timePeriod N DLC c (rates_of junk N c b)) as Hhi.
    fold (window_of junk timePeriod N DLC c b) in Hhi; fold w in Hhi.
    destruct (Nat.lt_ge_cases m (lookupMinTreshhold w)) as [Hlo|Hlo];
      [|destruct (Nat.lt_ge_cases m (lookupMaxTreshold w)) as [Hin|Hout]].
    + destruct (before_slice_potentials_frame b (S j) m Hb) as [Ha Ho]; [fold w; lia|].
      rewrite Ha, Ho; apply Hlevel; exact Hm.
    + rewrite before_slice_next; fold w.
      apply odd_slice_levels; auto.
      apply well_formed_before_slice; exact Hb.
    + destruct (before_slice_potentials_frame b (S j) m Hb) as [Ha Ho]; [fold w; lia|].
      rewrite Ha, Ho; apply Hlevel; exact Hm.
Qed.

End ComponentFootprint.

(** The first cell of the current across the slow species on the sweep. *)
Lemma component_footprint_witness :
  well_formed 5 (examples.slow_run 0) /\
  (~ (lookupMinTreshhold
        (@window_of float examples.doubles examples.zeros 0.01%float 5 examples.sweep
           examples.slow (examples.slow_run 0)) < 0
      <= lookupMaxTreshold
           (@window_of float examples.doubles examples.zeros 0.01%float 5 examples.sweep
              examples.slow (examples.slow_run 0))) ->
   rd examples.zeros Cur
     (cur (@process_component float examples.doubles examples.zeros INT_MIN 0.01%float
             100%float 5 examples.sweep examples.slow (examples.slow_run 0))) 0
   = rd examples.zeros Cur (cur (examples.slow_run 0)) 0).
Proof.
  assert (Hb : well_formed 5 (examples.slow_run 0))
    by apply (@well_formed_run_components float examples.doubles).
  split; [exact Hb|].
  apply (@component_footprint float examples.doubles examples.zeros INT_MIN 0.01%float
           100%float 5 examples.sweep examples.slow (examples.slow_run 0) 0 Hb).
Defined.

(** ** Invariants of a run *)

Section RunInvariants.
Context {D : Type} `{Arith D}.
Variable junk : array_id -> nat -> D.
Variable int_indefinite : Z.
Variables timePeriod resistance : D.
Variable N : nat.
Variables inputPulseSequence DLC : list D.
Variables loadingsArray kineticConstArray redoxPotArray symCoefArray zArray : list D.

Let run := run_components junk int_indefinite timePeriod resistance N DLC
             loadingsArray kineticConstArray redoxPotArray symCoefArray zArray.

Lemma run_components_next (n : nat) :
  run (S n)
  = process_component junk int_indefinite timePeriod resistance N DLC
      (component_at junk loadingsArray kineticConstArray redoxPotArray symCoefArray zArray n)
      (run n).
Proof. unfold run, run_components; rewrite for_loop_last; reflexivity. Qed.

Lemma well_formed_run (n : nat) : well_formed N (run n).
Proof. apply well_formed_run_components. Qed.

(** X3.  Between components the averaged and the overcorrected potentials are
    the same sequence: they start as two copies of the corrected input and
    every component that changes them ends on an averaging pass. *)
Theorem potentials_agree_between_components (n j : nat) :
  j < N ->
  rd junk Overcorrected (overcorrectedPulseSequence (run n)) j
  = rd junk Averaged (averagedPulseSequence (run n)) j.
Proof.
  intros Hj; revert j Hj; induction n as [|n IH]; intros j Hj.
  - unfold run, run_components; cbn [for_loop].
    destruct (init_buffers_cells junk N DLC j Hj) as [Ha [Ho _]].
    rewrite Ha, Ho; reflexivity.
  - rewrite run_components_next.
    apply process_component_levels; [apply well_formed_run|exact IH|exact Hj].
Qed.

(** X4.  The current of the first time step is never written: [cur[0]] is zero
    after any number of components. *)
Theorem first_current_stays_zero (n : nat) :
  0 < N -> rd junk Cur (cur (run n)) 0 = dint 0.
Proof.
  intros HN; induction n as [|n IH].
  - unfold run, run_components; cbn [for_loop].
    apply (init_buffers_cells junk N DLC 0 HN).
  - rewrite run_components_next, process_component_slices.
    rewrite before_slice_cur_frame; [exact IH|apply well_formed_run|lia].
Qed.

(** X5.  Without components the trace is the capacitive current
    [(inputPulseSequence[j] - DLCcorrectedSequence[j]) / resistance]. *)
Theorem no_component_trace (j : nat) :
  j < N ->
  nth_error (redoxKineticsFull junk int_indefinite timePeriod resistance N inputPulseSequence
               DLC 0 loadingsArray kineticConstArray redoxPotArray symCoefArray zArray) j
  = Some ((rd junk InputPulse inputPulseSequence j - rd junk DLCcorrected DLC j) / resistance)%D.
Proof.
  intros Hj; unfold redoxKineticsFull.
  destruct (ohms_law_cells junk resistance N inputPulseSequence (run 0) (well_formed_run 0))
    as [Hlen Hcells].
  fold run.
  rewrite (nth_error_rd junk Averaged) by (rewrite length_firstn_le; lia).
  unfold rd at 1; rewrite nth_firstn_below by exact Hj.
  fold (rd junk Averaged (averagedPulseSequence (ohms_law junk resistance N inputPulseSequence
                                                   (run 0))) j).
  rewrite (Hcells j Hj); do 2 f_equal.
  unfold run, run_components; cbn [for_loop].
  f_equal; apply (init_buffers_cells junk N DLC j Hj).
Qed.

End RunInvariants.

(** The third cell after the slow species has run over the sweep. *)
Lemma potentials_agree_between_components_witness :
  2 < 5 /\
  rd examples.zeros Overcorrected (overcorrectedPulseSequence (examples.slow_run 1)) 2
  = rd examples.zeros Averaged (averagedPulseSequence (examples.slow_run 1)) 2.
Proof.
  split; [lia|].
  apply (@potentials_agree_between_components float examples.doubles examples.zeros INT_MIN
           0.01%float 100%float 5 examples.sweep [1e-9]%float [1]%float [0]%float
           [0.5]%float [1]%float 1 2).
  lia.
Defined.

(** The first current after the slow species has run over the sweep. *)
Lemma first_current_stays_zero_witness :
  0 < 5 /\ rd examples.zeros Cur (cur (examples.slow_run 1)) 0 = 0%float.
Proof.
  split; [lia|].
  apply (@first_current_stays_zero float examples.doubles examples.zeros INT_MIN
           0.01%float 100%float 5 examples.sweep [1e-9]%float [1]%float [0]%float
           [0.5]%float [1]%float 1).
  lia.
Defined.

(** The sweep against a flat corrected sequence, through 100 ohm. *)
Lemma no_component_trace_witness :
  1 < 5 /\
  nth_error (@redoxKineticsFull float examples.doubles examples.zeros INT_MIN 0.01%float
               100%float 5 examples.sweep [0; 0; 0; 0; 0]%float 0 [] [] [] [] []) 1
  = Some (-0.001)%float.
Proof.
  split; [lia|].
  apply (@no_component_trace float examples.doubles examples.zeros INT_MIN 0.01%float
           100%float 5 examples.sweep [0; 0; 0; 0; 0]%float [] [] [] [] [] 1).
  lia.
Defined.

(** ** A component without loading *)

Lemma binary64_zero (x : float) : (x =? 0)%float = true -> x = 0%float \/ x = (-0)%float.
Proof.
  rewrite FloatAxioms.eqb_spec; change (Prim2SF 0) with (S754_zero false); intros Hx.
  rewrite <- (SF2Prim_Prim2SF x).
  destruct (Prim2SF x) as [s|s| |s m e];
    try solve [discriminate Hx | destruct s; discriminate Hx].
  destruct s; [right|left]; reflexivity.
Qed.

(** X6.  In binary64 a component whose loading is zero, of either sign, gets the
    slice count 0: no slice runs, and [cur], [averagedPulseSequence] and
    [overcorrectedPulseSequence] are after the component what they were
    before it. *)
Theorem zero_loading_contributes_nothing (e : float -> float)
    (junk : array_id -> nat -> float) (int_indefinite : Z) (timePeriod resistance : float)
    (N : nat) (DLC : list float) (c : component float) (b : buffers float) :
  (loading c =? 0)%float = true ->
  let b' := @process_component float (binary64.arith e) junk int_indefinite timePeriod
              resistance N DLC c b in
  @loadingDivider float (binary64.arith e) int_indefinite c = 0%Z /\
  cur b' = cur b /\
  averagedPulseSequence b' = averagedPulseSequence b /\
  overcorrectedPulseSequence b' = overcorrectedPulseSequence b.
Proof.
  intros Hzero b'.
  assert (Hd : @loadingDivider float (binary64.arith e) int_indefinite c = 0%Z).
  { unfold loadingDivider; cbv zeta.
    destruct (binary64_zero _ Hzero) as [-> | ->]; vm_compute; reflexivity. }
  split; [exact Hd|].
  apply (@process_component_no_slice float (binary64.arith e)); rewrite Hd; lia.
Qed.

Lemma zero_loading_contributes_nothing_witness :
  (0 =? 0)%float = true /\
  @loadingDivider float examples.doubles INT_MIN
    (mkComponent 0%float 1e6%float 0%float 0.5%float 1%float) = 0%Z.
Proof.
  split; [reflexivity|].
  apply (zero_loading_contributes_nothing binary64.exp_ref examples.zeros INT_MIN 0.01%float
           100%float 3 [0; 0; 0]%float (mkComponent 0%float 1e6%float 0%float 0.5%float 1%float)
           examples.at_rest).
  reflexivity.
Defined.

(** ** Where the scans stop *)

Section ScanResults.
Context {D : Type} `{Arith D}.
Variable junk : array_id -> nat -> D.

Lemma forward_scan_least (id : array_id) (hl : list D) (bound : D) (count start : nat) :
  match fst (forward_scan junk id hl bound count start) with
  | Some j =>
      start <= j < start + count /\ dgt (rd junk id hl j) bound = true /\
      forall k, start <= k < j -> dgt (rd junk id hl k) bound = false
  | None => forall k, start <= k < start + count -> dgt (rd junk id hl k) bound = false
  end.
Proof.
  revert start; induction count as [|count IH]; intros start; simpl; [intros k Hk; lia|].
  destruct (dgt (rd junk id hl start) bound) eqn:Hq; simpl.
  - split; [lia|split; [exact Hq|intros k Hk; lia]].
  - specialize (IH (S start)).
    destruct (forward_scan junk id hl bound count (S start)) as [[j|] reads]; simpl in *.
    + destruct IH as [Hj [Hqj Hbefore]]; split; [lia|split; [exact Hqj|]].
      intros k Hk; destruct (Nat.eq_dec k start) as [->|Hne]; [exact Hq|apply Hbefore; lia].
    + intros k Hk; destruct (Nat.eq_dec k start) as [->|Hne]; [exact Hq|apply IH; lia].
Qed.

Lemma backward_scan_greatest (id : array_id) (hl : list D) (bound : D) (start : nat) :
  match fst (backward_scan junk id hl bound start) with
  | Some j =>
      1 <= j <= start /\ dgt (rd junk id hl j) bound = true /\
      forall k, j < k <= start -> dgt (rd junk id hl k) bound = false
  | None => forall k, 1 <= k <= start -> dgt (rd junk id hl k) bound = false
  end.
Proof.
  induction start as [|start IH]; simpl; [intros k Hk; lia|].
  destruct (dgt (rd junk id hl (S start)) bound) eqn:Hq; simpl.
  - split; [lia|split; [exact Hq|intros k Hk; lia]].
  - destruct (backward_scan junk id hl bound start) as [[j|] reads]; simpl in *.
    + destruct IH as [Hj [Hqj Hafter]]; split; [lia|split; [exact Hqj|]].
      intros k Hk; destruct (Nat.eq_dec k (S start)) as [->|Hne]; [exact Hq|apply Hafter; lia].
    + intros k Hk; destruct (Nat.eq_dec k (S start)) as [->|Hne]; [exact Hq|apply IH; lia].
Qed.

Lemma backward_scan_reads (id : array_id) (hl : list D) (bound : D) (start : nat) :
  Forall (fun cell => fst cell = id /\ 1 <= snd cell <= start)
    (snd (backward_scan junk id hl bound start)).
Proof.
  induction start as [|start IH]; simpl; [constructor|].
  destruct (dgt (rd junk id hl (S start)) bound).
  - constructor; [simpl; split; [reflexivity|lia]|constructor].
  - destruct (backward_scan junk id hl bound start) as [found reads]; simpl in *.
    constructor; [simpl; split; [reflexivity|lia]|].
    eapply Forall_impl; [|exact IH]; simpl; intros cell Hcell; intuition lia.
Qed.

(** X7.  The forward scan stops at the least index of its range whose half-life
    exceeds the bound, the reverse scan at the greatest index between 1 and
    its start; a scan that stops nowhere has met no such cell.  The reverse
    scan never reads cell 0. *)
Theorem scans_stop_at_first_qualifying_cell (id : array_id) (hl : list D) (bound : D)
    (count start : nat) :
  match fst (forward_scan junk id hl bound count 0) with
  | Some j =>
      j < count /\ dgt (rd junk id hl j) bound = true /\
      forall k, k < j -> dgt (rd junk id hl k) bound = false
  | None => forall k, k < count -> dgt (rd junk id hl k) bound = false
  end /\
  match fst (backward_scan junk id hl bound start) with
  | Some j =>
      1 <= j <= start /\ dgt (rd junk id hl j) bound = true /\
      forall k, j < k <= start -> dgt (rd junk id hl k) bound = false
  | None => forall k, 1 <= k <= start -> dgt (rd junk id hl k) bound = false
  end /\
  Forall (fun cell => 1 <= snd cell <= start) (snd (backward_scan junk id hl bound start)).
Proof.
  split; [|split].
  - pose proof (forward_scan_least id hl bound count 0) as Hf.
    destruct (fst (forward_scan junk id hl bound count 0)) as [j|].
    + destruct Hf as [Hj [Hq Hbefore]]; split; [lia|split; [exact Hq|]].
      intros k Hk; apply Hbefore; lia.
    + intros k Hk; apply Hf; lia.
  - apply backward_scan_greatest.
  - eapply Forall_impl; [|apply backward_scan_reads]; simpl; intros cell Hcell; tauto.
Qed.

Variable timePeriod : D.
Variable N : nat.
Variable DLC : list D.

(** X8.  With at least one time step the lookup bounds of every component
    satisfy [lookupMinTreshhold <= N - 1] and [1 <= lookupMaxTreshold <= N]:
    the passes stay inside the arrays, and the march writes at most the one
    cell behind [cur]. *)
Theorem window_bounds (c : component D) (b : buffers D) :
  0 < N ->
  let w := detect_window junk timePeriod N DLC c b in
  lookupMinTreshhold w < N /\ 1 <= lookupMaxTreshold w <= N /\
  (LookupThresholdFound w = false -> lookupMinTreshhold w = 0 /\ lookupMaxTreshold w = N).
Proof.
  intros HN w; subst w; unfold detect_window, window_scans; cbv zeta.
  destruct (positiveScanDirection junk N DLC); cbn [fst snd];
    match goal with
    | |- context [fst (forward_scan ?j ?id ?hl ?bd ?n ?st)] =>
        destruct (fst (forward_scan j id hl bd n st)) as [lo|] eqn:Hlo;
        [apply forward_scan_index in Hlo|]
    end;
    match goal with
    | |- context [fst (backward_scan ?j ?id ?hl ?bd ?n)] =>
        destruct (fst (backward_scan j id hl bd n)) as [hi|] eqn:Hhi;
        [apply backward_scan_index in Hhi|]
    end;
    cbn [lookupMinTreshhold lookupMaxTreshold LookupThresholdFound];
    (split; [lia|split; [lia|]]); intros Hf; try discriminate Hf; split; reflexivity.
Qed.

End ScanResults.

Lemma window_bounds_witness :
  0 < 5 /\
  lookupMinTreshhold
    (@detect_window float examples.doubles examples.zeros 0.01%float 5 examples.sweep
       examples.slow (examples.slow_run 0)) < 5.
Proof.
  split; [lia|].
  apply (@window_bounds float examples.doubles examples.zeros 0.01%float 5 examples.sweep
           examples.slow (examples.slow_run 0)).
  lia.
Defined.

(** * Further properties of the capacitive filters *)

Lemma binary_round_aux_opp (s : bool) (m e : Z) (l : SpecFloat.location) :
  binary_round_aux prec emax (negb s) m e l = SFopp (binary_round_aux prec emax s m e l).
Proof.
  unfold binary_round_aux.
  destruct (shr_fexp prec emax m e l) as [mrs' e'].
  destruct (shr_fexp prec emax _ e' loc_Exact) as [mrs'' e''].
  destruct (shr_m mrs''); [reflexivity| |reflexivity].
  destruct (Z.leb e'' (emax - prec)); reflexivity.
Qed.

(** In binary64 the sign of a quotient can be taken before or after the
    division. *)
Lemma binary64_opp_div (a b : float) : (- a / b = - (a / b))%float.
Proof.
  apply Prim2SF_inj; rewrite opp_spec, !div_spec, opp_spec.
  destruct (Prim2SF a) as [sa|sa| |sa ma ea], (Prim2SF b) as [sb|sb| |sb mb eb];
    try reflexivity; try (destruct sa, sb; reflexivity).
  unfold SF64div, SFdiv; cbn [SFopp].
  destruct (SFdiv_core_binary prec emax (Z.pos ma) ea (Z.pos mb) eb) as [[mz ez] lz].
  replace (xorb (negb sa) sb) with (negb (xorb sa sb)) by (destruct sa, sb; reflexivity).
  apply binary_round_aux_opp.
Qed.

Section FiltersAgree.
Context {D : Type} `{Arith D}.
Variable junk : array_id -> nat -> D.
Local Open Scope double_scope.

(** The relaxation determines the cells below [N]. *)
Lemma relaxed_unique (id id' : array_id) (decay : D) (raw a a' : list D) (N i : nat) :
  relaxed junk id decay raw a N -> relaxed junk id' decay raw a' N ->
  (i < N)%nat -> rd junk id a i = rd junk id' a' i.
Proof.
  intros [H0 Hrec] [H0' Hrec']; induction i as [|i IH]; intros Hi.
  - rewrite H0, H0'; reflexivity.
  - rewrite Hrec, Hrec' by lia.
    replace (S i - 1)%nat with i by lia; rewrite IH by lia; reflexivity.
Qed.

Lemma same_cells_same_list (id id' : array_id) (a a' : list D) (N : nat) :
  length a = N -> length a' = N ->
  (forall i, (i < N)%nat -> rd junk id a i = rd junk id' a' i) -> a = a'.
Proof.
  intros Ha Ha' Hcells.
  apply (nth_ext a a' (junk id 0) (junk id 0)); [congruence|].
  intros i Hi; rewrite Ha in Hi.
  specialize (Hcells i Hi); unfold rd in Hcells.
  rewrite (nth_indep a (junk id 0) (junk id i)) by lia.
  rewrite (nth_indep a' (junk id 0) (junk id' i)) by lia.
  exact Hcells.
Qed.

(** Two filters with the same decay term return the same sequence. *)
Lemma filters_agree_on_equal_decay (resistance capacitance pulse_time : D) (npp : Z)
    (N : nat) (raw : list D) :
  cv.decayTerm resistance capacitance (pulse_time / dint npp)
  = swv.decayTerm pulse_time resistance capacitance npp ->
  cv.dlcCorrectedCVsequence junk resistance capacitance (pulse_time / dint npp) N raw
  = swv.swvDLCCorrectedInputArray junk pulse_time resistance capacitance raw N npp.
Proof.
  intros Hdecay.
  destruct N as [|N]; [reflexivity|].
  destruct (dlcCorrectedCVsequence_relaxed junk resistance capacitance (pulse_time / dint npp)
              (S N) raw) as [Hlen Hrel]; [lia|].
  destruct (swvDLCCorrectedInputArray_relaxed junk pulse_time resistance capacitance raw
              (S N) npp) as [Hlen' Hrel']; [lia|].
  rewrite Hdecay in Hrel.
  apply (same_cells_same_list CorrectedCV CorrectedSWV _ _ (S N) Hlen Hlen').
  intros i Hi; apply (relaxed_unique _ _ _ _ _ _ _ _ Hrel Hrel' Hi).
Qed.

Lemma currents_agree (resistance : D) (N : nat) (raw corrected : list D) :
  cv.dlcCurrentCV junk resistance N raw corrected
  = swv.swvDLCcurrent junk resistance N raw corrected.
Proof.
  unfold cv.dlcCurrentCV, swv.swvDLCcurrent; cbv zeta.
  apply nth_error_ext; intros i.
  destruct (Nat.lt_ge_cases i N) as [Hi|Hi].
  - rewrite (fill_cells junk CurrentCV
               (fun i => (rd junk InputPulse raw i - rd junk DLCcorrected corrected i)
                         / resistance) N i Hi).
    rewrite (fill_cells junk CurrentSWV
               (fun i => (rd junk InputPulse raw i - rd junk DLCcorrected corrected i)
                         / resistance) N i Hi).
    reflexivity.
  - rewrite !(proj2 (nth_error_None _ _)); [reflexivity| |];
      rewrite length_firstn; lia.
Qed.

End FiltersAgree.

(** X11.  The sweep filter of cv.cpp, given the time increment [pulse_time / npp],
    and the pulse filter of swv.cpp return the same sequence, in binary64
    (for every [exp]) and in exact arithmetic; the two capacitive current
    functions return the same sequence in every arithmetic. *)
Theorem sweep_and_pulse_filters_agree :
  (forall (e : float -> float) (junk : array_id -> nat -> float)
          (resistance capacitance pulse_time : float) (npp : Z) (N : nat) (raw : list float),
     @cv.dlcCorrectedCVsequence float (binary64.arith e) junk resistance capacitance
       (pulse_time / binary64.of_Z npp)%float N raw
     = @swv.swvDLCCorrectedInputArray float (binary64.arith e) junk pulse_time resistance
         capacitance raw N npp) /\
  (forall (junk : array_id -> nat -> R) (resistance capacitance pulse_time : R) (npp : Z)
          (N : nat) (raw : list R),
     @cv.dlcCorrectedCVsequence R exact.arith junk resistance capacitance
       (pulse_time / IZR npp)%R N raw
     = @swv.swvDLCCorrectedInputArray R exact.arith junk pulse_time resistance capacitance
         raw N npp) /\
  (forall (D : Type) (H : Arith D) (junk : array_id -> nat -> D) (resistance : D) (N : nat)
          (raw corrected : list D),
     cv.dlcCurrentCV junk resistance N raw corrected
     = swv.swvDLCcurrent junk resistance N raw corrected).
Proof.
  split; [|split].
  - intros e junk resistance capacitance pulse_time npp N raw.
    apply (@filters_agree_on_equal_decay float (binary64.arith e)).
    unfold cv.decayTerm, swv.decayTerm; cbn [dsub dint dexp dopp ddiv dmul binary64.arith].
    rewrite binary64_opp_div; reflexivity.
  - intros junk resistance capacitance pulse_time npp N raw.
    apply (@filters_agree_on_equal_decay R exact.arith).
    unfold cv.decayTerm, swv.decayTerm; cbn [dsub dint dexp dopp ddiv dmul exact.arith].
    do 2 f_equal; unfold Rdiv; ring.
  - intros D H junk resistance N raw corrected; apply currents_agree.
Qed.

(** * Properties in binary64 *)

(** What [is_finite] says about the value of a double. *)
Lemma binary64_finite (x : float) :
  is_finite x = true ->
  (exists s, Prim2SF x = S754_zero s) \/ (exists s m e, Prim2SF x = S754_finite s m e).
Proof.
  unfold is_finite, is_nan, is_infinity.
  rewrite !FloatAxioms.eqb_spec, abs_spec.
  change (Prim2SF infinity) with (S754_infinity false).
  destruct (Prim2SF x) as [s|s| |s m e]; intros Hx;
    try solve [discriminate Hx | destruct s; discriminate Hx].
  - left; exists s; reflexivity.
  - right; exists s, m, e; reflexivity.
Qed.

(** A finite double subtracted from itself leaves [+0]. *)
Lemma binary64_sub_self (x : float) : is_finite x = true -> (x - x)%float = 0%float.
Proof.
  intros Hx; apply Prim2SF_inj; rewrite sub_spec.
  destruct (binary64_finite x Hx) as [[s ->]|[s [m [e ->]]]].
  - destruct s; reflexivity.
  - unfold SF64sub, SFsub, shl_align; rewrite Z.min_id, Z.sub_diag; cbn [fst].
    reflexivity.
Qed.

(** A finite double that is its own relaxation target stays where it is:
    [x - x] is [+0], [+0 * d] is a zero, and a zero added to [x] gives [x],
    unless [x] is [-0]. *)
Lemma binary64_relax_at_level (x d : float) :
  is_finite x = true -> x <> (-0)%float -> is_finite d = true ->
  (x + (x - x) * d)%float = x.
Proof.
  intros Hx Hnz Hd; rewrite binary64_sub_self by exact Hx.
  apply Prim2SF_inj; rewrite add_spec, mul_spec.
  change (Prim2SF 0) with (S754_zero false).
  assert (Hmul : exists s, SF64mul (S754_zero false) (Prim2SF d) = S754_zero s).
  { destruct (binary64_finite d Hd) as [[s ->]|[s [m [e ->]]]]; eexists; reflexivity. }
  destruct Hmul as [s ->].
  destruct (binary64_finite x Hx) as [[sx Heq]|[sx [m [e ->]]]]; [|reflexivity].
  rewrite Heq; destruct sx; [|destruct s; reflexivity].
  exfalso; apply Hnz; apply Prim2SF_inj; rewrite Heq; reflexivity.
Qed.

Section SteadyInput.
Variable e : float -> float.
Variable junk : array_id -> nat -> float.

Lemma binary64_relaxed_steady (id : array_id) (decay v : float) (raw out : list float)
    (N i : nat) :
  @relaxed float (binary64.arith e) junk id decay raw out N ->
  (forall k, k < N -> rd junk InputPulse raw k = v) ->
  is_finite v = true -> v <> (-0)%float -> is_finite decay = true ->
  i < N -> rd junk id out i = v.
Proof.
  intros [H0 Hrec] Hraw Hv Hnz Hd; induction i as [|i IH]; intros Hi.
  - rewrite H0; apply Hraw; exact Hi.
  - rewrite Hrec by lia; replace (S i - 1) with i by lia.
    rewrite IH, Hraw by lia; cbn [dadd dsub dmul binary64.arith].
    apply binary64_relax_at_level; assumption.
Qed.

(** X13.  In binary64, for every [exp]: a raw sequence that holds one finite
    value [v] other than [-0] in all its cells passes either filter
    unchanged as soon as the decay term of the filter is finite, and the
    capacitive current of the result is [0 / resistance] in every cell. *)
Theorem filters_keep_steady_input (resistance capacitance timeIncrement pulse_time v : float)
    (npp : Z) (N : nat) (raw : list float) (i : nat) :
  (forall k, k < N -> rd junk InputPulse raw k = v) ->
  is_finite v = true -> v <> (-0)%float ->
  i < N ->
  let sweep := @cv.dlcCorrectedCVsequence float (binary64.arith e) junk resistance capacitance
                 timeIncrement N raw in
  let pulse := @swv.swvDLCCorrectedInputArray float (binary64.arith e) junk pulse_time
                 resistance capacitance raw N npp in
  (is_finite (@cv.decayTerm float (binary64.arith e) resistance capacitance timeIncrement)
   = true ->
   nth_error sweep i = Some v /\
   nth_error (@cv.dlcCurrentCV float (binary64.arith e) junk resistance N raw sweep) i
   = Some (0 / resistance)%float) /\
  (is_finite (@swv.decayTerm float (binary64.arith e) pulse_time resistance capacitance npp)
   = true ->
   nth_error pulse i = Some v /\
   nth_error (@swv.swvDLCcurrent float (binary64.arith e) junk resistance N raw pulse) i
   = Some (0 / resistance)%float).
Proof.
  intros Hraw Hv Hnz Hi sweep pulse.
  assert (HN : 1 <= N) by lia.
  destruct (@dlcCorrectedCVsequence_relaxed float (binary64.arith e) junk resistance
              capacitance timeIncrement N raw HN) as [Hls Hsweep].
  destruct (@swvDLCCorrectedInputArray_relaxed float (binary64.arith e) junk pulse_time
              resistance capacitance raw N npp HN) as [Hlp Hpulse].
  fold sweep in Hls, Hsweep; fold pulse in Hlp, Hpulse.
  assert (Hzero : (v - v)%float = 0%float) by (apply binary64_sub_self; exact Hv).
  assert (Hcurrent : forall corrected : list float,
            length corrected = N -> rd junk DLCcorrected corrected i = v ->
            ((rd junk InputPulse raw i - rd junk DLCcorrected corrected i) / resistance)%float
            = (0 / resistance)%float).
  { intros corrected Hlen ->; rewrite (Hraw i Hi), Hzero; reflexivity. }
  split; intros Hd.
  - pose proof (binary64_relaxed_steady _ _ v _ _ N i Hsweep Hraw Hv Hnz Hd Hi) as Hs.
    split; [rewrite (nth_error_rd junk CorrectedCV) by lia; f_equal; exact Hs|].
    unfold cv.dlcCurrentCV; cbv zeta; cbn [ddiv dsub binary64.arith].
    rewrite (fill_cells junk CurrentCV
               (fun i => ((rd junk InputPulse raw i - rd junk DLCcorrected sweep i)
                          / resistance)%float) N i Hi).
    f_equal; apply Hcurrent; [exact Hls|].
    unfold rd in *; rewrite <- Hs; apply nth_indep; lia.
  - pose proof (binary64_relaxed_steady _ _ v _ _ N i Hpulse Hraw Hv Hnz Hd Hi) as Hp.
    split; [rewrite (nth_error_rd junk CorrectedSWV) by lia; f_equal; exact Hp|].
    unfold swv.swvDLCcurrent; cbv zeta; cbn [ddiv dsub binary64.arith].
    rewrite (fill_cells junk CurrentSWV
               (fun i => ((rd junk InputPulse raw i - rd junk DLCcorrected pulse i)
                          / resistance)%float) N i Hi).
    f_equal; apply Hcurrent; [exact Hlp|].
    unfold rd in *; rewrite <- Hp; apply nth_indep; lia.
Qed.

End SteadyInput.

(** Three samples at 0.2 through 100 ohm and 1 microfarad. *)
Lemma filters_keep_steady_input_witness :
  (forall k, k < 3 -> rd examples.zeros InputPulse [0.2; 0.2; 0.2]%float k = 0.2%float) /\
  is_finite 0.2%float = true /\ 0.2%float <> (-0)%float /\ 2 < 3 /\
  is_finite (@cv.decayTerm float examples.doubles 100%float 1e-6%float 0.01%float) = true /\
  nth_error (@cv.dlcCorrectedCVsequence float examples.doubles examples.zeros 100%float 1e-6%float
               0.01%float 3
               [0.2; 0.2; 0.2]%float) 2 = Some 0.2%float.
Proof.
  assert (Hraw : forall k, k < 3 ->
            rd examples.zeros InputPulse [0.2; 0.2; 0.2]%float k = 0.2%float)
    by (intros [|[|[|k]]] Hk; try reflexivity; lia).
  assert (Hnz : 0.2%float <> (-0)%float) by (intros Heq; discriminate (f_equal Prim2SF Heq)).
  assert (Hd : is_finite (@cv.decayTerm float examples.doubles 100%float 1e-6%float 0.01%float) = true)
    by (vm_compute; reflexivity).
  split; [exact Hraw|split; [reflexivity|split; [exact Hnz|split; [lia|split; [exact Hd|]]]]].
  destruct (filters_keep_steady_input binary64.exp_ref examples.zeros 100%float 1e-6%float
              0.01%float 0.01%float 0.2%float 10 3 [0.2; 0.2; 0.2]%float 2 Hraw eq_refl Hnz) as [Hsweep _]; [lia|].
  apply Hsweep; exact Hd.
Defined.

(** X9.  In binary64, for every [exp]: the equilibrium level [g * Kratio] is a
    fixed point of the relaxation step.  A concentration that equals it
    stays there whatever the time step, provided the level is finite and
    not [-0] and the exponential of the step is finite. *)
Theorem equilibrium_is_kept (e : float -> float) (g Kratio Ksum time : float) :
  is_finite (g * Kratio) = true -> (g * Kratio)%float <> (-0)%float ->
  is_finite (e (- Ksum * time)%float) = true ->
  @instantaneousRedConc float (binary64.arith e) (g * Kratio)%float g Kratio Ksum time
  = (g * Kratio)%float.
Proof.
  intros Hlevel Hnz He; unfold instantaneousRedConc; cbv zeta.
  cbn [dadd dsub dmul dopp dexp binary64.arith].
  apply binary64_relax_at_level; assumption.
Qed.

Lemma equilibrium_is_kept_witness :
  is_finite (1e-10 * 0.5)%float = true /\ (1e-10 * 0.5)%float <> (-0)%float /\
  is_finite (binary64.exp_ref (- 2 * 0.01)%float) = true /\
  @instantaneousRedConc float examples.doubles (1e-10 * 0.5)%float 1e-10%float
    0.5%float 2%float 0.01%float
  = (1e-10 * 0.5)%float.
Proof.
  assert (Hnz : (1e-10 * 0.5)%float <> (-0)%float)
    by (intros Heq; apply (f_equal Prim2SF) in Heq; vm_compute in Heq; discriminate Heq).
  assert (He : is_finite (binary64.exp_ref (- 2 * 0.01)%float) = true)
    by (vm_compute; reflexivity).
  split; [vm_compute; reflexivity|split; [exact Hnz|split; [exact He|]]].
  apply (equilibrium_is_kept binary64.exp_ref 1e-10%float 0.5%float 2%float 0.01%float);
    [vm_compute; reflexivity|exact Hnz|exact He].
Defined.

(** * The clocks *)

Section Clocks.
Context {D : Type} `{Arith D}.
Variable fresh : nat -> D.
Local Open Scope double_scope.

(** The running value of the pulse clock after [i] samples. *)
Lemma pulse_clock_cells (pulseTime : D) (arrLength : nat) (npp : Z) (i : nat) :
  (i < arrLength)%nat ->
  nth_error (swv.experimentClock fresh pulseTime arrLength npp) i
  = Some (swv.added (pulseTime / dint npp) i (dint 0)).
Proof.
  intros Hi; unfold swv.experimentClock; cbv zeta.
  match goal with
  | |- context [for_loop ?n ?st ?body ?s0] =>
      assert (Hinv : (fun k s =>
        length (fst s) = S arrLength /\
        snd s = swv.added (pulseTime / dint npp) k (dint 0) /\
        ((i < k)%nat ->
         nth i (fst s) (fresh i) = swv.added (pulseTime / dint npp) i (dint 0)))
        (st + n)%nat (for_loop n st body s0));
      [|destruct (for_loop n st body s0) as [clock push]]
  end.
  { apply for_loop_invariant.
    - cbn [fst snd]; rewrite length_map, length_seq.
      split; [reflexivity|split; [reflexivity|lia]].
    - intros k [clock push] Hk [Hlen [Hpush Hcell]]; cbn [fst snd] in *.
      rewrite length_upd; split; [exact Hlen|split].
      + rewrite Hpush; reflexivity.
      + intros Hik; destruct (Nat.eq_dec i k) as [->|Hne].
        * rewrite nth_upd_same by lia; exact Hpush.
        * rewrite nth_upd_other by exact Hne; apply Hcell; lia. }
  cbv beta in Hinv; cbn [fst snd] in Hinv; destruct Hinv as [Hlen [_ Hcell]].
  rewrite (nth_error_nth' _ (fresh i)) by (rewrite length_firstn_le; lia).
  rewrite nth_firstn_below by exact Hi.
  f_equal; apply Hcell; exact Hi.
Qed.

Lemma sweep_clock_cells (timeIncrement : D) (arraySize i : nat) :
  (i < arraySize)%nat ->
  nth_error (cv.experimentClock fresh timeIncrement arraySize) i
  = Some (dint (Z.of_nat i) * timeIncrement).
Proof.
  intros Hi; unfold cv.experimentClock; cbv zeta.
  apply (fill_cells (fun _ => fresh) InputPulse
           (fun i => dint (Z.of_nat i) * timeIncrement) arraySize i Hi).
Qed.

Lemma clock_lengths (timeIncrement pulseTime : D) (n : nat) (npp : Z) :
  length (cv.experimentClock fresh timeIncrement n) = n /\
  length (swv.experimentClock fresh pulseTime n npp) = n.
Proof.
  split.
  - unfold cv.experimentClock; cbv zeta; apply length_firstn_le.
    apply (for_loop_preserves (fun a => (n <= length a)%nat)).
    + rewrite length_map, length_seq; lia.
    + intros i a Ha; rewrite length_upd; exact Ha.
  - unfold swv.experimentClock; cbv zeta.
    match goal with
    | |- context [for_loop ?k ?st ?body ?s0] =>
        assert (Hlen : (n <= length (fst (for_loop k st body s0)))%nat);
        [|destruct (for_loop k st body s0) as [clock push]]
    end.
    + apply (for_loop_preserves (fun s => (n <= length (fst s))%nat)).
      * cbn [fst]; rewrite length_map, length_seq; lia.
      * intros i [clock push] Ha; cbn [fst] in *; rewrite length_upd; exact Ha.
    + apply length_firstn_le; exact Hlen.
Qed.

(** X14.  The sweep clock holds [i * timeIncrement] in cell [i]; the pulse clock
    holds the sum of [i] additions of [pulseTime / npp] to zero, one after the
    other.  Both return as many cells as asked for. *)
Theorem clocks_count_time (timeIncrement pulseTime : D) (n : nat) (npp : Z) (i : nat) :
  (i < n)%nat ->
  length (cv.experimentClock fresh timeIncrement n) = n /\
  nth_error (cv.experimentClock fresh timeIncrement n) i
  = Some (dint (Z.of_nat i) * timeIncrement) /\
  length (swv.experimentClock fresh pulseTime n npp) = n /\
  nth_error (swv.experimentClock fresh pulseTime n npp) i
  = Some (Nat.iter i (fun t => t + pulseTime / dint npp) (dint 0)).
Proof.
  intros Hi; destruct (clock_lengths timeIncrement pulseTime n npp) as [Hs Hp].
  split; [exact Hs|split; [apply sweep_clock_cells; exact Hi|]].
  split; [exact Hp|apply pulse_clock_cells; exact Hi].
Qed.

End Clocks.

(** Three ticks of 0.1, and of 1/10. *)
Lemma clocks_count_time_witness :
  2 < 3 /\
  length (@cv.experimentClock float examples.doubles (fun _ => 0%float) 0.1%float 3) = 3.
Proof.
  split; [lia|].
  apply (@clocks_count_time float examples.doubles (fun _ => 0%float) 0.1%float 1%float 3 10 2).
  lia.
Defined.

(** Over exact arithmetic the running sum of the pulse clock is the product
    of the sweep clock. *)
Lemma exact_added (step x : R) (count : nat) :
  @swv.added R exact.arith step count x = (x + IZR (Z.of_nat count) * step)%R.
Proof.
  unfold swv.added; induction count as [|count IH].
  - simpl; ring.
  - rewrite Nat2Z.inj_succ, succ_IZR, Nat.iter_succ, IH.
    cbn [dadd exact.arith]; ring.
Qed.

(** X15.  Over exact arithmetic the pulse clock and the sweep clock with the time
    increment [pulseTime / npp] return the same sequence.  In binary64 they
    need not: counting eleven samples of 1/10, the pulse clock ends one unit
    in the last place below the sweep clock. *)
Theorem exact_clocks_agree :
  (forall (fresh : nat -> R) (pulseTime : R) (n : nat) (npp : Z),
     @swv.experimentClock R exact.arith fresh pulseTime n npp
     = @cv.experimentClock R exact.arith fresh (pulseTime / IZR npp)%R n) /\
  nth_error (@swv.experimentClock float examples.doubles (fun _ => 0%float) 1%float 11 10) 10
  = Some 0x1.fffffffffffffp-1%float /\
  nth_error (@cv.experimentClock float examples.doubles (fun _ => 0%float)
               (1 / 10)%float 11) 10
  = Some 1%float.
Proof.
  split; [|split; vm_compute; reflexivity].
  intros fresh pulseTime n npp.
  destruct (@clock_lengths R exact.arith fresh (pulseTime / IZR npp)%R pulseTime n npp)
    as [Hs Hp].
  apply nth_error_ext; intros i.
  destruct (Nat.lt_ge_cases i n) as [Hi|Hi].
  - rewrite pulse_clock_cells, sweep_clock_cells by exact Hi.
    f_equal; rewrite exact_added.
    cbn [dmul ddiv dint exact.arith]; ring.
  - rewrite !(proj2 (nth_error_None _ _)); [reflexivity| |]; lia.
Qed.

(** * The pulse train *)

Lemma div_succ (k m : Z) :
  (0 <= k)%Z -> (0 < m)%Z ->
  ((k + 1) / m = k / m + (if Z.rem (k + 1) m =? 0 then 1 else 0))%Z.
Proof.
  intros Hk Hm; rewrite Z.rem_mod_nonneg by lia.
  destruct ((k + 1) mod m =? 0)%Z eqn:Hr;
    [apply Z.eqb_eq in Hr|apply Z.eqb_neq in Hr];
    Z.div_mod_to_equations; nia.
Qed.

Section PulseTrain.
Context {D : Type} `{Arith D}.
Variable junk : array_id -> nat -> D.
Local Open Scope double_scope.

Lemma square_sign_succ (falling : bool) (npp : Z) (k : nat) :
  (0 < npp)%Z ->
  swv.square_sign falling npp (S k)
  = if (Z.rem (Z.of_nat (S k)) npp =? 0)%Z
    then (- swv.square_sign falling npp k)%Z else swv.square_sign falling npp k.
Proof.
  intros Hnpp; unfold swv.square_sign; cbv zeta.
  rewrite Nat2Z.inj_succ, <- Z.add_1_r, div_succ by lia.
  destruct (Z.rem (Z.of_nat k + 1) npp =? 0)%Z.
  - rewrite Z.even_add; change (Z.even 1) with false.
    destruct (Z.even (Z.of_nat k / npp)), falling; reflexivity.
  - rewrite Z.add_0_r; reflexivity.
Qed.

Lemma stair_succ (e_start e_step : D) (npp : Z) (k : nat) :
  (0 < npp)%Z ->
  swv.stair e_start e_step npp (S k)
  = if (Z.rem (Z.of_nat (S k)) (2 * npp) =? 0)%Z
    then swv.stair e_start e_step npp k + e_step else swv.stair e_start e_step npp k.
Proof.
  intros Hnpp; unfold swv.stair, swv.added.
  rewrite Nat2Z.inj_succ, <- Z.add_1_r, div_succ by lia.
  destruct (Z.rem (Z.of_nat k + 1) (2 * npp) =? 0)%Z.
  - rewrite Z2Nat.inj_add by (try apply Z.div_pos; lia).
    change (Z.to_nat 1) with 1%nat; rewrite Nat.add_1_r; reflexivity.
  - rewrite Z.add_0_r; reflexivity.
Qed.

(** The square wave, sample by sample. *)
Lemma square_wave_cells (amplit : D) (falling : bool) (npp : Z) (N : nat) (a : list D) :
  (0 < npp)%Z -> length a = S N ->
  let a' := fst (for_loop N 0 (swv.square_wave_step amplit npp)
                   (a, if falling then 1%Z else (-1)%Z)) in
  length a' = S N /\
  forall k, (k < N)%nat -> rd junk InputPulse a' k = amplit * dint (swv.square_sign falling npp k).
Proof.
  intros Hnpp Ha a'; subst a'.
  match goal with
  | |- context [for_loop ?n ?st ?body ?s0] =>
      assert (Hinv : (fun i s =>
        length (fst s) = S N /\
        snd s = match i with
                | O => if falling then 1%Z else (-1)%Z
                | S k => swv.square_sign falling npp k
                end /\
        forall k, (k < i)%nat ->
          rd junk InputPulse (fst s) k = amplit * dint (swv.square_sign falling npp k))
        (st + n)%nat (for_loop n st body s0))
  end.
  { apply for_loop_invariant.
    - cbn [fst snd]; split; [exact Ha|split; [reflexivity|intros k Hk; lia]].
    - intros i [b flag] Hi [Hlen [Hflag Hcells]]; cbn [fst snd] in *.
      unfold swv.square_wave_step; cbn [fst snd].
      assert (Hnew : (if (Z.rem (Z.of_nat i) npp =? 0)%Z then (- flag)%Z else flag)
                     = swv.square_sign falling npp i).
      { destruct i as [|k].
        - rewrite Hflag; unfold swv.square_sign; cbv zeta.
          change (Z.of_nat 0) with 0%Z; rewrite Z.rem_0_l by lia.
          rewrite Z.div_0_l by lia; destruct falling; reflexivity.
        - rewrite Hflag, square_sign_succ by exact Hnpp; reflexivity. }
      rewrite Hnew, length_upd; split; [exact Hlen|split; [reflexivity|]].
      intros k Hk; destruct (Nat.eq_dec k i) as [->|Hne].
      + apply rd_upd_same; lia.
      + rewrite rd_upd_other by exact Hne; apply Hcells; lia. }
  cbv beta in Hinv; destruct Hinv as [Hlen [_ Hcells]]; split; [exact Hlen|].
  intros k Hk; apply Hcells; exact Hk.
Qed.

(** The staircase, added sample by sample. *)
Lemma staircase_cells (e_start e_step : D) (npp : Z) (N : nat) (a : list D) :
  (0 < npp)%Z -> length a = S N ->
  let a' := fst (for_loop N 0 (swv.staircase_step junk e_step npp) (a, e_start - e_step)) in
  length a' = S N /\
  forall k, (k < N)%nat ->
    rd junk InputPulse a' k = rd junk InputPulse a k + swv.stair e_start e_step npp k.
Proof.
  intros Hnpp Ha a'; subst a'.
  match goal with
  | |- context [for_loop ?n ?st ?body ?s0] =>
      assert (Hinv : (fun i s =>
        length (fst s) = S N /\
        snd s = match i with
                | O => e_start - e_step
                | S k => swv.stair e_start e_step npp k
                end /\
        forall k,
          ((k < i)%nat ->
           rd junk InputPulse (fst s) k
           = rd junk InputPulse a k + swv.stair e_start e_step npp k) /\
          ((i <= k)%nat -> rd junk InputPulse (fst s) k = rd junk InputPulse a k))
        (st + n)%nat (for_loop n st body s0))
  end.
  { apply for_loop_invariant.
    - cbn [fst snd]; split; [exact Ha|split; [reflexivity|]].
      intros k; split; [lia|reflexivity].
    - intros i [b push] Hi [Hlen [Hpush Hcells]]; cbn [fst snd] in *.
      unfold swv.staircase_step; cbn [fst snd].
      assert (Hnew : (if (Z.rem (Z.of_nat i) (2 * npp) =? 0)%Z then push + e_step else push)
                     = swv.stair e_start e_step npp i).
      { destruct i as [|k].
        - rewrite Hpush; unfold swv.stair, swv.added.
          change (Z.of_nat 0) with 0%Z; rewrite Z.rem_0_l by lia.
          rewrite Z.div_0_l by lia; reflexivity.
        - rewrite Hpush, stair_succ by exact Hnpp; reflexivity. }
      rewrite Hnew, length_upd; split; [exact Hlen|split; [reflexivity|]].
      intros k; split; intros Hk.
      + destruct (Nat.eq_dec k i) as [->|Hne].
        * rewrite rd_upd_same by lia.
          destruct (Hcells i) as [_ Hsame]; rewrite Hsame by lia; reflexivity.
        * rewrite rd_upd_other by exact Hne; apply Hcells; lia.
      + rewrite rd_upd_other by lia; apply Hcells; lia. }
  cbv beta in Hinv; destruct Hinv as [Hlen [_ Hcells]]; split; [exact Hlen|].
  intros k Hk; apply Hcells; exact Hk.
Qed.

Lemma swvInputArray_cells (e_step amplit e_start : D) (arraySize : nat) (npp : Z)
    (i : nat) :
  (0 < npp)%Z -> (2 * npp <= INT_MAX)%Z -> (i < arraySize)%nat ->
  exists inputSequence,
    swv.swvInputArray junk e_step amplit e_start arraySize npp = Some inputSequence /\
    length inputSequence = arraySize /\
    nth_error inputSequence i
    = Some (amplit * dint (swv.square_sign (dint 0 >? e_step) npp i)
            + Nat.iter (S (Z.to_nat (Z.of_nat i / (2 * npp)))) (fun level => level + e_step)
                (e_start - e_step)).
Proof.
  intros Hnpp Hfit Hi; unfold swv.swvInputArray.
  assert (Hguard : (npp =? 0)%Z || negb (fits_int (2 * npp)) = false).
  { apply orb_false_iff; split; [apply Z.eqb_neq; lia|].
    apply negb_false_iff; unfold fits_int, INT_MIN, INT_MAX in *.
    apply andb_true_iff; split; apply Z.leb_le; lia. }
  rewrite Hguard, andb_false_r; cbv zeta.
  set (block := alloc junk InputPulse arraySize).
  assert (Hblock : length block = S arraySize) by apply length_alloc.
  assert (Hsquare : exists wave,
            (if dint 0 >? e_step
             then fst (for_loop arraySize 0 (swv.square_wave_step amplit npp) (block, 1%Z))
             else fst (for_loop arraySize 0 (swv.square_wave_step amplit npp) (block, (-1)%Z)))
            = wave /\ length wave = S arraySize /\
            forall k, (k < arraySize)%nat ->
              rd junk InputPulse wave k
              = amplit * dint (swv.square_sign (dint 0 >? e_step) npp k)).
  { destruct (dint 0 >? e_step); eexists; (split; [reflexivity|]).
    - apply (square_wave_cells amplit true npp arraySize block Hnpp Hblock).
    - apply (square_wave_cells amplit false npp arraySize block Hnpp Hblock). }
  destruct Hsquare as [wave [-> [Hwave Hcells]]].
  destruct (staircase_cells e_start e_step npp arraySize wave Hnpp Hwave) as [Hlen Hstairs].
  eexists; split; [reflexivity|split; [apply length_firstn_le; lia|]].
  rewrite (nth_error_rd junk InputPulse) by (rewrite length_firstn_le; lia).
  unfold rd at 1; rewrite nth_firstn_below by exact Hi.
  fold (rd junk InputPulse
          (fst (for_loop arraySize 0 (swv.staircase_step junk e_step npp)
                  (wave, e_start - e_step))) i).
  rewrite (Hstairs i Hi), (Hcells i Hi); reflexivity.
Qed.

(** X16.  With [npp] positive and [2 * npp] an [int], the pulse train has
    [arraySize] samples, and sample [i] is the square wave plus the
    staircase: [amplit] times a sign that starts at -1 for a negative
    [e_step], at +1 otherwise, and flips every [npp] samples, plus
    [e_start - e_step] with [e_step] added once at sample 0 and once at
    every multiple of [2 * npp] up to [i]. *)
Theorem swvInputArray_samples (e_step amplit e_start : D) (arraySize : nat) (npp : Z)
    (i : nat) :
  (0 < npp)%Z -> (2 * npp <= INT_MAX)%Z -> (i < arraySize)%nat ->
  exists inputSequence,
    swv.swvInputArray junk e_step amplit e_start arraySize npp = Some inputSequence /\
    length inputSequence = arraySize /\
    nth_error inputSequence i
    = Some (amplit * dint (swv.square_sign (dint 0 >? e_step) npp i)
            + Nat.iter (S (Z.to_nat (Z.of_nat i / (2 * npp)))) (fun level => level + e_step)
                (e_start - e_step)).
Proof. apply swvInputArray_cells. Qed.

End PulseTrain.

(** Four samples with one point per pulse. *)
Lemma swvInputArray_samples_witness :
  (0 < 1)%Z /\ (2 * 1 <= INT_MAX)%Z /\ 3 < 4 /\
  exists inputSequence,
    @swv.swvInputArray float examples.doubles examples.zeros 0.01%float 0.05%float 0%float 4 1
    = Some inputSequence /\
    length inputSequence = 4 /\
    nth_error inputSequence 3
    = Some (@dadd float examples.doubles
              (@dmul float examples.doubles 0.05%float
                 (@dint float examples.doubles (swv.square_sign (@dgt float examples.doubles (@dint float examples.doubles 0) 0.01%float) 1 3)))
              (Nat.iter (S (Z.to_nat (Z.of_nat 3 / (2 * 1))))
                 (fun level => @dadd float examples.doubles level 0.01%float)
                 (@dsub float examples.doubles 0%float 0.01%float))).
Proof.
  split; [lia|split; [unfold INT_MAX; lia|split; [lia|]]].
  apply (@swvInputArray_samples float examples.doubles examples.zeros 0.01%float 0.05%float
           0%float 4 1 3); [lia|unfold INT_MAX; lia|lia].
Defined.

Section PulseTrainPeriod.
Context {D : Type} `{Arith D}.
Variable junk : array_id -> nat -> D.
Local Open Scope double_scope.

(** X17.  One period of [2 * npp] samples later the pulse train has the same
    sign of the square wave and a staircase level that is one more addition
    of [e_step]: sample [i + 2 * npp] is [amplit * sign + (level + e_step)]
    where sample [i] is [amplit * sign + level]. *)
Theorem pulse_train_period (e_step amplit e_start : D) (arraySize : nat) (npp : Z)
    (i : nat) :
  (0 < npp)%Z -> (2 * npp <= INT_MAX)%Z -> (i + Z.to_nat (2 * npp) < arraySize)%nat ->
  let sign := dint (swv.square_sign (dint 0 >? e_step) npp i) in
  let level := Nat.iter (S (Z.to_nat (Z.of_nat i / (2 * npp))))
                 (fun level => level + e_step) (e_start - e_step) in
  exists inputSequence,
    swv.swvInputArray junk e_step amplit e_start arraySize npp = Some inputSequence /\
    nth_error inputSequence i = Some (amplit * sign + level) /\
    nth_error inputSequence (i + Z.to_nat (2 * npp))
    = Some (amplit * sign + (level + e_step)).
Proof.
  intros Hnpp Hfit Hi sign level.
  destruct (swvInputArray_cells junk e_step amplit e_start arraySize npp i
              Hnpp Hfit) as [out [Hout [_ Hcell]]]; [lia|].
  destruct (swvInputArray_cells junk e_step amplit e_start arraySize npp
              (i + Z.to_nat (2 * npp)) Hnpp Hfit Hi) as [out' [Hout' [_ Hcell']]].
  rewrite Hout in Hout'; injection Hout' as <-.
  exists out; split; [exact Hout|split; [exact Hcell|]].
  rewrite Hcell'; f_equal.
  assert (Hq : (Z.of_nat (i + Z.to_nat (2 * npp)) / (2 * npp)
                = Z.of_nat i / (2 * npp) + 1)%Z).
  { rewrite Nat2Z.inj_add, Z2Nat.id by lia.
    replace (Z.of_nat i + 2 * npp)%Z with (Z.of_nat i + 1 * (2 * npp))%Z by lia.
    apply Z.div_add; lia. }
  assert (Hsign : swv.square_sign (dint 0 >? e_step) npp (i + Z.to_nat (2 * npp))
                  = swv.square_sign (dint 0 >? e_step) npp i).
  { unfold swv.square_sign; cbv zeta.
    rewrite Nat2Z.inj_add, Z2Nat.id by lia.
    rewrite Z.div_add by lia.
    rewrite Z.even_add; change (Z.even 2) with true.
    destruct (Z.even (Z.of_nat i / npp)); reflexivity. }
  rewrite Hsign, Hq; fold sign.
  replace (Z.to_nat (Z.of_nat i / (2 * npp) + 1))
    with (S (Z.to_nat (Z.of_nat i / (2 * npp))))
    by (rewrite Z2Nat.inj_add by (try apply Z.div_pos; lia); simpl; lia).
  rewrite Nat.iter_succ; reflexivity.
Qed.

End PulseTrainPeriod.

(** Six samples with one point per pulse and steps of 0.01: sample 5 is the
    level of sample 3 with one more step added, under the same pulse. *)
Lemma pulse_train_period_witness :
  (0 < 1)%Z /\ (2 * 1 <= INT_MAX)%Z /\ 3 + Z.to_nat (2 * 1) < 6 /\
  exists inputSequence,
    @swv.swvInputArray float examples.doubles examples.zeros 0.01%float 0.05%float 0%float 6 1
    = Some inputSequence /\
    nth_error inputSequence 3 = Some (0.05 * -1 + (0 - 0.01 + 0.01 + 0.01))%float /\
    nth_error inputSequence (3 + Z.to_nat (2 * 1))
    = Some (0.05 * -1 + (0 - 0.01 + 0.01 + 0.01 + 0.01))%float.
Proof.
  split; [lia|split; [unfold INT_MAX; lia|split; [simpl; lia|]]].
  apply (@pulse_train_period float examples.doubles examples.zeros 0.01%float 0.05%float
           0%float 6 1 3); [lia|unfold INT_MAX; lia|simpl; lia].
Defined.

(** * The sweep *)

Section IndexedFill.
Context {D : Type}.
Variable junk : array_id -> nat -> D.

(** A fresh block holds what memory held. *)
Lemma rd_alloc (id : array_id) (n j : nat) : rd junk id (alloc junk id n) j = junk id j.
Proof.
  unfold rd, alloc.
  destruct (Nat.lt_ge_cases j (S n)) as [Hj|Hj].
  - rewrite (nth_indep _ _ (junk id 0)) by (rewrite length_map, length_seq; exact Hj).
    rewrite map_nth, seq_nth by exact Hj; reflexivity.
  - apply nth_overflow; rewrite length_map, length_seq; exact Hj.
Qed.

(** A loop that stores [value i] in cell [place i], the places being
    distinct cells of the block. *)
Lemma fill_places (id : array_id) (place : nat -> nat) (value : nat -> D)
    (count start : nat) (a : list D) :
  (forall i, start <= i < start + count -> place i < length a) ->
  (forall i i', start <= i < start + count -> start <= i' < start + count ->
     place i = place i' -> i = i') ->
  let a' := for_loop count start (fun i a => upd (place i) (value i) a) a in
  length a' = length a /\
  (forall i, start <= i < start + count -> rd junk id a' (place i) = value i) /\
  (forall k, (forall i, start <= i < start + count -> place i <> k) ->
     rd junk id a' k = rd junk id a k).
Proof.
  intros Hin Hinj a'; subst a'.
  match goal with
  | |- context [for_loop ?n ?st ?body ?s0] =>
      assert (Hinv : (fun n' s =>
        length s = length a /\
        (forall i, start <= i < n' -> rd junk id s (place i) = value i) /\
        (forall k, (forall i, start <= i < n' -> place i <> k) ->
           rd junk id s k = rd junk id a k))
        (st + n) (for_loop n st body s0))
  end.
  { apply for_loop_invariant.
    - split; [reflexivity|split; [intros i Hi; lia|reflexivity]].
    - intros n s Hn [Hlen [Hcells Hrest]]; rewrite length_upd.
      split; [exact Hlen|split].
      + intros i Hi; destruct (Nat.eq_dec i n) as [->|Hne].
        * apply rd_upd_same; rewrite Hlen; apply Hin; lia.
        * rewrite rd_upd_other; [apply Hcells; lia|].
          intros Heq; apply Hne; apply Hinj; [lia|lia|exact Heq].
      + intros k Hk; rewrite rd_upd_other by (intros Heq; apply (Hk n); [lia|auto]).
        apply Hrest; intros i Hi; apply Hk; lia. }
  cbv beta in Hinv; exact Hinv.
Qed.

End IndexedFill.

Section SweepLegs.
Context {D : Type} `{Arith D}.
Variable junk : array_id -> nat -> D.
Variable int_indefinite : Z.
Variable round : D -> D.
Local Open Scope double_scope.

(** The two loops of one branch, when the legs fit the block: the forward
    leg in the cells below [forward], the reverse leg in the [forward - 1]
    cells after it, and nothing behind. *)
Lemma legs_cells (forward_value backward_value : nat -> D) (forward N : nat) :
  let backward := (forward - 1)%nat in
  (forward + backward <= N)%nat ->
  let block := alloc junk InputPulse N in
  let legs :=
    for_loop backward 1 (fun i a => upd (forward + i - 1) (backward_value i) a)
      (for_loop forward 0 (fun i a => upd i (forward_value i) a) block) in
  length legs = S N /\
  forall k,
    ((k < forward)%nat -> rd junk InputPulse legs k = forward_value k) /\
    ((forward <= k < forward + backward)%nat ->
     rd junk InputPulse legs k = backward_value (k - forward + 1)%nat) /\
    ((forward + backward <= k)%nat -> rd junk InputPulse legs k = junk InputPulse k).
Proof.
  intros backward Hfit block legs.
  destruct (fill_places junk InputPulse (fun i => i) forward_value forward 0 block)
    as [Hlen1 [Hcells1 Hrest1]].
  { intros i Hi; subst block; rewrite length_alloc; lia. }
  { intros i i' _ _ Heq; exact Heq. }
  set (first := for_loop forward 0 (fun i a => upd i (forward_value i) a) block) in *.
  destruct (fill_places junk InputPulse (fun i => (forward + i - 1)%nat) backward_value
              backward 1 first) as [Hlen2 [Hcells2 Hrest2]].
  { intros i Hi; rewrite Hlen1; subst block; rewrite length_alloc; lia. }
  { intros i i' Hi Hi' Heq; lia. }
  fold legs in Hlen2, Hcells2, Hrest2.
  split; [rewrite Hlen2, Hlen1; subst block; apply length_alloc|].
  intros k; split; [|split]; intros Hk.
  - rewrite Hrest2 by (intros i Hi; lia); apply Hcells1; lia.
  - replace k with (forward + (k - forward + 1) - 1)%nat at 1 by lia.
    apply Hcells2; subst backward; lia.
  - rewrite Hrest2 by (intros i Hi; subst backward; lia).
    rewrite Hrest1 by (intros i Hi; lia).
    subst block; apply rd_alloc.
Qed.

(** X18.  When [forwardLen] is above [INT_MIN] and at most 2^30 and the two
    legs, [2 * forwardLen - 1] cells, fit the [arraySize] cells of the
    block, the sweep is: the first [forwardLen] cells step from [e_start]
    (up for a rising sweep, down for a falling one), the next
    [forwardLen - 1] step back from [e_end], and the cells behind the two
    legs are left as allocated. *)
Theorem rawCVsequence_legs (e_start e_end : D) (digitalResolution : Z) (arraySize k : nat) :
  let forwardLen := cv.forwardLen int_indefinite round e_start e_end digitalResolution in
  let forward := Z.to_nat forwardLen in
  let eIncrement := dlit 1.0 / dint digitalResolution in
  (INT_MIN < forwardLen <= 1073741824)%Z ->
  (forward + (forward - 1) <= arraySize)%nat ->
  (k < arraySize)%nat ->
  exists sweep,
    cv.rawCVsequence junk int_indefinite round e_start e_end digitalResolution arraySize
    = Some sweep /\
    length sweep = arraySize /\
    ((k < forward)%nat ->
     nth_error sweep k
     = Some (if e_end >? e_start then e_start + dint (Z.of_nat k) * eIncrement
             else e_start - dint (Z.of_nat k) * eIncrement)) /\
    ((forward <= k < forward + (forward - 1))%nat ->
     nth_error sweep k
     = Some (if e_end >? e_start
             then e_end - dint (Z.of_nat (k - forward + 1)) * eIncrement
             else e_end + dint (Z.of_nat (k - forward + 1)) * eIncrement)) /\
    ((forward + (forward - 1) <= k)%nat -> nth_error sweep k = Some (junk InputPulse k)).
Proof.
  intros forwardLen forward eIncrement Hlen Hfit Hk.
  unfold cv.rawCVsequence; cbv zeta; fold forwardLen.
  assert (Hguard : ((INT_MIN <? forwardLen) && (forwardLen <=? 1073741824))%Z = true).
  { apply andb_true_iff; split; [apply Z.ltb_lt|apply Z.leb_le]; lia. }
  rewrite Hguard.
  assert (Hback : Z.to_nat (cv.backwardLen int_indefinite round e_start e_end digitalResolution)
                  = (forward - 1)%nat).
  { unfold cv.backwardLen; fold forwardLen.
    rewrite wrap_int_fits by (unfold INT_MIN, INT_MAX in *; lia).
    subst forward; lia. }
  rewrite Hback; fold forward; fold eIncrement.
  rewrite (proj2 (Nat.leb_le _ _) Hfit).
  eexists; split; [reflexivity|].
  destruct (e_end >? e_start);
    match goal with
    | |- context [for_loop (forward - 1) 1 (fun i a => upd (forward + i - 1) (@?bv i) a)
                    (for_loop forward 0 (fun j b => upd j (@?fv j) b) _)] =>
        destruct (legs_cells fv bv forward arraySize Hfit) as [Hlegs Hcells]
    end;
    (split; [apply length_firstn_le; rewrite Hlegs; lia|]);
    destruct (Hcells k) as [Hf [Hb Hrest]];
    (split; [|split]); intros Hrange;
      rewrite (nth_error_rd junk InputPulse) by (rewrite length_firstn_le; rewrite ?Hlegs; lia);
      unfold rd at 1; rewrite nth_firstn_below by exact Hk;
      f_equal; first [apply Hf|apply Hb|apply Hrest]; exact Hrange.
Qed.

End SweepLegs.

(** A sweep from 0 to 0.002 at 1000 points per volt: three samples up, two down. *)
Lemma rawCVsequence_legs_witness :
  (INT_MIN < @cv.forwardLen float examples.doubles INT_MIN binary64.round 0%float 0.002%float
               1000 <= 1073741824)%Z /\
  Z.to_nat (@cv.forwardLen float examples.doubles INT_MIN binary64.round 0%float 0.002%float
              1000)
  + (Z.to_nat (@cv.forwardLen float examples.doubles INT_MIN binary64.round 0%float
                 0.002%float 1000) - 1) <= 5 /\
  3 < 5 /\
  exists sweep,
    @cv.rawCVsequence float examples.doubles examples.zeros INT_MIN binary64.round 0%float
      0.002%float 1000 5 = Some sweep /\
    length sweep = 5 /\
    nth_error sweep 1 = Some (0 + 1 * (1 / 1000))%float /\
    nth_error sweep 3 = Some (0.002 - 1 * (1 / 1000))%float.
Proof.
  assert (Hlen : (INT_MIN < @cv.forwardLen float examples.doubles INT_MIN binary64.round
                              0%float 0.002%float 1000 <= 1073741824)%Z)
    by (split; [apply Z.ltb_lt|apply Z.leb_le]; vm_compute; reflexivity).
  assert (Hfit : Z.to_nat (@cv.forwardLen float examples.doubles INT_MIN binary64.round
                             0%float 0.002%float 1000)
                 + (Z.to_nat (@cv.forwardLen float examples.doubles INT_MIN binary64.round
                                0%float 0.002%float 1000) - 1) <= 5)
    by (apply Nat.leb_le; vm_compute; reflexivity).
  split; [exact Hlen|split; [exact Hfit|split; [lia|]]].
  destruct (@rawCVsequence_legs float examples.doubles examples.zeros INT_MIN binary64.round
              0%float 0.002%float 1000 5 1 Hlen Hfit)
    as [sweep [Hsweep [Hlength [Hforward _]]]]; [lia|].
  destruct (@rawCVsequence_legs float examples.doubles examples.zeros INT_MIN binary64.round
              0%float 0.002%float 1000 5 3 Hlen Hfit)
    as [sweep' [Hsweep' [_ [_ [Hbackward _]]]]]; [lia|].
  rewrite Hsweep in Hsweep'; injection Hsweep' as <-.
  exists sweep; split; [exact Hsweep|split; [exact Hlength|split]].
  - apply Hforward; vm_compute; lia.
  - apply Hbackward; vm_compute; lia.
Defined.
